(** * comfy_execution/graph.py: the dependency scheduler

    A shallow embedding of [DynamicPrompt], [TopologicalSort] and
    [ExecutionList], and the properties of the scheduler that the
    specification states about them.

    Conventions.
    - Python dictionaries whose iteration order is observed (the pending set,
      the [blocking] edges, a node's inputs, the class counters) are
      insertion-ordered association lists ([dict]); dictionaries that are only
      looked up ([blockCount], the prompt tables) are [gmap]s.
    - Exceptions are values of [exn].  Read-only methods return a [result];
      mutating methods are state transformers returning an [outcome], which
      keeps the state reached when an exception escapes (a Python object stays
      mutated when a method raises half-way).
    - [while] loops whose termination is not structural take a [fuel]
      argument; [OutOfFuel] is an artefact of the model and each loop comes
      with a lemma giving a fuel that is enough. *)

From Stdlib Require Import ZArith String Ascii.
From stdpp Require Import gmap strings list fin_maps.

Local Open Scope Z_scope.

Abbreviation node_id := string.

(** ** Insertion-ordered dictionaries *)

Section dict.
Context {K : Type} `{EqDecision K} {V : Type}.

(** [d[k]], [None] standing for the KeyError. *)
Fixpoint dict_get (k : K) (d : list (K * V)) : option V :=
  match d with
  | [] => None
  | (k', v) :: d' => if decide (k = k') then Some v else dict_get k d'
  end.

(** [k in d] *)
Definition dict_mem (k : K) (d : list (K * V)) : bool :=
  match dict_get k d with Some _ => true | None => false end.

(** [d[k] = v]: an existing key keeps its position, a new key goes last. *)
Fixpoint dict_set (k : K) (v : V) (d : list (K * V)) : list (K * V) :=
  match d with
  | [] => [(k, v)]
  | (k', v') :: d' =>
      if decide (k = k') then (k', v) :: d' else (k', v') :: dict_set k v d'
  end.

(** [del d[k]] for a key that is present. *)
Fixpoint dict_del (k : K) (d : list (K * V)) : list (K * V) :=
  match d with
  | [] => []
  | (k', v') :: d' =>
      if decide (k = k') then d' else (k', v') :: dict_del k d'
  end.

Definition dict_keys (d : list (K * V)) : list K := d.*1.
Definition dict_values (d : list (K * V)) : list V := d.*2.

(** Keys are unique in every dictionary the program builds. *)
Definition dict_wf (d : list (K * V)) : Prop := NoDup (dict_keys d).
End dict.

Abbreviation dict K V := (list (K * V)).

(** ** Exceptions and the two result types *)

Inductive exn : Type :=
| NodeNotFoundError (n : node_id)
| NodeInputError
| DependencyCycleError
| KeyError
| AssertionError
| ValueError
| IndexError.

Inductive result (A : Type) : Type :=
| Val (a : A)
| Exc (e : exn)
| NoFuel.
Arguments Val {A} a.
Arguments Exc {A} e.
Arguments NoFuel {A}.

Inductive outcome (S A : Type) : Type :=
| Ok (a : A) (s : S)
| Raise (e : exn) (s : S)
| OutOfFuel.
Arguments Ok {S A} a s.
Arguments Raise {S A} e s.
Arguments OutOfFuel {S A}.

Definition M (S A : Type) : Type := S → outcome S A.

Definition ret {S A} (a : A) : M S A := λ s, Ok a s.
Definition bind {S A B} (m : M S A) (k : A → M S B) : M S B :=
  λ s, match m s with
       | Ok a s' => k a s'
       | Raise e s' => Raise e s'
       | OutOfFuel => OutOfFuel
       end.
Definition raise {S A} (e : exn) : M S A := λ s, Raise e s.
Definition gets {S A} (f : S → A) : M S A := λ s, Ok (f s) s.
Definition modify {S} (f : S → S) : M S () := λ s, Ok () (f s).
Definition out_of_fuel {S A} : M S A := λ _, OutOfFuel.
(** Run a read-only computation on the current state. *)
Definition query {S A} (f : S → result A) : M S A :=
  λ s, match f s with
       | Val a => Ok a s
       | Exc e => Raise e s
       | NoFuel => OutOfFuel
       end.

Definition rbind {A B} (r : result A) (k : A → result B) : result B :=
  match r with Val a => k a | Exc e => Exc e | NoFuel => NoFuel end.

Declare Scope py_scope.
Delimit Scope py_scope with py.
Notation "x <- m ;; k" := (bind m (λ x, k))
  (at level 100, m at next level, right associativity) : py_scope.
Notation "m ;; k" := (bind m (λ _, k))
  (at level 100, right associativity) : py_scope.
Notation "x <-? r ;; k" := (rbind r (λ x, k))
  (at level 100, r at next level, right associativity) : py_scope.
Local Open Scope py_scope.

(** [for x in xs: body x] *)
Fixpoint for_each {S A} (xs : list A) (body : A → M S ()) : M S () :=
  match xs with
  | [] => ret ()
  | x :: xs' => body x ;; for_each xs' body
  end.

(** ** The prompt *)

(** Modelled from the spec: [comfy_execution.graph_utils.is_link] is not part
    of this file.  Section 3 of the specification gives an input as either a
    constant payload, opaque to the scheduler, or a link
    [(producer_node_ref, producer_socket_index)]; [is_link] tells them apart. *)
Inductive InputValue : Type :=
| Constant
| Link (from_node_id : node_id) (from_socket : Z).

Definition is_link (v : InputValue) : bool :=
  match v with Link _ _ => true | Constant => false end.

Record Node : Type := {
  class_type : string;
  inputs : dict string InputValue;
}.

Record DynamicPrompt : Type := {
  original_prompt : gmap node_id Node;
  ephemeral_prompt : gmap node_id Node;
  ephemeral_parents : gmap node_id node_id;
  ephemeral_display : gmap node_id node_id;
}.

Module DynamicPrompt.

Definition __init__ (original_prompt : gmap node_id Node) : DynamicPrompt :=
  {| original_prompt := original_prompt;
     ephemeral_prompt := ∅;
     ephemeral_parents := ∅;
     ephemeral_display := ∅ |}.

Definition get_node (self : DynamicPrompt) (n : node_id) : result Node :=
  match ephemeral_prompt self !! n with
  | Some node => Val node
  | None =>
      match original_prompt self !! n with
      | Some node => Val node
      | None => Exc (NodeNotFoundError n)
      end
  end.

Definition has_node (self : DynamicPrompt) (n : node_id) : bool :=
  bool_decide (is_Some (original_prompt self !! n))
  || bool_decide (is_Some (ephemeral_prompt self !! n)).

Definition add_ephemeral_node (self : DynamicPrompt)
    (n : node_id) (node_info : Node) (parent_id display_id : node_id)
    : DynamicPrompt :=
  {| original_prompt := original_prompt self;
     ephemeral_prompt := <[n := node_info]> (ephemeral_prompt self);
     ephemeral_parents := <[n := parent_id]> (ephemeral_parents self);
     ephemeral_display := <[n := display_id]> (ephemeral_display self) |}.

(** The loop shared by [get_real_node_id] and [get_display_node_id]:
    [while node_id in table: node_id = table[node_id]].  The membership test
    and the subscript are kept apart, as in the source, so that the
    subscript is seen not to fail. *)
Fixpoint follow (fuel : nat) (table : gmap node_id node_id) (n : node_id)
    : result node_id :=
  if bool_decide (is_Some (table !! n)) then
    match fuel with
    | O => NoFuel
    | S fuel' =>
        match table !! n with
        | Some n' => follow fuel' table n'
        | None => Exc KeyError
        end
    end
  else Val n.

Definition get_real_node_id (fuel : nat) (self : DynamicPrompt) (n : node_id)
    : result node_id :=
  follow fuel (ephemeral_parents self) n.

Definition get_parent_node_id (self : DynamicPrompt) (n : node_id)
    : option node_id :=
  ephemeral_parents self !! n.

Definition get_display_node_id (fuel : nat) (self : DynamicPrompt) (n : node_id)
    : result node_id :=
  follow fuel (ephemeral_display self) n.

Definition all_node_ids (self : DynamicPrompt) : gset node_id :=
  dom (original_prompt self) ∪ dom (ephemeral_prompt self).

Definition get_original_prompt (self : DynamicPrompt) : gmap node_id Node :=
  original_prompt self.

End DynamicPrompt.

(** ** Node type metadata

    [nodes.NODE_CLASS_MAPPINGS] is a registry owned by another module.  The
    scheduler reads two things from a class: the value of [INPUT_TYPES()] and
    the [OUTPUT_NODE] attribute.  The registry is a parameter of everything
    below. *)

Inductive InputCategory : Type := required | optional | hidden.

(** The options dictionary of an input; the scheduler reads its ["lazy"]
    key only ([None]: the key is absent). *)
Record InputTypeOptions : Type := { lazy_option : option bool }.

(** [input_info]: the declared type, then the options when present. *)
Record InputInfo : Type := {
  input_type : string;
  input_options : option InputTypeOptions;
}.

Record InputTypeDict : Type := {
  required_inputs : option (dict string InputInfo);
  optional_inputs : option (dict string InputInfo);
  hidden_inputs : option (dict string InputInfo);
}.

Record ClassDef : Type := {
  INPUT_TYPES : InputTypeDict;
  OUTPUT_NODE : option bool;
}.

Definition in_category (c : option (dict string InputInfo)) (input_name : string)
    : option InputInfo :=
  match c with
  | Some d => dict_get input_name d
  | None => None
  end.

(** A dictionary is falsy when it has no key. *)
Definition truthy (v : InputTypeDict) : bool :=
  match required_inputs v, optional_inputs v, hidden_inputs v with
  | None, None, None => false
  | _, _, _ => true
  end.

Definition get_input_info (class_def : ClassDef) (input_name : string)
    (valid_inputs : option InputTypeDict)
    : option (string * InputCategory * InputTypeOptions) :=
  let valid_inputs :=
    match valid_inputs with
    | Some v => if truthy v then v else INPUT_TYPES class_def
    | None => INPUT_TYPES class_def
    end in
  let found :=
    match in_category (required_inputs valid_inputs) input_name with
    | Some info => Some (required, info)
    | None =>
        match in_category (optional_inputs valid_inputs) input_name with
        | Some info => Some (optional, info)
        | None =>
            match in_category (hidden_inputs valid_inputs) input_name with
            | Some info => Some (hidden, info)
            | None => None
            end
        end
    end in
  match found with
  | None => None
  | Some (input_category, input_info) =>
      let extra_info :=
        match input_options input_info with
        | Some o => o
        | None => {| lazy_option := None |}
        end in
      Some (input_type input_info, input_category, extra_info)
  end.

(** ** TopologicalSort *)

(** A strong edge [(from_node_id, from_socket, to_node_id)]. *)
Abbreviation link := (node_id * Z * node_id)%type.

Record TopologicalSort : Type := {
  dynprompt : DynamicPrompt;
  pendingNodes : dict node_id bool;
  blockCount : gmap node_id Z;
  blocking : dict node_id (dict node_id (dict Z bool));
}.

Definition set_pendingNodes (v : dict node_id bool) (self : TopologicalSort) :=
  {| dynprompt := dynprompt self; pendingNodes := v;
     blockCount := blockCount self; blocking := blocking self |}.
Definition set_blockCount (v : gmap node_id Z) (self : TopologicalSort) :=
  {| dynprompt := dynprompt self; pendingNodes := pendingNodes self;
     blockCount := v; blocking := blocking self |}.
Definition set_blocking (v : dict node_id (dict node_id (dict Z bool)))
    (self : TopologicalSort) :=
  {| dynprompt := dynprompt self; pendingNodes := pendingNodes self;
     blockCount := blockCount self; blocking := v |}.
Definition set_dynprompt (v : DynamicPrompt) (self : TopologicalSort) :=
  {| dynprompt := v; pendingNodes := pendingNodes self;
     blockCount := blockCount self; blocking := blocking self |}.

(** A subscript that raises KeyError. *)
Definition item {K V} `{EqDecision K} (d : dict K V) (k : K) : result V :=
  match dict_get k d with Some v => Val v | None => Exc KeyError end.
Definition gitem {V} (m : gmap node_id V) (k : node_id) : result V :=
  match m !! k with Some v => Val v | None => Exc KeyError end.

Module TopologicalSort.
Section with_registry.
Variable NODE_CLASS_MAPPINGS : gmap string ClassDef.

Definition __init__ (dynprompt : DynamicPrompt) : TopologicalSort :=
  {| dynprompt := dynprompt; pendingNodes := []; blockCount := ∅;
     blocking := [] |}.

Definition get_input_info (self : TopologicalSort)
    (unique_id : node_id) (input_name : string)
    : result (option (string * InputCategory * InputTypeOptions)) :=
  node <-? DynamicPrompt.get_node (dynprompt self) unique_id ;;
  class_def <-? gitem NODE_CLASS_MAPPINGS (class_type node) ;;
  Val (get_input_info class_def input_name None).

Definition is_cached (self : TopologicalSort) (n : node_id) : bool := false.

(** [is_lazy = input_info is not None and "lazy" in input_info
               and input_info["lazy"]] *)
Definition is_lazy
    (info : option (string * InputCategory * InputTypeOptions)) : bool :=
  match info with
  | Some (_, _, input_info) =>
      match lazy_option input_info with
      | Some b => b
      | None => false
      end
  | None => false
  end.

(** The body of [for input_name in inputs] in [add_node].  [node_ids] is a
    stack: it is kept most recent first, so that [node_ids.append] is a cons
    and [node_ids.pop()] takes the head.  [links] is kept in order. *)
Fixpoint scan_inputs (self : TopologicalSort) (include_lazy : bool)
    (subgraph_nodes : option (list node_id)) (unique_id : node_id)
    (ins : dict string InputValue) (node_ids : list node_id)
    (links : list link) : result (list node_id * list link) :=
  match ins with
  | [] => Val (node_ids, links)
  | (input_name, value) :: ins' =>
      match value with
      | Link from_node_id from_socket =>
          if match subgraph_nodes with
             | Some sg => bool_decide (from_node_id ∉ sg)
             | None => false
             end
          then scan_inputs self include_lazy subgraph_nodes unique_id
                 ins' node_ids links
          else
            input_info <-? get_input_info self unique_id input_name ;;
            if (include_lazy || negb (is_lazy input_info))
               && negb (is_cached self from_node_id)
            then scan_inputs self include_lazy subgraph_nodes unique_id
                   ins' (from_node_id :: node_ids)
                   (links ++ [(from_node_id, from_socket, unique_id)])
            else scan_inputs self include_lazy subgraph_nodes unique_id
                   ins' node_ids links
      | Constant =>
          scan_inputs self include_lazy subgraph_nodes unique_id
            ins' node_ids links
      end
  end.

Definition mark_pending (unique_id : node_id) (self : TopologicalSort)
    : TopologicalSort :=
  {| dynprompt := dynprompt self;
     pendingNodes := dict_set unique_id true (pendingNodes self);
     blockCount := <[unique_id := 0]> (blockCount self);
     blocking := dict_set unique_id [] (blocking self) |}.

(** The [while len(node_ids) > 0] loop of [add_node]; it returns [links]. *)
Fixpoint add_node_loop (fuel : nat) (include_lazy : bool)
    (subgraph_nodes : option (list node_id)) (node_ids : list node_id)
    (links : list link) {struct fuel} : M TopologicalSort (list link) :=
  match node_ids with
  | [] => ret links
  | unique_id :: node_ids =>
      match fuel with
      | O => out_of_fuel
      | S fuel' =>
          pending <- gets pendingNodes ;;
          if dict_mem unique_id pending
          then add_node_loop fuel' include_lazy subgraph_nodes node_ids links
          else
            modify (mark_pending unique_id) ;;
            node <- query (λ self,
                      DynamicPrompt.get_node (dynprompt self) unique_id) ;;
            r <- query (λ self,
                   scan_inputs self include_lazy subgraph_nodes unique_id
                     (inputs node) node_ids links) ;;
            add_node_loop fuel' include_lazy subgraph_nodes r.1 r.2
      end
  end.

(** The three assignments that end [add_strong_link]: the edge, counted the
    first time the pair [(from_node_id, to_node_id)] is seen, and its
    socket. *)
Definition insert_edge
    (from_node_id : node_id) (from_socket : Z) (to_node_id : node_id)
    : M TopologicalSort () :=
  b <- query (λ self, item (blocking self) from_node_id) ;;
  (if negb (dict_mem to_node_id b) then
     modify (λ self,
       set_blocking
         (dict_set from_node_id (dict_set to_node_id [] b) (blocking self))
         self) ;;
     c <- query (λ self, gitem (blockCount self) to_node_id) ;;
     modify (λ self,
       set_blockCount (<[to_node_id := c + 1]> (blockCount self)) self)
   else ret ()) ;;
  b <- query (λ self, item (blocking self) from_node_id) ;;
  sockets <- query (λ _, item b to_node_id) ;;
  modify (λ self,
    set_blocking
      (dict_set from_node_id
         (dict_set to_node_id (dict_set from_socket true sockets) b)
         (blocking self))
      self).

(** [add_strong_link], with the method it calls back as a parameter:
    [add_node] and [add_strong_link] call each other. *)
Definition add_strong_link_with (add_node : node_id → M TopologicalSort ())
    (from_node_id : node_id) (from_socket : Z) (to_node_id : node_id)
    : M TopologicalSort () :=
  cached <- gets (λ self, is_cached self from_node_id) ;;
  if negb cached then
    add_node from_node_id ;;
    insert_edge from_node_id from_socket to_node_id
  else ret ().

Fixpoint add_node (fuel : nat) (node_unique_id : node_id)
    (include_lazy : bool) (subgraph_nodes : option (list node_id))
    : M TopologicalSort () :=
  match fuel with
  | O => out_of_fuel
  | S fuel' =>
      links <- add_node_loop fuel include_lazy subgraph_nodes
                 [node_unique_id] [] ;;
      for_each links (λ l,
        add_strong_link_with (λ n, add_node fuel' n false None)
          l.1.1 l.1.2 l.2)
  end.

Definition add_strong_link (fuel : nat)
    (from_node_id : node_id) (from_socket : Z) (to_node_id : node_id)
    : M TopologicalSort () :=
  add_strong_link_with (λ n, add_node fuel n false None)
    from_node_id from_socket to_node_id.

Definition make_input_strong_link (fuel : nat)
    (to_node_id : node_id) (to_input : string) : M TopologicalSort () :=
  node <- query (λ self, DynamicPrompt.get_node (dynprompt self) to_node_id) ;;
  match dict_get to_input (inputs node) with
  | None => raise NodeInputError
  | Some Constant => raise NodeInputError
  | Some (Link from_node_id from_socket) =>
      add_strong_link fuel from_node_id from_socket to_node_id
  end.

Fixpoint ready_among (bc : gmap node_id Z) (ns : list node_id)
    : result (list node_id) :=
  match ns with
  | [] => Val []
  | n :: ns' =>
      c <-? gitem bc n ;;
      rest <-? ready_among bc ns' ;;
      Val (if decide (c = 0) then n :: rest else rest)
  end.

Definition get_ready_nodes (self : TopologicalSort) : result (list node_id) :=
  ready_among (blockCount self) (dict_keys (pendingNodes self)).

Definition pop_node (unique_id : node_id) : M TopologicalSort () :=
  pending <- gets pendingNodes ;;
  if dict_mem unique_id pending then
    modify (set_pendingNodes (dict_del unique_id pending)) ;;
    b <- query (λ self, item (blocking self) unique_id) ;;
    for_each (dict_keys b) (λ blocked_node_id,
      c <- query (λ self, gitem (blockCount self) blocked_node_id) ;;
      modify (λ self,
        set_blockCount (<[blocked_node_id := c - 1]> (blockCount self)) self)) ;;
    modify (λ self, set_blocking (dict_del unique_id (blocking self)) self)
  else raise KeyError.

Definition is_empty (self : TopologicalSort) : bool :=
  bool_decide (length (pendingNodes self) = 0%nat).

End with_registry.
End TopologicalSort.

(** ** ExecutionList *)

(** The error payload that [stage_node_execution] returns on a cycle. *)
Record ErrorDetails : Type := {
  err_node_id : node_id;
  exception_message : string;
  exception_type : string;
  traceback : list string;
  current_inputs : list string;
}.

(** [ExecutionList] extends [TopologicalSort]: [super] holds the inherited
    attributes.  Modelled from the spec: the result cache is an external
    collaborator, of which the scheduler may only ask whether a node is
    already satisfied; [output_cache] is the set of nodes it holds a result
    for. *)
Record ExecutionList : Type := {
  super : TopologicalSort;
  output_cache : gset node_id;
  staged_node_id : option node_id;
  _current_group_class : option string;
}.

Definition set_super (v : TopologicalSort) (self : ExecutionList) :=
  {| super := v; output_cache := output_cache self;
     staged_node_id := staged_node_id self;
     _current_group_class := _current_group_class self |}.
Definition set_staged_node_id (v : option node_id) (self : ExecutionList) :=
  {| super := super self; output_cache := output_cache self;
     staged_node_id := v;
     _current_group_class := _current_group_class self |}.
Definition set_current_group_class (v : option string) (self : ExecutionList) :=
  {| super := super self; output_cache := output_cache self;
     staged_node_id := staged_node_id self;
     _current_group_class := v |}.

(** An inherited method runs on the inherited attributes.  [ExecutionList]
    overrides none of the methods of [TopologicalSort], so no call inside
    them is dispatched back to the subclass. *)
Definition inherited {A} (m : M TopologicalSort A) : M ExecutionList A :=
  λ self, match m (super self) with
          | Ok a s => Ok a (set_super s self)
          | Raise e s => Raise e (set_super s self)
          | OutOfFuel => OutOfFuel
          end.

(** [any(p(x) for x in xs)] and the first [x] with [p(x)], both stopping at
    the first hit or the first exception. *)
Fixpoint any_r {A} (p : A → result bool) (xs : list A) : result bool :=
  match xs with
  | [] => Val false
  | x :: xs' => b <-? p x ;; if b then Val true else any_r p xs'
  end.

Fixpoint first_r {A} (p : A → result bool) (xs : list A) : result (option A) :=
  match xs with
  | [] => Val None
  | x :: xs' => b <-? p x ;; if b then Val (Some x) else first_r p xs'
  end.

Fixpoint filter_r {A} (p : A → result bool) (xs : list A) : result (list A) :=
  match xs with
  | [] => Val []
  | x :: xs' =>
      b <-? p x ;; rest <-? filter_r p xs' ;;
      Val (if b then x :: rest else rest)
  end.

(** [max(items, key=lambda kv: (kv[1], kv[0]))]: tuples compare by count,
    then by name; strings compare character by character.  [max] keeps the
    first of the largest items. *)
Definition key_lt (a b : string * Z) : bool :=
  (a.2 <? b.2)%Z || ((a.2 =? b.2)%Z && String.ltb a.1 b.1).

Fixpoint max_from (best : string * Z) (items : list (string * Z)) : string * Z :=
  match items with
  | [] => best
  | kv :: items' => max_from (if key_lt best kv then kv else best) items'
  end.

Definition py_max (items : list (string * Z)) : result (string * Z) :=
  match items with
  | [] => Exc ValueError
  | kv :: items' => Val (max_from kv items')
  end.

Module ExecutionList.
Section with_registry.
Variable NODE_CLASS_MAPPINGS : gmap string ClassDef.

Definition __init__ (dynprompt : DynamicPrompt) (output_cache : gset node_id)
    : ExecutionList :=
  {| super := TopologicalSort.__init__ dynprompt;
     output_cache := output_cache;
     staged_node_id := None;
     _current_group_class := None |}.

(** Inherited from [TopologicalSort]. *)
Definition is_cached (self : ExecutionList) (n : node_id) : bool :=
  TopologicalSort.is_cached (super self) n.
Definition add_node (fuel : nat) (node_unique_id : node_id)
    (include_lazy : bool) (subgraph_nodes : option (list node_id))
    : M ExecutionList () :=
  inherited (TopologicalSort.add_node NODE_CLASS_MAPPINGS fuel
               node_unique_id include_lazy subgraph_nodes).
Definition add_strong_link (fuel : nat)
    (from_node_id : node_id) (from_socket : Z) (to_node_id : node_id)
    : M ExecutionList () :=
  inherited (TopologicalSort.add_strong_link NODE_CLASS_MAPPINGS fuel
               from_node_id from_socket to_node_id).
Definition make_input_strong_link (fuel : nat)
    (to_node_id : node_id) (to_input : string) : M ExecutionList () :=
  inherited (TopologicalSort.make_input_strong_link NODE_CLASS_MAPPINGS fuel
               to_node_id to_input).
Definition pop_node (unique_id : node_id) : M ExecutionList () :=
  inherited (TopologicalSort.pop_node unique_id).
Definition get_ready_nodes (self : ExecutionList) : result (list node_id) :=
  TopologicalSort.get_ready_nodes (super self).
Definition is_empty (self : ExecutionList) : bool :=
  TopologicalSort.is_empty (super self).

Definition class_of (self : ExecutionList) (nid : node_id) : result string :=
  node <-? DynamicPrompt.get_node (dynprompt (super self)) nid ;;
  Val (class_type node).

Fixpoint count_classes (self : ExecutionList) (node_list : list node_id)
    (counts : dict string Z) : result (dict string Z) :=
  match node_list with
  | [] => Val counts
  | nid :: node_list' =>
      ctype <-? class_of self nid ;;
      count_classes self node_list'
        (dict_set ctype (default 0 (dict_get ctype counts) + 1) counts)
  end.

Definition _pick_largest_group (self : ExecutionList)
    (node_list : list node_id) : result string :=
  counts <-? count_classes self node_list [] ;;
  kv <-? py_max counts ;;
  Val kv.1.

Definition _filter_by_group (self : ExecutionList)
    (node_list : list node_id) (group_cls : option string)
    : result (list node_id) :=
  filter_r (λ nid, ctype <-? class_of self nid ;;
                   Val (bool_decide (Some ctype = group_cls)))
    node_list.

Definition is_output (self : ExecutionList) (n : node_id) : result bool :=
  ctype <-? class_of self n ;;
  class_def <-? gitem NODE_CLASS_MAPPINGS ctype ;;
  Val (bool_decide (OUTPUT_NODE class_def = Some true)).

Definition blocks_output (self : ExecutionList) (nid : node_id)
    : result bool :=
  b <-? item (blocking (super self)) nid ;;
  any_r (is_output self) (dict_keys b).

Definition blocks_output2 (self : ExecutionList) (nid : node_id)
    : result bool :=
  b <-? item (blocking (super self)) nid ;;
  any_r (blocks_output self) (dict_keys b).

(** The opt-in [MAGIX_DEBUG] print is left out: it changes no state. *)
Definition ux_friendly_pick_node (node_list : list node_id)
    : M ExecutionList node_id :=
  (* step 1: ensure we have a valid current group *)
  stale <- query (λ self,
             match _current_group_class self with
             | None => Val true
             | Some g =>
                 b <-? any_r (λ nid, ctype <-? class_of self nid ;;
                                     Val (bool_decide (ctype = g)))
                         node_list ;;
                 Val (negb b)
             end) ;;
  (if stale : bool then
     g <- query (λ self, _pick_largest_group self node_list) ;;
     modify (set_current_group_class (Some g))
   else ret ()) ;;
  candidates <- query (λ self,
                  _filter_by_group self node_list (_current_group_class self)) ;;
  (* 1: an output node as soon as one appears within the batch *)
  r1 <- query (λ self, first_r (is_output self) candidates) ;;
  match r1 with
  | Some nid => ret nid
  | None =>
      (* 2: decoder-before-preview pattern *)
      r2 <- query (λ self, first_r (blocks_output self) candidates) ;;
      match r2 with
      | Some nid => ret nid
      | None =>
          r3 <- query (λ self, first_r (blocks_output2 self) candidates) ;;
          match r3 with
          | Some nid => ret nid
          | None =>
              (* 3: otherwise just take the first candidate *)
              match candidates with
              | nid :: _ => ret nid
              | [] => raise IndexError
              end
          end
      end
  end.

(** [blocked_by[to_node_id][from_node_id] = True] for every edge with a
    true socket. *)
Fixpoint record_targets (from_node_id : node_id)
    (targets : dict node_id (dict Z bool))
    (blocked_by : dict node_id (dict node_id bool))
    : result (dict node_id (dict node_id bool)) :=
  match targets with
  | [] => Val blocked_by
  | (to_node_id, sockets) :: targets' =>
      if bool_decide (true ∈ dict_values sockets) then
        b <-? item blocked_by to_node_id ;;
        record_targets from_node_id targets'
          (dict_set to_node_id (dict_set from_node_id true b) blocked_by)
      else record_targets from_node_id targets' blocked_by
  end.

Fixpoint record_edges (edges : dict node_id (dict node_id (dict Z bool)))
    (blocked_by : dict node_id (dict node_id bool))
    : result (dict node_id (dict node_id bool)) :=
  match edges with
  | [] => Val blocked_by
  | (from_node_id, targets) :: edges' =>
      blocked_by <-? record_targets from_node_id targets blocked_by ;;
      record_edges edges' blocked_by
  end.

Definition to_remove (blocked_by : dict node_id (dict node_id bool))
    : list node_id :=
  dict_keys (filter (λ kv, length kv.2 = 0%nat) blocked_by).

(** One [for node_id in to_remove] step: drop [node_id] from every
    [blocked_by] entry, then drop its own entry. *)
Definition dissolve (blocked_by : dict node_id (dict node_id bool))
    (n : node_id) : dict node_id (dict node_id bool) :=
  dict_del n (prod_map id (dict_del n) <$> blocked_by).

Fixpoint peel (fuel : nat) (blocked_by : dict node_id (dict node_id bool))
    : result (list node_id) :=
  match to_remove blocked_by with
  | [] => Val (dict_keys blocked_by)
  | rm =>
      match fuel with
      | O => NoFuel
      | S fuel' => peel fuel' (foldl dissolve blocked_by rm)
      end
  end.

(** Each round of the [while] loop removes a node, so as many rounds as
    there are pending nodes are enough. *)
Definition get_nodes_in_cycle (self : ExecutionList) : result (list node_id) :=
  let blocked_by := (λ n, (n, [])) <$> dict_keys (pendingNodes (super self)) in
  blocked_by <-? record_edges (blocking (super self)) blocked_by ;;
  peel (length blocked_by) blocked_by.

(** The blamed node: [cycled_nodes[0]] unless a member has a display id of
    its own. *)
Fixpoint blame (fuel : nat) (self : ExecutionList)
    (cycled_nodes : list node_id) (blamed_node : node_id) : result node_id :=
  match cycled_nodes with
  | [] => Val blamed_node
  | nid :: cycled_nodes' =>
      disp <-? DynamicPrompt.get_display_node_id fuel
                 (dynprompt (super self)) nid ;;
      if bool_decide (disp ≠ nid) then Val disp
      else blame fuel self cycled_nodes' blamed_node
  end.

Definition cycle_error (blamed_node : node_id) : ErrorDetails :=
  {| err_node_id := blamed_node;
     exception_message := "Dependency cycle detected";
     exception_type := "graph.DependencyCycleError";
     traceback := [];
     current_inputs := [] |}.

(** [fuel] bounds the display chains that the cycle report follows. *)
Definition stage_node_execution (fuel : nat)
    : M ExecutionList (option node_id * option ErrorDetails * option exn) :=
  staged <- gets staged_node_id ;;
  match staged with
  | Some _ => raise AssertionError
  | None =>
      empty <- gets is_empty ;;
      if empty : bool then ret (None, None, None)
      else
        available <- query get_ready_nodes ;;
        match available with
        | [] =>
            cycled_nodes <- query get_nodes_in_cycle ;;
            match cycled_nodes with
            | [] => raise IndexError
            | first :: _ =>
                blamed_node <- query (λ self,
                                 blame fuel self cycled_nodes first) ;;
                ret (None, Some (cycle_error blamed_node),
                     Some DependencyCycleError)
            end
        | _ =>
            nid <- ux_friendly_pick_node available ;;
            modify (set_staged_node_id (Some nid)) ;;
            ret (Some nid, None, None)
        end
  end.

Definition unstage_node_execution : M ExecutionList () :=
  modify (set_staged_node_id None).

Definition complete_node_execution : M ExecutionList () :=
  nid <- gets staged_node_id ;;
  match nid with
  | None => raise AssertionError
  | Some nid =>
      pop_node nid ;;
      modify (set_staged_node_id None)
  end.

End with_registry.
End ExecutionList.

(** * Specification vocabulary *)

(** ** Ancestry chains *)

(** [leads_to table n k last]: following [table] from [n] takes [k] steps to
    reach [last], the first id without a further mapping. *)
Inductive leads_to (table : gmap node_id node_id)
    : node_id → nat → node_id → Prop :=
| leads_here n :
    table !! n = None → leads_to table n 0 n
| leads_step n n' k last :
    table !! n = Some n' → leads_to table n' k last →
    leads_to table n (S k) last.

(** The prompts that the program can build: the constructor, then
    [add_ephemeral_node]. *)
Inductive built : DynamicPrompt → Prop :=
| built_init original : built (DynamicPrompt.__init__ original)
| built_add self n node_info parent_id display_id :
    built self →
    built (DynamicPrompt.add_ephemeral_node self n node_info parent_id display_id).

(** E2 was expanded from E1, and E1 from the original node P. *)
Definition ancestry_example : DynamicPrompt :=
  let node := {| class_type := "X"; inputs := [] |} in
  DynamicPrompt.add_ephemeral_node
    (DynamicPrompt.add_ephemeral_node
       (DynamicPrompt.__init__ {[ "P" := node ]}) "E1" node "P" "P")
    "E2" node "E1" "E1".

(** ** Class groups *)

Global Instance exn_eq_dec : EqDecision exn.
Proof. solve_decision. Defined.
Global Instance result_eq_dec {A} `{EqDecision A} : EqDecision (result A).
Proof. solve_decision. Defined.

(** The number of nodes of [node_list] whose class is [c]. *)
Definition representatives (self : ExecutionList) (c : string)
    (node_list : list node_id) : Z :=
  Z.of_nat (length (filter (λ nid, ExecutionList.class_of self nid = Val c)
                      node_list)).

(** [(count, name)] pairs in the order that [max] compares them by. *)
Definition key_le (a b : string * Z) : Prop :=
  a.2 < b.2 ∨ (a.2 = b.2 ∧ String.le a.1 b.1).

(** ** The block graph *)

Definition pending (self : TopologicalSort) (n : node_id) : Prop :=
  n ∈ dict_keys (pendingNodes self).

(** [s'] has the prompt of [s] and at least its pending nodes. *)
Definition extends (s s' : TopologicalSort) : Prop :=
  dynprompt s' = dynprompt s ∧ ∀ n, pending s n → pending s' n.

(** [post o P]: the state that a call leaves behind satisfies [P], whether
    the call returned or raised. *)
Definition post {S A} (o : outcome S A) (P : S → Prop) : Prop :=
  match o with
  | Ok _ s' => P s'
  | Raise _ s' => P s'
  | OutOfFuel => True
  end.

(** [scanned reg s il sg u ins l]: [l] is a link that the scan of the
    inputs [ins] of [u] records, that is a link input of [u] that passes the
    sub-graph and laziness tests of [add_node]. *)
Definition scanned (reg : gmap string ClassDef) (s : TopologicalSort)
    (include_lazy : bool) (subgraph_nodes : option (list node_id))
    (u : node_id) (ins : dict string InputValue) (l : link) : Prop :=
  l.2 = u
  ∧ ∃ input_name info,
      (input_name, Link l.1.1 l.1.2) ∈ ins
      ∧ TopologicalSort.get_input_info reg s u input_name = Val info
      ∧ include_lazy || negb (TopologicalSort.is_lazy info) = true
      ∧ match subgraph_nodes with Some sg => l.1.1 ∈ sg | None => True end.

(** ** The block-graph invariant *)

(** The number of entries of a dictionary that satisfy [P]. *)
Definition count {K V} (P : K * V → Prop) `{∀ x, Decision (P x)}
    (d : list (K * V)) : nat :=
  length (filter P d).

(** The number of [blocking] entries that hold an edge to [n]. *)
Definition blockers (self : TopologicalSort) (n : node_id) : Z :=
  Z.of_nat (count (λ kv, n ∈ dict_keys kv.2) (blocking self)).

(** What the scheduler maintains: [blocking] has an entry per pending node,
    every edge leads to a pending node and has a true socket, and
    [blockCount] counts the edges into each pending node, one per
    producer. *)
Record block_inv (self : TopologicalSort) : Prop := {
  inv_pending_wf : dict_wf (pendingNodes self);
  inv_keys : dict_keys (blocking self) = dict_keys (pendingNodes self);
  inv_targets : ∀ m targets,
    dict_get m (blocking self) = Some targets →
    dict_wf targets
    ∧ ∀ n sockets, dict_get n targets = Some sockets →
        pending self n ∧ true ∈ dict_values sockets;
  inv_count : ∀ n,
    pending self n → blockCount self !! n = Some (blockers self n);
}.

(** The invariant as the specification words it. *)
Definition blocked_by_pending (self : TopologicalSort) (n : node_id) : Prop :=
  ∃ m targets sockets,
    pending self m
    ∧ dict_get m (blocking self) = Some targets
    ∧ dict_get n targets = Some sockets
    ∧ true ∈ dict_values sockets.

Definition count_invariant (self : TopologicalSort) : Prop :=
  ∀ n, pending self n →
    ∃ c, blockCount self !! n = Some c ∧ (c = 0 ↔ ¬ blocked_by_pending self n).

Definition ready (self : TopologicalSort) (n : node_id) : Prop :=
  pending self n ∧ blockCount self !! n = Some 0.

(** [blockCount[k] -= 1] *)
Definition decrement (bc : gmap node_id Z) (k : node_id) : gmap node_id Z :=
  alter (λ c, c - 1) k bc.

(** The calls that change the block graph. *)
Inductive call : Type :=
| call_add_node (fuel : nat) (node_unique_id : node_id) (include_lazy : bool)
    (subgraph_nodes : option (list node_id))
| call_add_strong_link (fuel : nat) (from_node_id : node_id) (from_socket : Z)
    (to_node_id : node_id)
| call_pop_node (unique_id : node_id).

Definition exec (reg : gmap string ClassDef) (c : call) : M TopologicalSort () :=
  match c with
  | call_add_node fuel n il sg => TopologicalSort.add_node reg fuel n il sg
  | call_add_strong_link fuel from sock to =>
      TopologicalSort.add_strong_link reg fuel from sock to
  | call_pop_node n => TopologicalSort.pop_node n
  end.

Fixpoint exec_all (reg : gmap string ClassDef) (cs : list call)
    : M TopologicalSort () :=
  match cs with
  | [] => ret ()
  | c :: cs' => exec reg c ;; exec_all reg cs'
  end.

(** How the scheduler uses the block graph: it pops a node that is ready (the
    staged one), and it adds a strong link to a consumer that is pending. *)
Definition in_protocol (self : TopologicalSort) (c : call) : Prop :=
  match c with
  | call_add_node _ _ _ _ => True
  | call_add_strong_link _ _ _ to => pending self to
  | call_pop_node n => ready self n
  end.

(** The state that a call leaves behind, returning or raising. *)
Definition left_by {S A} (o : outcome S A) (s' : S) : Prop :=
  match o with
  | Ok _ s => s = s'
  | Raise _ s => s = s'
  | OutOfFuel => False
  end.

(** The block graphs that are reached within the protocol, the prompt
    growing between the calls. *)
Inductive reachable (reg : gmap string ClassDef) : TopologicalSort → Prop :=
| reachable_init dp :
    reachable reg (TopologicalSort.__init__ dp)
| reachable_call s c s' :
    reachable reg s → in_protocol s c → left_by (exec reg c s) s' →
    reachable reg s'
| reachable_prompt s dp :
    reachable reg s → reachable reg (set_dynprompt dp s).

(** ** Example graphs *)

(** A node class with a strong input [x] and a lazy input [y]. *)
Definition plain_class : ClassDef :=
  {| INPUT_TYPES :=
       {| required_inputs :=
            Some [("x", {| input_type := "T"; input_options := None |});
                  ("y", {| input_type := "T";
                           input_options :=
                             Some {| lazy_option := Some true |} |})];
          optional_inputs := None;
          hidden_inputs := None |};
     OUTPUT_NODE := None |}.

Definition example_registry : gmap string ClassDef :=
  <["X" := plain_class]> {[ "Y" := plain_class ]}.

(** B takes its input [x] from A. *)
Definition chain_prompt : DynamicPrompt :=
  DynamicPrompt.__init__
    (<["A" := {| class_type := "X"; inputs := [] |}]>
       {[ "B" := {| class_type := "X"; inputs := [("x", Link "A" 0)] |} ]}).

(** The state that a sequence of calls leaves behind. *)
Definition state_after (reg : gmap string ClassDef) (cs : list call)
    (s : TopologicalSort) : TopologicalSort :=
  match exec_all reg cs s with
  | Ok _ s' => s'
  | Raise _ s' => s'
  | OutOfFuel => s
  end.

(** [add_node("B")] on the chain: A and B are pending, A blocks B. *)
Definition chain_state : TopologicalSort :=
  state_after example_registry [call_add_node 3 "B" false None]
    (TopologicalSort.__init__ chain_prompt).

(** B is popped while A still blocks it, and added again. *)
Definition early_pop_state : TopologicalSort :=
  state_after example_registry
    [call_add_node 3 "B" false None; call_pop_node "B";
     call_add_node 3 "B" false None]
    (TopologicalSort.__init__ chain_prompt).

(** ** The staging protocol *)

(** The read-only content of [ux_friendly_pick_node]: whether the tracked
    group has to be chosen again, and the pick inside the tracked group. *)
Definition stale (self : ExecutionList) (node_list : list node_id)
    : result bool :=
  match _current_group_class self with
  | None => Val true
  | Some g =>
      b <-? any_r (λ nid, ctype <-? ExecutionList.class_of self nid ;;
                          Val (bool_decide (ctype = g)))
              node_list ;;
      Val (negb b)
  end.

Definition pick_candidate (reg : gmap string ClassDef) (self : ExecutionList)
    (candidates : list node_id) : result node_id :=
  r1 <-? first_r (ExecutionList.is_output reg self) candidates ;;
  match r1 with
  | Some nid => Val nid
  | None =>
      r2 <-? first_r (ExecutionList.blocks_output reg self) candidates ;;
      match r2 with
      | Some nid => Val nid
      | None =>
          r3 <-? first_r (ExecutionList.blocks_output2 reg self) candidates ;;
          match r3 with
          | Some nid => Val nid
          | None =>
              match candidates with
              | nid :: _ => Val nid
              | [] => Exc IndexError
              end
          end
      end
  end.

Definition pick_in_group (reg : gmap string ClassDef) (self : ExecutionList)
    (node_list : list node_id) : result node_id :=
  candidates <-? ExecutionList._filter_by_group self node_list
                   (_current_group_class self) ;;
  pick_candidate reg self candidates.

(** What the driver calls. *)
Inductive driver_call : Type :=
| drive_stage (fuel : nat)
| drive_unstage
| drive_complete
| drive_graph (c : call)
| drive_make_input_strong_link (fuel : nat) (to_node_id : node_id)
    (to_input : string).

Definition drive (reg : gmap string ClassDef) (c : driver_call)
    : M ExecutionList () :=
  match c with
  | drive_stage fuel => ExecutionList.stage_node_execution reg fuel ;; ret ()
  | drive_unstage => ExecutionList.unstage_node_execution
  | drive_complete => ExecutionList.complete_node_execution
  | drive_graph c => inherited (exec reg c)
  | drive_make_input_strong_link fuel to_node_id to_input =>
      ExecutionList.make_input_strong_link reg fuel to_node_id to_input
  end.

(** The alternation protocol, from the driver's side: [holding] tells whether
    the last [stage_node_execution] handed out a node that is neither
    completed nor unstaged yet.  The driver stages only when it holds no
    node, and completes or unstages only the node it holds.  A call that
    raises ends the run. *)
Fixpoint alternates (reg : gmap string ClassDef) (holding : bool)
    (cs : list driver_call) (self : ExecutionList) : Prop :=
  match cs with
  | [] => True
  | c :: cs' =>
      match c with
      | drive_stage fuel =>
          holding = false
          ∧ match ExecutionList.stage_node_execution reg fuel self with
            | Ok r self' => alternates reg (bool_decide (is_Some r.1.1)) cs' self'
            | _ => True
            end
      | drive_unstage | drive_complete =>
          holding = true
          ∧ match drive reg c self with
            | Ok _ self' => alternates reg false cs' self'
            | _ => True
            end
      | _ =>
          match drive reg c self with
          | Ok _ self' => alternates reg holding cs' self'
          | _ => True
          end
      end
  end.

(** The condition of the assertion that a call starts with. *)
Definition asserted (c : driver_call) (self : ExecutionList) : Prop :=
  match c with
  | drive_stage _ => staged_node_id self = None
  | drive_complete => staged_node_id self ≠ None
  | _ => True
  end.

(** Every assertion met along the run holds. *)
Fixpoint assertions_hold (reg : gmap string ClassDef)
    (cs : list driver_call) (self : ExecutionList) : Prop :=
  match cs with
  | [] => True
  | c :: cs' =>
      asserted c self
      ∧ match drive reg c self with
        | Ok _ self' => assertions_hold reg cs' self'
        | _ => True
        end
  end.

(** A scheduler on the chain, B requested. *)
Definition chain_list : ExecutionList :=
  {| super := chain_state; output_cache := ∅; staged_node_id := None;
     _current_group_class := None |}.

(** ** A tie between two groups *)

(** A registry with the classes A and B, neither an output class. *)
Definition tie_registry : gmap string ClassDef :=
  let plain := {| INPUT_TYPES := {| required_inputs := None;
                                    optional_inputs := None;
                                    hidden_inputs := None |};
                  OUTPUT_NODE := None |} in
  <["A" := plain]> {[ "B" := plain ]}.

(** Two ready nodes, [a] of class A and [b] of class B, requested in that
    order. *)
Definition tie_example : ExecutionList :=
  {| super :=
       state_after tie_registry
         [call_add_node 2 "a" false None; call_add_node 2 "b" false None]
         (TopologicalSort.__init__
            (DynamicPrompt.__init__
               (<["a" := {| class_type := "A"; inputs := [] |}]>
                  {[ "b" := {| class_type := "B"; inputs := [] |} ]})));
     output_cache := ∅;
     staged_node_id := None;
     _current_group_class := None |}.

(** ** Cycles *)

(** [m] blocks [n]: both are pending and [blocking[m][n]] has a true
    socket. *)
Definition blocks (self : TopologicalSort) (m n : node_id) : Prop :=
  pending self m ∧ pending self n
  ∧ ∃ targets sockets,
      dict_get m (blocking self) = Some targets
      ∧ dict_get n targets = Some sockets
      ∧ true ∈ dict_values sockets.

(** [n] lies on a dependency cycle. *)
Definition on_cycle (self : TopologicalSort) (n : node_id) : Prop :=
  tc (blocks self) n n.

(** [blocked_by'] has the nodes of [blocked_by], each with at least the
    predecessors it had. *)
Definition grows (blocked_by blocked_by' : dict node_id (dict node_id bool))
    : Prop :=
  dict_keys blocked_by' = dict_keys blocked_by
  ∧ ∀ n d, dict_get n blocked_by = Some d →
      ∃ d', dict_get n blocked_by' = Some d' ∧ dict_keys d ⊆ dict_keys d'.

(** A and B depend on each other, and C depends on A. *)
Definition cycle_prompt : DynamicPrompt :=
  DynamicPrompt.__init__
    (<["A" := {| class_type := "X"; inputs := [("x", Link "B" 0)] |}]>
       (<["B" := {| class_type := "X"; inputs := [("x", Link "A" 0)] |}]>
          {[ "C" := {| class_type := "Y"; inputs := [("x", Link "A" 0)] |} ]})).

(** The scheduler after [add_node("C")]. *)
Definition cycle_list : ExecutionList :=
  {| super :=
       state_after example_registry [call_add_node 4 "C" false None]
         (TopologicalSort.__init__ cycle_prompt);
     output_cache := ∅;
     staged_node_id := None;
     _current_group_class := None |}.

(** P expanded into E1 and E2, which depend on each other; both are
    displayed as P. *)
Definition expanded_prompt : DynamicPrompt :=
  DynamicPrompt.add_ephemeral_node
    (DynamicPrompt.add_ephemeral_node
       (DynamicPrompt.__init__ {[ "P" := {| class_type := "X"; inputs := [] |} ]})
       "E1" {| class_type := "X"; inputs := [("x", Link "E2" 0)] |} "P" "P")
    "E2" {| class_type := "X"; inputs := [("x", Link "E1" 0)] |} "P" "P".

(** The scheduler after [add_node("E1")]. *)
Definition expanded_list : ExecutionList :=
  {| super :=
       state_after example_registry [call_add_node 3 "E1" false None]
         (TopologicalSort.__init__ expanded_prompt);
     output_cache := ∅;
     staged_node_id := None;
     _current_group_class := None |}.

(** The display id of [nid], where its chain ends. *)
Definition displayed (self : ExecutionList) (nid d : node_id) : Prop :=
  ∃ k, leads_to (ephemeral_display (dynprompt (super self))) nid k d.

(** A scheduler on the chain whose result cache holds A. *)
Definition cached_list : ExecutionList :=
  ExecutionList.__init__ chain_prompt {[ "A" ]}.

(** ** Fuel for add_node *)

(** The nodes of the prompt, as [get_node] finds them: an ephemeral node
    hides an original one. *)
Definition nodes_of (dp : DynamicPrompt) : gmap node_id Node :=
  ephemeral_prompt dp ∪ original_prompt dp.

(** What a node can still cost the worklist loop of [add_node]: one
    iteration to mark it and one for each input it may push. *)
Definition weight (pendingNodes : dict node_id bool) (kv : node_id * Node)
    : nat :=
  if dict_mem kv.1 pendingNodes then 0 else S (length (inputs kv.2)).

Definition work (s : TopologicalSort) : nat :=
  sum_list (weight (pendingNodes s) <$> map_to_list (nodes_of (dynprompt s))).

(** ** Lazy inputs *)

(** The options declared for the input [input_name] of [c] mark it lazy. *)
Definition declared_lazy (reg : gmap string ClassDef) (s : TopologicalSort)
    (c : node_id) (input_name : string) : Prop :=
  ∃ info, TopologicalSort.get_input_info reg s c input_name = Val info
        ∧ TopologicalSort.is_lazy info = true.

(** [blocking[p]] has an entry for [c]. *)
Definition has_edge (s : TopologicalSort) (p c : node_id) : Prop :=
  ∃ targets, dict_get p (blocking s) = Some targets ∧ c ∈ dict_keys targets.

(** [t] has an input that links to [m] and is not declared lazy. *)
Definition strong_input (reg : gmap string ClassDef) (s : TopologicalSort)
    (t m : node_id) : Prop :=
  ∃ node input_name sock info,
    DynamicPrompt.get_node (dynprompt s) t = Val node
    ∧ (input_name, Link m sock) ∈ inputs node
    ∧ TopologicalSort.get_input_info reg s t input_name = Val info
    ∧ TopologicalSort.is_lazy info = false.

(** The consumer takes its lazy input [y] from the producer. *)
Definition lazy_prompt : DynamicPrompt :=
  DynamicPrompt.__init__
    (<["producer" := {| class_type := "X"; inputs := [] |}]>
       {[ "consumer" :=
            {| class_type := "X"; inputs := [("y", Link "producer" 0)] |} ]}).

(** ** Walking an ancestry table *)

(** [steps table n k m]: [k] mapped ids lead from [n] to [m]. *)
Inductive steps (table : gmap node_id node_id) : node_id → nat → node_id → Prop :=
| steps_here n : steps table n 0 n
| steps_next n n' k m :
    table !! n = Some n' → steps table n' k m → steps table n (S k) m.

(** An ephemeral node that is recorded as its own parent and display node. *)
Definition self_parent_example : DynamicPrompt :=
  DynamicPrompt.add_ephemeral_node
    (DynamicPrompt.__init__ ∅) "E" {| class_type := "X"; inputs := [] |} "E" "E".



(** ** Edges as a decidable relation *)

Global Instance has_edge_dec s p c : Decision (has_edge s p c).
Proof.
  unfold has_edge. destruct (dict_get p (blocking s)) as [targets|].
  - destruct (decide (c ∈ dict_keys targets)) as [Hin|Hout].
    + left. by exists targets.
    + right. intros (? & [= <-] & ?). done.
  - right. by intros (? & [=] & _).
Defined.

(** ** Walks in a graph *)

(** [walk R l]: each element of [l] is related to the next one. *)
Fixpoint walk {A} (R : relation A) (l : list A) : Prop :=
  match l with
  | x :: (y :: _) as l' => R x y ∧ walk R l'
  | _ => True
  end.

(** [n] lies on a dependency cycle, or depends, directly or through other
    nodes, on a node that does. *)
Definition downstream (self : TopologicalSort) (n : node_id) : Prop :=
  ∃ c, on_cycle self c ∧ rtc (blocks self) c n.

(** Every predecessor that [blocked_by] records satisfies [P], and no
    predecessor is recorded twice. *)
Definition entries (P : node_id → node_id → Prop)
    (blocked_by : dict node_id (dict node_id bool)) : Prop :=
  ∀ n d, dict_get n blocked_by = Some d →
    dict_wf d ∧ ∀ m, m ∈ dict_keys d → P m n.

(** What the [while] loop of [get_nodes_in_cycle] keeps of [blocked_by]: the
    predecessors it records are nodes of [blocked_by] that block the node,
    and a node on or behind a cycle has a predecessor of that kind. *)
Record peel_inv (self : TopologicalSort)
    (blocked_by : dict node_id (dict node_id bool)) : Prop := {
  peel_wf : dict_wf blocked_by;
  peel_entries :
    entries (λ m n, m ∈ dict_keys blocked_by ∧ blocks self m n) blocked_by;
  peel_supported : ∀ n, downstream self n →
    ∃ d m, dict_get n blocked_by = Some d ∧ m ∈ dict_keys d
           ∧ downstream self m;
}.

(** ** A cycle beside a node that can run *)

(** A and B depend on each other; C depends on A and on D, which has no
    inputs. *)
Definition mixed_prompt : DynamicPrompt :=
  DynamicPrompt.__init__
    (<["A" := {| class_type := "X"; inputs := [("x", Link "B" 0)] |}]>
       (<["B" := {| class_type := "X"; inputs := [("x", Link "A" 0)] |}]>
          (<["C" := {| class_type := "X";
                       inputs := [("x", Link "A" 0); ("z", Link "D" 0)] |}]>
             {[ "D" := {| class_type := "X"; inputs := [] |} ]}))).

(** The scheduler after [add_node("C")]. *)
Definition mixed_list : ExecutionList :=
  {| super :=
       state_after example_registry [call_add_node 5 "C" false None]
         (TopologicalSort.__init__ mixed_prompt);
     output_cache := ∅;
     staged_node_id := None;
     _current_group_class := None |}.

(** ** Progress *)

(** Every pending node is a node of the prompt whose class is registered. *)
Definition nodes_registered (reg : gmap string ClassDef)
    (self : ExecutionList) : Prop :=
  ∀ n, pending (super self) n →
    ∃ c, ExecutionList.class_of self n = Val c ∧ is_Some (reg !! c).

(** * Properties *)

(** ** Ancestry resolution *)

Section follow_facts.
Variable table : gmap node_id node_id.

Lemma follow_no_exception fuel n e :
  DynamicPrompt.follow fuel table n ≠ Exc e.
Proof.
  revert n. induction fuel as [|fuel IH]; intros n; simpl.
  - case_bool_decide; discriminate.
  - case_bool_decide as Hin; [|discriminate].
    destruct Hin as [n' Hn']. rewrite Hn'. apply IH.
Qed.

Lemma follow_leads_to n k last :
  leads_to table n k last →
  ∀ fuel, (k ≤ fuel)%nat → DynamicPrompt.follow fuel table n = Val last.
Proof.
  induction 1 as [n Hn|n n' k last Hn _ IH]; intros fuel Hle.
  - destruct fuel; simpl; rewrite bool_decide_eq_false_2; auto;
      rewrite Hn; by intros [? ?].
  - destruct fuel as [|fuel]; [lia|]. simpl.
    rewrite bool_decide_eq_true_2 by (rewrite Hn; eauto).
    rewrite Hn. apply IH. lia.
Qed.

Lemma follow_Val fuel n last :
  DynamicPrompt.follow fuel table n = Val last →
  ∃ k, (k ≤ fuel)%nat ∧ leads_to table n k last.
Proof.
  revert n. induction fuel as [|fuel IH]; intros n; simpl.
  - case_bool_decide as Hin; [discriminate|]. intros [= <-].
    exists 0%nat. split; [lia|]. constructor.
    by apply eq_None_not_Some.
  - case_bool_decide as Hin.
    + destruct (table !! n) as [n'|] eqn:Hn; [|discriminate].
      intros Hf. destruct (IH _ Hf) as (k & Hk & Hl).
      exists (S k). split; [lia|]. by econstructor.
    + intros [= <-]. exists 0%nat. split; [lia|]. constructor.
      by apply eq_None_not_Some.
Qed.
End follow_facts.

Lemma built_tables self :
  built self →
  dom (ephemeral_parents self) = dom (ephemeral_prompt self)
  ∧ dom (ephemeral_display self) = dom (ephemeral_prompt self).
Proof.
  induction 1 as [|self n node_info parent_id display_id _ [IHp IHd]]; simpl.
  - by rewrite !dom_empty_L.
  - rewrite !dom_insert_L, IHp, IHd. done.
Qed.

Lemma unknown_unmapped self n :
  built self → DynamicPrompt.has_node self n = false →
  ephemeral_parents self !! n = None ∧ ephemeral_display self !! n = None.
Proof.
  intros [Hp Hd]%built_tables Hn. unfold DynamicPrompt.has_node in Hn.
  apply orb_false_iff in Hn as [_ Hn]. apply bool_decide_eq_false in Hn.
  rewrite <-elem_of_dom in Hn.
  split; apply not_elem_of_dom; congruence.
Qed.

(** C10.  [get_real_node_id] and [get_display_node_id] raise on no id: each
    follows its chain and returns the first id without a further mapping, as
    soon as the fuel covers the chain.  An id that is in neither the original
    nor the ephemeral map is returned unchanged, where [get_node] raises
    NodeNotFoundError. *)
Theorem ancestry_lookup_never_raises (self : DynamicPrompt) (n : node_id) :
  built self →
  (∀ fuel e, DynamicPrompt.get_real_node_id fuel self n ≠ Exc e)
  ∧ (∀ fuel e, DynamicPrompt.get_display_node_id fuel self n ≠ Exc e)
  ∧ (∀ k last fuel, leads_to (ephemeral_parents self) n k last → (k ≤ fuel)%nat →
       DynamicPrompt.get_real_node_id fuel self n = Val last)
  ∧ (∀ k last fuel, leads_to (ephemeral_display self) n k last → (k ≤ fuel)%nat →
       DynamicPrompt.get_display_node_id fuel self n = Val last)
  ∧ (DynamicPrompt.has_node self n = false →
       DynamicPrompt.get_node self n = Exc (NodeNotFoundError n)
       ∧ ∀ fuel, DynamicPrompt.get_real_node_id fuel self n = Val n
                 ∧ DynamicPrompt.get_display_node_id fuel self n = Val n).
Proof.
  intros Hb. unfold DynamicPrompt.get_real_node_id, DynamicPrompt.get_display_node_id.
  split_and!.
  - intros. apply follow_no_exception.
  - intros. apply follow_no_exception.
  - intros. by eapply follow_leads_to.
  - intros. by eapply follow_leads_to.
  - intros Hn. destruct (unknown_unmapped _ _ Hb Hn) as [Hp Hd]. split.
    + unfold DynamicPrompt.has_node in Hn.
      apply orb_false_iff in Hn as [Ho He].
      apply bool_decide_eq_false in Ho, He.
      apply eq_None_not_Some in Ho, He.
      unfold DynamicPrompt.get_node. by rewrite He, Ho.
    + intros fuel. split; eapply follow_leads_to; try (by constructor); lia.
Qed.

Lemma ancestry_lookup_never_raises_witness :
  built ancestry_example
  ∧ DynamicPrompt.get_real_node_id 2 ancestry_example "E2" = Val "P"
  ∧ DynamicPrompt.get_real_node_id 0 ancestry_example "unknown" = Val "unknown"
  ∧ DynamicPrompt.get_node ancestry_example "unknown"
    = Exc (NodeNotFoundError "unknown").
Proof.
  assert (Hb : built ancestry_example) by (repeat constructor).
  pose proof (ancestry_lookup_never_raises ancestry_example "E2" Hb)
    as (_ & _ & Hreal & _ & _).
  pose proof (ancestry_lookup_never_raises ancestry_example "unknown" Hb)
    as (_ & _ & _ & _ & Hunknown).
  split; [exact Hb|]. split.
  - apply (Hreal 2%nat "P" 2%nat); [|lia].
    eapply leads_step; [vm_compute; reflexivity|].
    eapply leads_step; [vm_compute; reflexivity|].
    apply leads_here. vm_compute; reflexivity.
  - destruct Hunknown as [Hget Hids]; [vm_compute; reflexivity|].
    split; [apply Hids | exact Hget].
Defined.

(** ** Dictionaries *)

Section dict_facts.
Context {K : Type} `{EqDecision K} {V : Type}.
Implicit Types (d : list (K * V)) (k : K) (v : V).

Lemma dict_get_Some_elem d k v : dict_get k d = Some v → (k, v) ∈ d.
Proof.
  induction d as [|[k' v'] d IH]; simpl; [done|].
  case_decide; [intros [= ->]; subst; left | right; auto].
Qed.

Lemma dict_get_is_Some d k : is_Some (dict_get k d) ↔ k ∈ dict_keys d.
Proof.
  unfold dict_keys. induction d as [|[k' v'] d IH]; simpl.
  - split; [by intros [? ?] | by intros ?%elem_of_nil].
  - rewrite elem_of_cons, <-IH. case_decide; [subst; split; eauto|].
    split; [auto|]. intros [?|?]; [congruence|done].
Qed.

Lemma dict_get_None d k : dict_get k d = None ↔ k ∉ dict_keys d.
Proof. rewrite <-dict_get_is_Some, eq_None_not_Some. done. Qed.

Lemma dict_mem_true d k : dict_mem k d = true ↔ k ∈ dict_keys d.
Proof.
  rewrite <-dict_get_is_Some. unfold dict_mem.
  destruct (dict_get k d); split; eauto; try done.
Qed.

Lemma dict_mem_false d k : dict_mem k d = false ↔ k ∉ dict_keys d.
Proof. rewrite <-dict_mem_true. by destruct (dict_mem k d). Qed.

Lemma dict_elem_get d k v : dict_wf d → (k, v) ∈ d → dict_get k d = Some v.
Proof.
  unfold dict_wf, dict_keys.
  induction d as [|[k' v'] d IH]; simpl; [by intros _ ?%elem_of_nil|].
  intros [Hk' Hd]%NoDup_cons [[= -> ->]|Hin]%elem_of_cons.
  - by rewrite decide_True.
  - rewrite decide_False; [auto|]. intros ->. apply Hk'.
    apply list_elem_of_fmap. by exists (k', v).
Qed.

Lemma dict_get_set_eq d k v : dict_get k (dict_set k v d) = Some v.
Proof.
  induction d as [|[k' v'] d IH]; simpl.
  - by rewrite decide_True.
  - case_decide; simpl; [subst; by rewrite decide_True|by rewrite decide_False].
Qed.

Lemma dict_get_set_ne d k k' v :
  k ≠ k' → dict_get k' (dict_set k v d) = dict_get k' d.
Proof.
  intros Hne. induction d as [|[k0 v0] d IH]; simpl.
  - by rewrite decide_False.
  - case_decide; simpl; [subst; by rewrite !decide_False|].
    by rewrite IH.
Qed.

Lemma dict_get_set d k k' v :
  dict_get k' (dict_set k v d)
  = if decide (k = k') then Some v else dict_get k' d.
Proof.
  case_decide; [subst; apply dict_get_set_eq | by apply dict_get_set_ne].
Qed.

Lemma dict_keys_set_old d k v :
  k ∈ dict_keys d → dict_keys (dict_set k v d) = dict_keys d.
Proof.
  unfold dict_keys. induction d as [|[k' v'] d IH]; simpl.
  - by intros ?%elem_of_nil.
  - intros Hin. case_decide; simpl; [done|]. f_equal. apply IH.
    apply elem_of_cons in Hin as [?|?]; done.
Qed.

Lemma dict_keys_set_new d k v :
  k ∉ dict_keys d → dict_keys (dict_set k v d) = dict_keys d ++ [k].
Proof.
  unfold dict_keys. induction d as [|[k' v'] d IH]; simpl; [done|].
  intros Hin. apply not_elem_of_cons in Hin as [? ?].
  rewrite decide_False by done. simpl. f_equal. auto.
Qed.

Lemma dict_keys_set d k v k' :
  k' ∈ dict_keys (dict_set k v d) ↔ k' = k ∨ k' ∈ dict_keys d.
Proof.
  rewrite <-!dict_get_is_Some, dict_get_set.
  case_decide as Hk; [subst; split; eauto|].
  split; [auto|]. intros [->|?]; done.
Qed.

Lemma dict_wf_set d k v : dict_wf d → dict_wf (dict_set k v d).
Proof.
  unfold dict_wf. intros Hd.
  destruct (decide (k ∈ dict_keys d)).
  - by rewrite dict_keys_set_old.
  - rewrite dict_keys_set_new by done.
    apply NoDup_app. split_and!; [done| |apply NoDup_singleton].
    intros x Hx ->%list_elem_of_singleton. done.
Qed.

Lemma dict_set_id d k v : dict_get k d = Some v → dict_set k v d = d.
Proof.
  induction d as [|[k' v'] d IH]; simpl; [done|].
  case_decide; [by intros [= ->]|]. intros ?. f_equal. auto.
Qed.
End dict_facts.

(** ** The largest group *)

Lemma key_lt_true a b : key_lt a b = true → key_le a b.
Proof.
  unfold key_lt, key_le. intros [Hlt|[Heq Hs]%andb_true_iff]%orb_true_iff.
  - left. lia.
  - right. split; [lia|]. unfold String.ltb in Hs. unfold String.le, String.leb.
    by destruct (a.1 ?= b.1)%string.
Qed.

Lemma key_lt_false a b : key_lt a b = false → key_le b a.
Proof.
  unfold key_lt, key_le. intros [Hlt Hs]%orb_false_iff.
  destruct (decide (b.2 < a.2)); [by left|]. right.
  split; [lia|]. apply andb_false_iff in Hs as [Hs|Hs]; [lia|].
  unfold String.ltb in Hs. unfold String.le, String.leb.
  rewrite String.compare_antisym. by destruct (a.1 ?= b.1)%string.
Qed.

Global Instance key_le_trans : Transitive key_le.
Proof.
  intros a b c [?|[? ?]] [?|[? ?]]; unfold key_le;
    [left; lia..|right]. split; [lia|]. by etrans.
Qed.

Global Instance key_le_refl : Reflexive key_le.
Proof. intros a. right. done. Qed.

Lemma max_from_spec items : ∀ best,
  max_from best items ∈ best :: items
  ∧ ∀ kv, kv ∈ best :: items → key_le kv (max_from best items).
Proof.
  induction items as [|x items IH]; intros best; simpl.
  - split; [left|]. by intros kv ->%list_elem_of_singleton.
  - destruct (IH (if key_lt best x then x else best)) as [Hin Hmax]. split.
    + apply elem_of_cons in Hin as [->|Hin]; [|by do 2 right].
      destruct (key_lt best x); [right; left | left].
    + intros kv Hkv. destruct (key_lt best x) eqn:Hlt.
      * apply elem_of_cons in Hkv as [->|Hkv]; [|by apply Hmax].
        etrans; [by apply key_lt_true|]. apply Hmax. left.
      * apply elem_of_cons in Hkv as [->|[->|Hkv]%elem_of_cons].
        -- apply Hmax. left.
        -- etrans; [by apply key_lt_false|]. apply Hmax. left.
        -- apply Hmax. by right.
Qed.

Lemma representatives_cons self c nid l :
  representatives self c (nid :: l)
  = (if decide (ExecutionList.class_of self nid = Val c) then 1 else 0)
    + representatives self c l.
Proof.
  unfold representatives. rewrite filter_cons.
  case_decide; simpl length; lia.
Qed.

Lemma representatives_nonneg self c l : 0 ≤ representatives self c l.
Proof. unfold representatives. lia. Qed.

Lemma class_of_known self nid :
  DynamicPrompt.has_node (dynprompt (super self)) nid = true →
  ∃ c, ExecutionList.class_of self nid = Val c.
Proof.
  unfold DynamicPrompt.has_node, ExecutionList.class_of, DynamicPrompt.get_node.
  intros [[node Hn]%bool_decide_eq_true|[node Hn]%bool_decide_eq_true]%orb_true_iff.
  - rewrite Hn. destruct (ephemeral_prompt _ !! nid); simpl; eauto.
  - rewrite Hn. simpl; eauto.
Qed.

Lemma count_classes_spec self l : ∀ counts,
  dict_wf counts →
  (∀ nid, nid ∈ l → ∃ c, ExecutionList.class_of self nid = Val c) →
  ∃ counts',
    ExecutionList.count_classes self l counts = Val counts'
    ∧ dict_wf counts'
    ∧ (∀ c, default 0 (dict_get c counts')
            = default 0 (dict_get c counts) + representatives self c l)
    ∧ (∀ c, is_Some (dict_get c counts')
            ↔ is_Some (dict_get c counts) ∨ 0 < representatives self c l).
Proof.
  induction l as [|nid l IH]; intros counts Hwf Hall; simpl.
  - exists counts. split_and!; [done..| |].
    + intros c. unfold representatives. simpl. lia.
    + intros c. unfold representatives. simpl. split; [auto|]. intros [?|?]; [done|lia].
  - destruct (Hall nid) as [ct Hct]; [left|]. rewrite Hct. simpl.
    destruct (IH (dict_set ct (default 0 (dict_get ct counts) + 1) counts))
      as (counts' & Hrun & Hwf' & Hval & Hdom).
    { by apply dict_wf_set. }
    { intros ??. apply Hall. by right. }
    exists counts'. split_and!; [done..| |].
    + intros c. rewrite Hval, representatives_cons, dict_get_set, Hct.
      destruct (decide (ct = c)) as [->|Hne].
      * rewrite decide_True by done. simpl. lia.
      * rewrite decide_False by congruence. lia.
    + intros c. rewrite Hdom, representatives_cons, dict_get_set, Hct.
      pose proof (representatives_nonneg self c l).
      destruct (decide (ct = c)) as [->|Hne].
      * rewrite decide_True by done. split; [intros _; right; lia|eauto].
      * rewrite decide_False by congruence. split; (intros [?|?]; [by left|right; lia]).
Qed.

(** ** add_node, add_strong_link: unfolding equations *)

Section dict_more.
Context {K : Type} `{EqDecision K} {V : Type}.
Implicit Types (d : list (K * V)) (k : K) (v : V).

Lemma dict_set_set d k v v' : dict_set k v (dict_set k v' d) = dict_set k v d.
Proof.
  induction d as [|[k' v0] d IH]; simpl.
  - by rewrite decide_True.
  - case_decide; simpl; [by rewrite decide_True|].
    rewrite decide_False by done. by rewrite IH.
Qed.

Lemma dict_mem_get d k : dict_mem k d = bool_decide (is_Some (dict_get k d)).
Proof.
  unfold dict_mem. destruct (dict_get k d); symmetry.
  - apply bool_decide_eq_true_2. eauto.
  - apply bool_decide_eq_false_2. by intros [? ?].
Qed.
End dict_more.

Lemma extends_refl s : extends s s.
Proof. by split. Qed.

Lemma extends_trans s1 s2 s3 : extends s1 s2 → extends s2 s3 → extends s1 s3.
Proof. intros [? ?] [? ?]. split; [congruence|auto]. Qed.

Lemma post_impl {S A} (o : outcome S A) (P Q : S → Prop) :
  post o P → (∀ s, P s → Q s) → post o Q.
Proof. destruct o; simpl; auto. Qed.

Section unfolding.
Variable reg : gmap string ClassDef.

Lemma add_node_loop_nil fuel il sg links s :
  TopologicalSort.add_node_loop reg fuel il sg [] links s = Ok links s.
Proof. by destruct fuel. Qed.

Lemma add_node_loop_step fuel il sg u ids links s :
  TopologicalSort.add_node_loop reg (S fuel) il sg (u :: ids) links s
  = if dict_mem u (pendingNodes s)
    then TopologicalSort.add_node_loop reg fuel il sg ids links s
    else
      let s1 := TopologicalSort.mark_pending u s in
      match DynamicPrompt.get_node (dynprompt s) u with
      | Val node =>
          match TopologicalSort.scan_inputs reg s1 il sg u (inputs node) ids links with
          | Val r => TopologicalSort.add_node_loop reg fuel il sg r.1 r.2 s1
          | Exc e => Raise e s1
          | NoFuel => OutOfFuel
          end
      | Exc e => Raise e s1
      | NoFuel => OutOfFuel
      end.
Proof.
  simpl. unfold bind, gets, modify, query.
  destruct (dict_mem u (pendingNodes s)); [done|]. simpl.
  destruct (DynamicPrompt.get_node (dynprompt s) u); [|done..].
  by destruct (TopologicalSort.scan_inputs _ _ _ _ _ _ _ _).
Qed.

Lemma add_node_S fuel n il sg s :
  TopologicalSort.add_node reg (S fuel) n il sg s
  = match TopologicalSort.add_node_loop reg (S fuel) il sg [n] [] s with
    | Ok links s1 =>
        for_each links (λ l,
          TopologicalSort.add_strong_link_with
            (λ n, TopologicalSort.add_node reg fuel n false None)
            l.1.1 l.1.2 l.2) s1
    | Raise e s1 => Raise e s1
    | OutOfFuel => OutOfFuel
    end.
Proof. reflexivity. Qed.

Lemma add_strong_link_with_eq an from sock to s :
  TopologicalSort.add_strong_link_with an from sock to s
  = match an from s with
    | Ok _ s1 => TopologicalSort.insert_edge from sock to s1
    | Raise e s1 => Raise e s1
    | OutOfFuel => OutOfFuel
    end.
Proof. reflexivity. Qed.

Lemma for_each_cons {S A} (x : A) xs (body : A → M S ()) s :
  for_each (x :: xs) body s
  = match body x s with
    | Ok _ s1 => for_each xs body s1
    | Raise e s1 => Raise e s1
    | OutOfFuel => OutOfFuel
    end.
Proof. reflexivity. Qed.

(** What [insert_edge] does, case by case. *)
Lemma insert_edge_eq from sock to s :
  TopologicalSort.insert_edge from sock to s
  = match dict_get from (blocking s) with
    | None => Raise KeyError s
    | Some b =>
        match dict_get to b with
        | Some sockets =>
            Ok () (set_blocking
                     (dict_set from
                        (dict_set to (dict_set sock true sockets) b)
                        (blocking s)) s)
        | None =>
            match blockCount s !! to with
            | None =>
                Raise KeyError
                  (set_blocking
                     (dict_set from (dict_set to [] b) (blocking s)) s)
            | Some c =>
                Ok () {| dynprompt := dynprompt s;
                         pendingNodes := pendingNodes s;
                         blockCount := <[to := c + 1]> (blockCount s);
                         blocking :=
                           dict_set from (dict_set to [(sock, true)] b)
                             (blocking s) |}
            end
        end
    end.
Proof.
  unfold TopologicalSort.insert_edge, bind, query, modify, ret, item, gitem.
  destruct (dict_get from (blocking s)) as [b|] eqn:Hb; [|done].
  unfold dict_mem. destruct (dict_get to b) as [sockets|] eqn:Hs; simpl.
  - by rewrite Hb, Hs.
  - destruct (blockCount s !! to) as [c|]; [|done]. simpl.
    rewrite !dict_get_set_eq. simpl. by rewrite !dict_set_set.
Qed.
End unfolding.

(** ** The scan of a node's inputs *)

Lemma scanned_cons reg s il sg u x ins l :
  scanned reg s il sg u ins l → scanned reg s il sg u (x :: ins) l.
Proof.
  intros [? (name & info & Hin & ?)]. split; [done|].
  exists name, info. split; [by right|done].
Qed.

Lemma scan_inputs_spec reg s il sg u ins : ∀ ids links ids' links',
  TopologicalSort.scan_inputs reg s il sg u ins ids links = Val (ids', links') →
  ∃ new, links' = links ++ new
       ∧ ids' = reverse (new.*1.*1) ++ ids
       ∧ (length new ≤ length ins)%nat
       ∧ Forall (scanned reg s il sg u ins) new.
Proof.
  induction ins as [|[name value] ins IH]; intros ids links ids' links'; simpl.
  - intros [= <- <-]. exists []. rewrite app_nil_r. simpl. auto with lia.
  - assert (Hskip : TopologicalSort.scan_inputs reg s il sg u ins ids links
                    = Val (ids', links') →
            ∃ new, links' = links ++ new
              ∧ ids' = reverse (new.*1.*1) ++ ids
              ∧ (length new ≤ S (length ins))%nat
              ∧ Forall (scanned reg s il sg u ((name, value) :: ins)) new).
    { intros (new & ? & ? & ? & Hall)%IH. exists new. split_and!; [done|done|lia|].
      eapply Forall_impl; [done|]. intros. by apply scanned_cons. }
    destruct value as [|from sock]; [done|].
    destruct (match sg with Some sg0 => bool_decide (from ∉ sg0) | None => false end)
      eqn:Hsg; [done|].
    destruct (TopologicalSort.get_input_info reg s u name) as [info| |] eqn:Hinfo;
      simpl; [|done..].
    unfold TopologicalSort.is_cached. rewrite andb_true_r.
    destruct (il || negb (TopologicalSort.is_lazy info)) eqn:Hlazy; [|done].
    intros (new & -> & -> & ? & Hall)%IH.
    exists ((from, sock, u) :: new). rewrite <-app_assoc. simpl in *.
    split_and!; [done| |lia|].
    { rewrite reverse_cons, <-app_assoc. done. }
    constructor.
    + split; [done|]. exists name, info. simpl. split_and!; [left|done|done|].
      destruct sg as [sg0|]; [|done]. apply bool_decide_eq_false in Hsg.
      by apply dec_stable.
    + eapply Forall_impl; [done|]. intros. by apply scanned_cons.
Qed.

(** ** A proof rule for add_node

    [add_node] and the [add_strong_link] calls inside it keep every state
    property [I] that marking a new node keeps and that inserting an edge
    keeps when the link satisfies [G], provided that the links that a scan
    records satisfy [G]. *)

Lemma mark_pending_extends u s : extends s (TopologicalSort.mark_pending u s).
Proof.
  split; [done|]. unfold pending. simpl. intros n Hn.
  apply dict_keys_set. by right.
Qed.

Lemma insert_edge_extends from sock to s :
  post (TopologicalSort.insert_edge from sock to s) (extends s).
Proof.
  rewrite insert_edge_eq.
  repeat (case_match; simpl); by split.
Qed.

Section add_node_rule.
Variable reg : gmap string ClassDef.
Variable il_max : bool.
Variable I : TopologicalSort → Prop.
Variable G : link → TopologicalSort → Prop.
Hypothesis G_stable : ∀ l s s', extends s s' → G l s → G l s'.
Hypothesis I_mark : ∀ s u,
  I s → dict_mem u (pendingNodes s) = false → I (TopologicalSort.mark_pending u s).
Hypothesis G_scan : ∀ il sg s u node l,
  implb il il_max = true → I s → dict_mem u (pendingNodes s) = false →
  DynamicPrompt.get_node (dynprompt s) u = Val node →
  scanned reg s il sg u (inputs node) l →
  G l (TopologicalSort.mark_pending u s).
Hypothesis I_edge : ∀ s l,
  I s → G l s → post (TopologicalSort.insert_edge l.1.1 l.1.2 l.2 s) I.

Lemma add_node_loop_rule il sg : implb il il_max = true →
  ∀ fuel ids links s, I s → Forall (λ l, G l s) links →
  match TopologicalSort.add_node_loop reg fuel il sg ids links s with
  | Ok links' s' =>
      I s' ∧ extends s s' ∧ Forall (λ l, G l s') links' ∧ Forall (pending s') ids
  | Raise _ s' => I s' ∧ extends s s'
  | OutOfFuel => True
  end.
Proof.
  intros Hil. induction fuel as [|fuel IH]; intros ids links s HI HG.
  - destruct ids; simpl; [|done]. split_and!; [done|apply extends_refl|done..].
  - destruct ids as [|u ids]; [simpl; split_and!; [done|apply extends_refl|done..]|].
    rewrite add_node_loop_step.
    destruct (dict_mem u (pendingNodes s)) eqn:Hu.
    { specialize (IH ids links s HI HG).
      destruct (TopologicalSort.add_node_loop _ _ _ _ _ _ _) as [links' s'|e s'|];
        [|done..].
      destruct IH as (? & Hext & ? & ?). split_and!; [done..|].
      constructor; [|done]. apply Hext. by apply dict_mem_true. }
    simpl. pose proof (mark_pending_extends u s) as Hext.
    destruct (DynamicPrompt.get_node (dynprompt s) u) as [node|e|] eqn:Hnode;
      [|by auto..].
    destruct (TopologicalSort.scan_inputs _ _ _ _ _ _ _ _) as [[ids' links']|e|]
      eqn:Hscan; [|by auto..].
    apply scan_inputs_spec in Hscan as (new & -> & -> & _ & Hnew). simpl.
    specialize (IH (reverse new.*1.*1 ++ ids) (links ++ new)
                  (TopologicalSort.mark_pending u s) (I_mark _ _ HI Hu)).
    assert (HG' : Forall (λ l, G l (TopologicalSort.mark_pending u s))
                    (links ++ new)).
    { apply Forall_app. split.
      - eapply Forall_impl; [done|]. intros l ?. by eapply G_stable.
      - eapply Forall_impl; [done|]. intros l ?. by eapply G_scan. }
    specialize (IH HG').
    destruct (TopologicalSort.add_node_loop _ _ _ _ _ _ _) as [links' s'|e s'|];
      [| |done].
    + destruct IH as (? & Hext' & ? & [_ Hids]%Forall_app).
      split_and!; [done|by eapply extends_trans|done|].
      constructor; [|done]. apply Hext'. apply dict_keys_set. by left.
    + destruct IH as (? & ?). split; [done|]. by eapply extends_trans.
Qed.

Lemma for_links_rule (an : node_id → M TopologicalSort ()) :
  (∀ n s, I s → post (an n s) (λ s', I s' ∧ extends s s')) →
  ∀ links s, I s → Forall (λ l, G l s) links →
  post (for_each links (λ l,
          TopologicalSort.add_strong_link_with an l.1.1 l.1.2 l.2) s)
    (λ s', I s' ∧ extends s s').
Proof.
  intros Han. induction links as [|l links IHl]; intros s1 HI1 HG1.
  { split; [done|apply extends_refl]. }
  rewrite for_each_cons, add_strong_link_with_eq.
  apply Forall_cons in HG1 as [Hl HG1].
  pose proof (Han l.1.1 s1 HI1) as Hnode.
  destruct (an l.1.1 s1) as [[] s2|e s2|]; [|done..].
  destruct Hnode as [HI2 Hext2].
  pose proof (I_edge s2 l HI2 (G_stable _ _ _ Hext2 Hl)) as Hedge.
  pose proof (insert_edge_extends l.1.1 l.1.2 l.2 s2) as Hext3.
  destruct (TopologicalSort.insert_edge _ _ _ _) as [[] s3|e s3|]; simpl in *;
    [|split; [done|by eapply extends_trans]|done].
  pose proof (extends_trans _ _ _ Hext2 Hext3) as Hext13.
  assert (HG3 : Forall (λ l, G l s3) links).
  { eapply Forall_impl; [done|]. intros l' Hl'. simpl in Hl'.
    by eapply G_stable. }
  specialize (IHl s3 Hedge HG3).
  eapply post_impl; [done|]. intros s' [? ?]. split; [done|].
  by eapply extends_trans.
Qed.

Lemma add_node_rule fuel : ∀ n il sg s, implb il il_max = true → I s →
  post (TopologicalSort.add_node reg fuel n il sg s) (λ s', I s' ∧ extends s s').
Proof.
  induction fuel as [|fuel IH]; intros n il sg s Hil HI; [done|].
  rewrite add_node_S.
  pose proof (add_node_loop_rule il sg Hil (S fuel) [n] [] s HI (Forall_nil_2 _))
    as Hloop.
  destruct (TopologicalSort.add_node_loop _ _ _ _ _ _ _) as [links s1|e s1|];
    [|done..].
  destruct Hloop as (HI1 & Hext1 & HG1 & _).
  eapply post_impl.
  - apply for_links_rule; [|done..]. intros. by apply IH.
  - intros s' [? ?]. split; [done|]. by eapply extends_trans.
Qed.

(** A call that returns leaves its node pending. *)
Lemma add_node_marks fuel n il sg s s' : implb il il_max = true → I s →
  TopologicalSort.add_node reg fuel n il sg s = Ok () s' → pending s' n.
Proof.
  intros Hil HI. destruct fuel as [|fuel]; [done|]. rewrite add_node_S.
  pose proof (add_node_loop_rule il sg Hil (S fuel) [n] [] s HI (Forall_nil_2 _))
    as Hloop.
  destruct (TopologicalSort.add_node_loop _ _ _ _ _ _ _) as [links s1|e s1|];
    [|done..].
  destruct Hloop as (HI1 & Hext1 & HG1 & [Hn _]%Forall_cons).
  intros Hlinks.
  pose proof (for_links_rule
                (λ n, TopologicalSort.add_node reg fuel n false None)
                (λ n s HI, add_node_rule fuel n false None s eq_refl HI)
                links s1 HI1 HG1) as Hpost.
  rewrite Hlinks in Hpost. destruct Hpost as [_ [_ Hext]]. by apply Hext.
Qed.

Lemma add_strong_link_rule fuel from sock to s :
  I s → (∀ s', I s' → extends s s' → G (from, sock, to) s') →
  post (TopologicalSort.add_strong_link reg fuel from sock to s)
    (λ s', I s' ∧ extends s s').
Proof.
  intros HI HG. unfold TopologicalSort.add_strong_link.
  rewrite add_strong_link_with_eq.
  pose proof (add_node_rule fuel from false None s eq_refl HI) as Hnode.
  destruct (TopologicalSort.add_node _ _ _ _ _ _) as [[] s2|e s2|]; [|done..].
  destruct Hnode as [HI2 Hext2].
  pose proof (I_edge s2 (from, sock, to) HI2 (HG _ HI2 Hext2)) as Hedge.
  pose proof (insert_edge_extends from sock to s2) as Hext3.
  simpl in *.
  destruct (TopologicalSort.insert_edge _ _ _ _) as [[] s3|e s3|]; simpl in *;
    [| |done]; (split; [done|by eapply extends_trans]).
Qed.
End add_node_rule.

Lemma add_node_extends reg fuel n il sg s :
  post (TopologicalSort.add_node reg fuel n il sg s) (extends s).
Proof.
  eapply post_impl.
  - apply (add_node_rule reg true (λ _, True) (λ _ _, True)); try done.
    + intros. by destruct (TopologicalSort.insert_edge _ _ _ _).
    + by destruct il.
  - by intros s' [_ ?].
Qed.

Lemma add_node_pending reg fuel n il sg s s' :
  TopologicalSort.add_node reg fuel n il sg s = Ok () s' → pending s' n.
Proof.
  apply (add_node_marks reg true (λ _, True) (λ _ _, True)); try done.
  - intros. by destruct (TopologicalSort.insert_edge _ _ _ _).
  - by destruct il.
Qed.

(** ** More on dictionaries: deletion and counting *)

Section dict_del_facts.
Context {K : Type} `{EqDecision K} {V : Type}.
Implicit Types (d : list (K * V)) (k : K) (v : V).

Lemma dict_get_del_ne d k k' : k ≠ k' → dict_get k' (dict_del k d) = dict_get k' d.
Proof.
  intros Hne. induction d as [|[k0 v0] d IH]; simpl; [done|].
  case_decide; simpl; [subst; by rewrite decide_False|].
  by rewrite IH.
Qed.

Lemma dict_keys_del_elem d k k' :
  k' ∈ dict_keys (dict_del k d) → k' ∈ dict_keys d.
Proof.
  unfold dict_keys. induction d as [|[k0 v0] d IH]; simpl; [done|].
  case_decide; simpl; [by right|].
  intros [->|?]%elem_of_cons; [left|right; auto].
Qed.

Lemma dict_wf_del d k : dict_wf d → dict_wf (dict_del k d).
Proof.
  unfold dict_wf. induction d as [|[k0 v0] d IH]; simpl; [done|].
  intros [Hk0 Hd]%NoDup_cons. case_decide; [done|]. simpl.
  apply NoDup_cons. split; [|auto]. intros ?%dict_keys_del_elem. done.
Qed.

Lemma dict_keys_del d k k' :
  dict_wf d → k' ∈ dict_keys (dict_del k d) ↔ k' ≠ k ∧ k' ∈ dict_keys d.
Proof.
  unfold dict_wf, dict_keys. induction d as [|[k0 v0] d IH]; simpl.
  - intros _. split; [by intros ?%elem_of_nil|by intros [_ ?%elem_of_nil]].
  - intros [Hk0 Hd]%NoDup_cons. case_decide; simpl.
    + subst. rewrite elem_of_cons. split.
      * intros Hin. split; [by intros ->|by right].
      * intros [? [?|?]]; done.
    + rewrite !elem_of_cons, IH by done. split.
      * intros [->|[? ?]]; [split; [congruence|by left]|split; [done|by right]].
      * intros [? [->|?]]; [by left|by right].
Qed.

Lemma dict_get_del_eq d k : dict_wf d → dict_get k (dict_del k d) = None.
Proof.
  intros Hwf. apply dict_get_None. by intros [? _]%dict_keys_del.
Qed.

(** Dictionaries with the same keys keep the same keys when the same key is
    assigned or deleted. *)
Lemma dict_keys_set_cong {W} d (e : list (K * W)) k v (w : W) :
  dict_keys d = dict_keys e →
  dict_keys (dict_set k v d) = dict_keys (dict_set k w e).
Proof.
  unfold dict_keys. revert e.
  induction d as [|[k0 v0] d IH]; intros [|[k1 v1] e]; simpl; try done.
  intros [= -> Hd]. case_decide; simpl; [by rewrite Hd|]. f_equal. auto.
Qed.

Lemma dict_keys_del_cong {W} d (e : list (K * W)) k :
  dict_keys d = dict_keys e →
  dict_keys (dict_del k d) = dict_keys (dict_del k e).
Proof.
  unfold dict_keys. revert e.
  induction d as [|[k0 v0] d IH]; intros [|[k1 v1] e]; simpl; try done.
  intros [= -> Hd]. case_decide; simpl; [done|]. f_equal. auto.
Qed.

Lemma dict_wf_keys {W} d (e : list (K * W)) :
  dict_keys d = dict_keys e → dict_wf d → dict_wf e.
Proof. unfold dict_wf. by intros ->. Qed.

(** Counting the entries that satisfy [P], an entry being replaced or
    deleted. *)
Lemma count_set (P : K * V → Prop) `{∀ x, Decision (P x)} d k v v' :
  dict_get k d = Some v →
  (count P (dict_set k v' d) + (if decide (P (k, v)) then 1 else 0)
   = count P d + (if decide (P (k, v')) then 1 else 0))%nat.
Proof.
  unfold count. induction d as [|[k0 v0] d IH]; simpl; [done|].
  destruct (decide (k = k0)) as [->|Hk].
  - intros [= ->]. rewrite !filter_cons.
    repeat case_decide; simpl; lia.
  - intros Hget. specialize (IH Hget). rewrite !filter_cons.
    destruct (decide (P (k0, v0))); simpl; lia.
Qed.

Lemma count_del (P : K * V → Prop) `{∀ x, Decision (P x)} d k v :
  dict_get k d = Some v →
  (count P (dict_del k d) + (if decide (P (k, v)) then 1 else 0)
   = count P d)%nat.
Proof.
  unfold count. induction d as [|[k0 v0] d IH]; simpl; [done|].
  destruct (decide (k = k0)) as [->|Hk].
  - intros [= ->]. rewrite !filter_cons.
    repeat case_decide; simpl; lia.
  - intros Hget. specialize (IH Hget). rewrite !filter_cons.
    destruct (decide (P (k0, v0))); simpl; lia.
Qed.

Lemma count_set_new (P : K * V → Prop) `{∀ x, Decision (P x)} d k v :
  dict_get k d = None →
  count P (dict_set k v d)
  = (count P d + (if decide (P (k, v)) then 1 else 0))%nat.
Proof.
  unfold count. induction d as [|[k0 v0] d IH]; simpl.
  - intros _. rewrite filter_cons, filter_nil. by case_decide.
  - destruct (decide (k = k0)) as [->|Hk]; [done|].
    intros Hget. specialize (IH Hget).
    rewrite !filter_cons. destruct (decide (P (k0, v0))); simpl; lia.
Qed.

Lemma count_zero (P : K * V → Prop) `{∀ x, Decision (P x)} d :
  count P d = 0%nat ↔ ∀ kv, kv ∈ d → ¬ P kv.
Proof.
  unfold count. rewrite length_zero_iff_nil. split.
  - intros Hnil kv Hin HP.
    assert (kv ∈ filter P d) as Hf by (by apply list_elem_of_filter).
    rewrite Hnil in Hf. by apply elem_of_nil in Hf.
  - intros Hall. apply elem_of_nil_inv. intros kv [? ?]%list_elem_of_filter.
    by eapply Hall.
Qed.

Lemma dict_values_set_elem d k v : v ∈ dict_values (dict_set k v d).
Proof.
  unfold dict_values. induction d as [|[k0 v0] d IH]; simpl; [left|].
  case_decide; simpl; [left|by right].
Qed.
End dict_del_facts.

(** ** The invariant is kept *)

Lemma block_inv_init dp : block_inv (TopologicalSort.__init__ dp).
Proof.
  split; simpl; [apply NoDup_nil_2|done|done|].
  by intros n ?%elem_of_nil.
Qed.

Lemma block_inv_prompt s dp : block_inv s → block_inv (set_dynprompt dp s).
Proof. intros [? ? ? ?]. by split. Qed.

Lemma block_inv_blocking_wf s : block_inv s → dict_wf (blocking s).
Proof.
  intros [Hwf Hkeys _ _]. eapply dict_wf_keys; [symmetry; exact Hkeys|done].
Qed.

Lemma block_inv_edge_pending s m targets n :
  block_inv s → (m, targets) ∈ blocking s → n ∈ dict_keys targets → pending s n.
Proof.
  intros Hinv Hin Hn.
  apply (dict_elem_get _ _ _ (block_inv_blocking_wf _ Hinv)) in Hin.
  apply dict_get_is_Some in Hn as [sockets Hs].
  destruct (inv_targets _ Hinv _ _ Hin) as [_ Hent].
  by destruct (Hent _ _ Hs).
Qed.

Lemma block_inv_mark s u :
  block_inv s → dict_mem u (pendingNodes s) = false →
  block_inv (TopologicalSort.mark_pending u s).
Proof.
  intros Hinv Hu. pose proof Hinv as [Hwf Hkeys Htargets Hcount].
  apply dict_mem_false in Hu.
  assert (Hub : dict_get u (blocking s) = None).
  { apply dict_get_None. by rewrite Hkeys. }
  split; simpl.
  - by apply dict_wf_set.
  - by apply dict_keys_set_cong.
  - intros m targets. rewrite dict_get_set. case_decide as Hm.
    + intros [= <-]. split; [apply NoDup_nil_2|done].
    + intros [Htw Hent]%Htargets. split; [done|]. intros n sockets Hn.
      destruct (Hent _ _ Hn) as [Hp ?]. split; [|done].
      apply dict_keys_set. by right.
  - intros n Hn. unfold blockers. simpl.
    rewrite count_set_new, decide_False by (done || by intros ?%elem_of_nil).
    rewrite Nat.add_0_r. apply dict_keys_set in Hn as [->|Hn].
    + rewrite lookup_insert_eq. f_equal. symmetry.
      apply (f_equal Z.of_nat (y := 0%nat)), count_zero.
      intros [m targets] Hin Hu'. apply Hu. by eapply block_inv_edge_pending.
    + rewrite lookup_insert_ne by (by intros <-). by apply Hcount.
Qed.

Lemma block_inv_edge s l :
  block_inv s → pending s l.2 →
  post (TopologicalSort.insert_edge l.1.1 l.1.2 l.2 s) block_inv.
Proof.
  destruct l as [[from sock] to]. simpl. intros Hinv Hto.
  pose proof Hinv as [Hwf Hkeys Htargets Hcount].
  rewrite insert_edge_eq.
  destruct (dict_get from (blocking s)) as [b|] eqn:Hb; [|done].
  destruct (Htargets _ _ Hb) as [Hbwf Hbent].
  assert (Hfrom : from ∈ dict_keys (blocking s)).
  { apply dict_get_is_Some. eauto. }
  destruct (dict_get to b) as [sockets|] eqn:Hs; simpl.
  - (* the pair is known: only the socket is set *)
    assert (Hkb : dict_keys (dict_set to (dict_set sock true sockets) b)
                  = dict_keys b).
    { apply dict_keys_set_old, dict_get_is_Some. eauto. }
    split; simpl.
    + done.
    + by rewrite dict_keys_set_old.
    + intros m targets. rewrite dict_get_set. case_decide as Hm.
      * intros [= <-]. split; [by apply dict_wf_set|].
        intros n sockets'. rewrite dict_get_set. case_decide as Hn.
        -- intros [= <-]. subst n. split; [done|apply dict_values_set_elem].
        -- apply Hbent.
      * apply Htargets.
    + intros n Hn. rewrite (Hcount n Hn). f_equal. unfold blockers. simpl.
      f_equal.
      pose proof (count_set (λ kv, n ∈ dict_keys kv.2) (blocking s) from b
                    (dict_set to (dict_set sock true sockets) b) Hb) as Hc.
      cbn beta iota delta [snd] in Hc. rewrite Hkb in Hc.
      destruct (decide (n ∈ dict_keys b)); lia.
  - (* a new pair: the edge is counted *)
    destruct (Hcount to Hto) as [].
    rewrite (Hcount to Hto). simpl.
    assert (Hnew : to ∉ dict_keys b) by (by apply dict_get_None).
    split; simpl.
    + done.
    + by rewrite dict_keys_set_old.
    + intros m targets. rewrite dict_get_set. case_decide as Hm.
      * intros [= <-]. split; [by apply dict_wf_set|].
        intros n sockets'. rewrite dict_get_set. case_decide as Hn.
        -- intros [= <-]. subst n. split; [done|left].
        -- apply Hbent.
      * apply Htargets.
    + intros n Hn. unfold blockers. simpl.
      pose proof (count_set (λ kv, n ∈ dict_keys kv.2) (blocking s) from b
                    (dict_set to [(sock, true)] b) Hb) as Hc.
      cbn beta iota delta [snd] in Hc. rewrite dict_keys_set_new in Hc by done.
      destruct (decide (n = to)) as [->|Hne].
      * rewrite lookup_insert_eq. f_equal. unfold blockers.
        rewrite decide_False in Hc by done.
        rewrite decide_True in Hc by (apply elem_of_app; right; left). lia.
      * rewrite lookup_insert_ne by done. rewrite (Hcount n Hn).
        f_equal. unfold blockers.
        destruct (decide (n ∈ dict_keys b)).
        -- rewrite decide_True in Hc by (apply elem_of_app; by left). lia.
        -- rewrite decide_False in Hc; [lia|].
           intros [?|?%list_elem_of_singleton]%elem_of_app; done.
Qed.

(** ** pop_node *)

Lemma decrement_insert (bc : gmap node_id Z) k c :
  bc !! k = Some c → <[k := c - 1]> bc = decrement bc k.
Proof.
  intros Hk. apply map_eq. intros i. unfold decrement.
  rewrite lookup_insert, lookup_alter. case_decide; [subst; by rewrite Hk|done].
Qed.

Lemma for_each_decrement ks : ∀ s,
  (∀ k, k ∈ ks → is_Some (blockCount s !! k)) →
  for_each ks (λ blocked_node_id,
    c <- query (λ self, gitem (blockCount self) blocked_node_id) ;;
    modify (λ self,
      set_blockCount (<[blocked_node_id := c - 1]> (blockCount self)) self)) s
  = Ok () (set_blockCount (foldl decrement (blockCount s) ks) s).
Proof.
  induction ks as [|k ks IH]; intros s Hks.
  - by destruct s.
  - rewrite for_each_cons. unfold bind, query, modify, gitem.
    destruct (Hks k) as [c Hc]; [left|]. rewrite Hc.
    rewrite (decrement_insert _ _ _ Hc). rewrite IH; [done|].
    intros k' Hk'. simpl. unfold decrement. rewrite lookup_alter.
    destruct (Hks k') as [c' Hc']; [by right|].
    case_decide; subst; [rewrite Hc|rewrite Hc']; simpl; eauto.
Qed.

Lemma lookup_decrement_all ks : NoDup ks → ∀ (bc : gmap node_id Z) n,
  foldl decrement bc ks !! n
  = if decide (n ∈ ks) then (λ c, c - 1) <$> bc !! n else bc !! n.
Proof.
  induction 1 as [|k ks Hk _ IH]; intros bc n; simpl.
  - done.
  - rewrite IH. unfold decrement at 1 2. rewrite lookup_alter.
    destruct (decide (n = k)) as [->|Hne].
    + rewrite decide_False, decide_True, decide_True by (done || left). done.
    + rewrite (decide_False (P := k = n)) by done.
      destruct (decide (n ∈ ks)).
      * rewrite decide_True; [done|by right].
      * rewrite decide_False; [done|]. by intros [?|?]%elem_of_cons.
Qed.

Lemma pop_node_eq u s :
  TopologicalSort.pop_node u s
  = if dict_mem u (pendingNodes s) then
      let s1 := set_pendingNodes (dict_del u (pendingNodes s)) s in
      match dict_get u (blocking s) with
      | None => Raise KeyError s1
      | Some b =>
          match for_each (dict_keys b) (λ blocked_node_id,
                  c <- query (λ self, gitem (blockCount self) blocked_node_id) ;;
                  modify (λ self,
                    set_blockCount
                      (<[blocked_node_id := c - 1]> (blockCount self)) self)) s1
          with
          | Ok _ s2 => Ok () (set_blocking (dict_del u (blocking s2)) s2)
          | Raise e s2 => Raise e s2
          | OutOfFuel => OutOfFuel
          end
      end
    else Raise KeyError s.
Proof.
  unfold TopologicalSort.pop_node, bind, gets, modify, query, raise, item.
  destruct (dict_mem u (pendingNodes s)); [|done]. simpl.
  by destruct (dict_get u (blocking s)).
Qed.

(** Where every dependent is counted, [pop_node] returns, and each dependent
    is decremented once. *)
Lemma pop_node_counted u s b :
  dict_mem u (pendingNodes s) = true →
  dict_get u (blocking s) = Some b →
  (∀ k, k ∈ dict_keys b → is_Some (blockCount s !! k)) →
  TopologicalSort.pop_node u s
  = Ok () {| dynprompt := dynprompt s;
             pendingNodes := dict_del u (pendingNodes s);
             blockCount := foldl decrement (blockCount s) (dict_keys b);
             blocking := dict_del u (blocking s) |}.
Proof.
  intros Hu Hb Hks. rewrite pop_node_eq, Hu, Hb. simpl.
  by rewrite for_each_decrement.
Qed.

Lemma block_inv_pop s u :
  block_inv s → ready s u →
  ∃ s', TopologicalSort.pop_node u s = Ok () s' ∧ block_inv s'.
Proof.
  intros Hinv [Hu Hready]. pose proof Hinv as [Hwf Hkeys Htargets Hcount].
  pose proof (block_inv_blocking_wf _ Hinv) as Hbwf.
  assert (is_Some (dict_get u (blocking s))) as [b Hb].
  { apply dict_get_is_Some. by rewrite Hkeys. }
  destruct (Htargets _ _ Hb) as [Hbk Hbent].
  eexists. split.
  { apply (pop_node_counted u s b); [by apply dict_mem_true|done|].
    intros k [sockets Hk]%dict_get_is_Some.
    destruct (Hbent _ _ Hk) as [Hp _]. rewrite (Hcount _ Hp). eauto. }
  assert (Hnone : ∀ m targets, (m, targets) ∈ blocking s → u ∉ dict_keys targets).
  { rewrite (Hcount u Hu) in Hready. injection Hready as Hz.
    unfold blockers in Hz.
    assert (count (λ kv, u ∈ dict_keys kv.2) (blocking s) = 0%nat) as Hc by lia.
    intros m targets Hin. by apply (proj1 (count_zero _ _) Hc (m, targets)). }
  split; simpl.
  - by apply dict_wf_del.
  - by apply dict_keys_del_cong.
  - intros m targets Hm.
    assert (m ≠ u) as Hne.
    { intros ->. by rewrite dict_get_del_eq in Hm. }
    rewrite dict_get_del_ne in Hm by done.
    destruct (Htargets _ _ Hm) as [? Hent]. split; [done|].
    intros n sockets Hn. destruct (Hent _ _ Hn) as [Hp ?]. split; [|done].
    unfold pending. simpl. apply dict_keys_del; [done|]. split; [|done].
    intros ->. eapply Hnone; [by eapply dict_get_Some_elem|].
    apply dict_get_is_Some. eauto.
  - intros n [Hne Hn]%dict_keys_del; [|done].
    rewrite lookup_decrement_all by done. rewrite (Hcount n Hn).
    unfold blockers. simpl.
    pose proof (count_del (λ kv, n ∈ dict_keys kv.2) (blocking s) u b Hb) as Hc.
    cbn beta iota delta [snd] in Hc. case_decide; simpl; f_equal; lia.
Qed.

Lemma block_inv_add_node reg fuel n il sg s :
  block_inv s →
  post (TopologicalSort.add_node reg fuel n il sg s)
    (λ s', block_inv s' ∧ extends s s').
Proof.
  intros Hinv.
  apply (add_node_rule reg true block_inv (λ l s, pending s l.2)); try done.
  - intros l s1 s2 [_ Hext]. apply Hext.
  - apply block_inv_mark.
  - intros il' sg' s1 u node l _ _ _ _ [-> _].
    apply dict_keys_set. by left.
  - apply block_inv_edge.
  - by destruct il.
Qed.

Lemma block_inv_add_strong_link reg fuel from sock to s :
  block_inv s → pending s to →
  post (TopologicalSort.add_strong_link reg fuel from sock to s)
    (λ s', block_inv s' ∧ extends s s').
Proof.
  intros Hinv Hto.
  apply (add_strong_link_rule reg true block_inv (λ l s, pending s l.2));
    try done.
  - intros l s1 s2 [_ Hext]. apply Hext.
  - apply block_inv_mark.
  - intros il' sg' s1 u node l _ _ _ _ [-> _].
    apply dict_keys_set. by left.
  - apply block_inv_edge.
  - intros s' _ [_ Hext]. by apply Hext.
Qed.

Lemma reachable_block_inv reg s : reachable reg s → block_inv s.
Proof.
  induction 1 as [dp|s c s' _ IH Hproto Hleft|s dp _ IH].
  - apply block_inv_init.
  - destruct c as [fuel n il sg|fuel from sock to|n]; simpl in *.
    + pose proof (block_inv_add_node reg fuel n il sg s IH) as Hpost.
      destruct (TopologicalSort.add_node _ _ _ _ _ _); simpl in *;
        [subst; tauto..|done].
    + pose proof (block_inv_add_strong_link reg fuel from sock to s IH Hproto)
        as Hpost.
      destruct (TopologicalSort.add_strong_link _ _ _ _ _ _); simpl in *;
        [subst; tauto..|done].
    + destruct (block_inv_pop s n IH Hproto) as (s1 & Hpop & ?).
      rewrite Hpop in Hleft. simpl in Hleft. by subst.
  - by apply block_inv_prompt.
Qed.

Lemma block_inv_count_invariant s : block_inv s → count_invariant s.
Proof.
  intros Hinv n Hn. pose proof Hinv as [Hwf Hkeys Htargets Hcount].
  exists (blockers s n). split; [by apply Hcount|].
  unfold blockers. split.
  - intros Hz (m & targets & sockets & _ & Hm & Hs & _).
    assert (count (λ kv, n ∈ dict_keys kv.2) (blocking s) = 0%nat) as Hc by lia.
    apply (proj1 (count_zero _ _) Hc (m, targets)).
    + by apply dict_get_Some_elem.
    + apply dict_get_is_Some. eauto.
  - intros Hfree.
    apply (f_equal Z.of_nat (y := 0%nat)), count_zero.
    intros [m targets] Hin Hk. simpl in Hk. apply Hfree.
    pose proof (dict_elem_get _ _ _ (block_inv_blocking_wf _ Hinv) Hin) as Hm.
    apply dict_get_is_Some in Hk as [sockets Hs].
    exists m, targets, sockets. split_and!; [|done|done|].
    + unfold pending. rewrite <-Hkeys. apply dict_get_is_Some. eauto.
    + destruct (Htargets _ _ Hm) as [_ Hent]. by destruct (Hent _ _ Hs).
Qed.

(** ** The block-graph invariant (C5) *)

(** C5, within the protocol.  After every sequence of [add_node],
    [add_strong_link] to a pending consumer and [pop_node] of a ready node,
    from a new scheduler and whatever the calls returned or raised, a pending
    node has [blockCount] zero exactly when no pending node holds an edge to
    it with a true socket; and [pop_node] of a pending node returns and
    decrements each dependent once, however many sockets the edge has. *)
Theorem block_invariant_within_protocol reg s :
  reachable reg s →
  count_invariant s
  ∧ ∀ u, pending s u →
      ∃ b s', dict_get u (blocking s) = Some b
        ∧ TopologicalSort.pop_node u s = Ok () s'
        ∧ ∀ n, blockCount s' !! n
               = if decide (n ∈ dict_keys b)
                 then (λ c, c - 1) <$> blockCount s !! n
                 else blockCount s !! n.
Proof.
  intros Hinv%reachable_block_inv. split; [by apply block_inv_count_invariant|].
  intros u Hu. pose proof Hinv as [Hwf Hkeys Htargets Hcount].
  assert (is_Some (dict_get u (blocking s))) as [b Hb].
  { apply dict_get_is_Some. by rewrite Hkeys. }
  destruct (Htargets _ _ Hb) as [Hbwf Hbent].
  eexists b, _. split_and!; [done| |].
  - apply (pop_node_counted u s b); [by apply dict_mem_true|done|].
    intros k [sockets Hk]%dict_get_is_Some.
    destruct (Hbent _ _ Hk) as [Hp _]. rewrite (Hcount _ Hp). eauto.
  - intros n. simpl. by apply lookup_decrement_all.
Qed.

Lemma chain_state_reachable : reachable example_registry chain_state.
Proof.
  apply (reachable_call _ (TopologicalSort.__init__ chain_prompt)
           (call_add_node 3 "B" false None)).
  - apply reachable_init.
  - exact I.
  - vm_compute. reflexivity.
Qed.

Lemma block_invariant_within_protocol_witness :
  reachable example_registry chain_state
  ∧ count_invariant chain_state
  ∧ ∀ u, pending chain_state u →
      ∃ b s', dict_get u (blocking chain_state) = Some b
        ∧ TopologicalSort.pop_node u chain_state = Ok () s'
        ∧ ∀ n, blockCount s' !! n
               = if decide (n ∈ dict_keys b)
                 then (λ c, c - 1) <$> blockCount chain_state !! n
                 else blockCount chain_state !! n.
Proof.
  split; [exact chain_state_reachable|].
  exact (block_invariant_within_protocol example_registry chain_state
           chain_state_reachable).
Defined.

(** C5 fails outside the protocol: [pop_node] takes any pending node.  Once
    B is popped while A blocks it and is added again, B is pending with
    [blockCount] zero although the pending A holds an edge to it. *)
Lemma block_invariant_broken_by_early_pop :
  exec_all example_registry
    [call_add_node 3 "B" false None; call_pop_node "B";
     call_add_node 3 "B" false None]
    (TopologicalSort.__init__ chain_prompt)
  = Ok () early_pop_state
  ∧ pending early_pop_state "B"
  ∧ blockCount early_pop_state !! "B" = Some 0
  ∧ blocked_by_pending early_pop_state "B"
  ∧ ¬ count_invariant early_pop_state.
Proof.
  assert (HB : pending early_pop_state "B").
  { vm_compute. right. left. }
  assert (Hc : blockCount early_pop_state !! "B" = Some 0) by (vm_compute; done).
  assert (Hblocked : blocked_by_pending early_pop_state "B").
  { exists "A", [("B", [(0, true)])], [(0, true)].
    split_and!; [vm_compute; left|vm_compute; done|vm_compute; done|left]. }
  split_and!; [vm_compute; done|done..|].
  intros Hinv. destruct (Hinv "B" HB) as (c & Hc' & Hiff).
  rewrite Hc in Hc'. injection Hc' as <-.
  by apply (proj1 Hiff).
Qed.

(** ** Idempotent edge insertion (C6) *)

Lemma add_node_noop reg fuel n il sg s :
  dict_mem n (pendingNodes s) = true →
  TopologicalSort.add_node reg (S fuel) n il sg s = Ok () s.
Proof.
  intros Hn. rewrite add_node_S, add_node_loop_step, Hn.
  by rewrite add_node_loop_nil.
Qed.

Lemma insert_edge_pending from sock to s s' :
  TopologicalSort.insert_edge from sock to s = Ok () s' →
  pendingNodes s' = pendingNodes s.
Proof.
  rewrite insert_edge_eq. repeat case_match; try done; by intros [= <-].
Qed.

(** After an edge is inserted, inserting an edge of the same pair sets the
    socket and counts nothing; inserting the same edge changes nothing. *)
Lemma insert_edge_again from sock sock' to s s1 :
  TopologicalSort.insert_edge from sock to s = Ok () s1 →
  ∃ s2, TopologicalSort.insert_edge from sock' to s1 = Ok () s2
      ∧ blockCount s2 = blockCount s1
      ∧ (sock' = sock → s2 = s1).
Proof.
  rewrite insert_edge_eq.
  destruct (dict_get from (blocking s)) as [b|] eqn:Hb; [|done].
  destruct (dict_get to b) as [sockets|] eqn:Hs.
  - intros [= <-]. rewrite insert_edge_eq. simpl.
    rewrite !dict_get_set_eq. eexists. split_and!; [done..|].
    intros ->. by rewrite !dict_set_set.
  - destruct (blockCount s !! to) as [c|]; [|done].
    intros [= <-]. rewrite insert_edge_eq. simpl.
    rewrite !dict_get_set_eq. eexists. split_and!; [done..|].
    intros ->. rewrite !dict_set_set. simpl. by rewrite decide_True.
Qed.

(** C6.  Calling [add_strong_link] twice with the same triple is calling it
    once: the second call leaves the state of the first.  A further call for
    the same producer and consumer on another socket returns and leaves
    [blockCount] as it is: the consumer is counted on the first insertion of
    the pair only. *)
Theorem add_strong_link_idempotent reg fuel from sock to s :
  (TopologicalSort.add_strong_link reg fuel from sock to ;;
   TopologicalSort.add_strong_link reg fuel from sock to)%py s
  = TopologicalSort.add_strong_link reg fuel from sock to s
  ∧ ∀ s1 sock',
      TopologicalSort.add_strong_link reg fuel from sock to s = Ok () s1 →
      ∃ s2, TopologicalSort.add_strong_link reg fuel from sock' to s1 = Ok () s2
          ∧ blockCount s2 = blockCount s1.
Proof.
  assert (Hagain : ∀ s1 sock',
    TopologicalSort.add_strong_link reg fuel from sock to s = Ok () s1 →
    ∃ s2, TopologicalSort.add_strong_link reg fuel from sock' to s1 = Ok () s2
        ∧ blockCount s2 = blockCount s1 ∧ (sock' = sock → s2 = s1)).
  { intros s1 sock'. unfold TopologicalSort.add_strong_link.
    rewrite !add_strong_link_with_eq.
    destruct fuel as [|fuel]; [done|].
    destruct (TopologicalSort.add_node reg (S fuel) from false None s)
      as [[] s0|e s0|] eqn:Hnode; [|done..].
    intros Hedge. apply add_node_pending in Hnode.
    rewrite add_node_noop.
    - by eapply insert_edge_again.
    - apply dict_mem_true. unfold pending in Hnode.
      by rewrite (insert_edge_pending _ _ _ _ _ Hedge). }
  split.
  - unfold bind.
    destruct (TopologicalSort.add_strong_link reg fuel from sock to s)
      as [[] s1|e s1|] eqn:Hfirst; [|done..].
    destruct (Hagain s1 sock eq_refl) as (s2 & -> & _ & Hsame).
    by rewrite Hsame.
  - intros s1 sock' Hfirst.
    destruct (Hagain s1 sock' Hfirst) as (s2 & ? & ? & _). eauto.
Qed.

Lemma add_strong_link_idempotent_witness :
  (TopologicalSort.add_strong_link example_registry 3 "A" 0 "B" ;;
   TopologicalSort.add_strong_link example_registry 3 "A" 0 "B")%py chain_state
  = TopologicalSort.add_strong_link example_registry 3 "A" 0 "B" chain_state
  ∧ ∃ s2, TopologicalSort.add_strong_link example_registry 3 "A" 1 "B" chain_state
          = Ok () s2
        ∧ blockCount s2 = blockCount chain_state.
Proof.
  destruct (add_strong_link_idempotent example_registry 3 "A" 0 "B" chain_state)
    as [Hsame Hpair].
  split; [exact Hsame|].
  apply (Hpair chain_state 1). vm_compute. reflexivity.
Defined.

(** ** ExecutionList: unfolding equations *)

Section staging.
Variable reg : gmap string ClassDef.

Lemma ux_friendly_pick_node_eq node_list s :
  ExecutionList.ux_friendly_pick_node reg node_list s
  = match stale s node_list with
    | Val true =>
        match ExecutionList._pick_largest_group s node_list with
        | Val g =>
            let s1 := set_current_group_class (Some g) s in
            match pick_in_group reg s1 node_list with
            | Val nid => Ok nid s1
            | Exc e => Raise e s1
            | NoFuel => OutOfFuel
            end
        | Exc e => Raise e s
        | NoFuel => OutOfFuel
        end
    | Val false =>
        match pick_in_group reg s node_list with
        | Val nid => Ok nid s
        | Exc e => Raise e s
        | NoFuel => OutOfFuel
        end
    | Exc e => Raise e s
    | NoFuel => OutOfFuel
    end.
Proof.
  unfold ExecutionList.ux_friendly_pick_node, pick_in_group, pick_candidate,
    bind, query, modify, ret, raise. fold (stale s node_list).
  destruct (stale s node_list) as [[]| |]; [| |done..].
  - destruct (ExecutionList._pick_largest_group s node_list) as [g| |];
      [|done..]. simpl.
    destruct (ExecutionList._filter_by_group _ _ _) as [candidates| |];
      [|done..]. simpl.
    destruct (first_r (ExecutionList.is_output reg _) _) as [[]| |];
      [done| |done..]. simpl.
    destruct (first_r (ExecutionList.blocks_output reg _) _) as [[]| |];
      [done| |done..]. simpl.
    destruct (first_r (ExecutionList.blocks_output2 reg _) _) as [[]| |];
      [done| |done..]. simpl.
    by destruct candidates.
  - simpl.
    destruct (ExecutionList._filter_by_group _ _ _) as [candidates| |];
      [|done..]. simpl.
    destruct (first_r (ExecutionList.is_output reg _) _) as [[]| |];
      [done| |done..]. simpl.
    destruct (first_r (ExecutionList.blocks_output reg _) _) as [[]| |];
      [done| |done..]. simpl.
    destruct (first_r (ExecutionList.blocks_output2 reg _) _) as [[]| |];
      [done| |done..]. simpl.
    by destruct candidates.
Qed.

Lemma stage_node_execution_eq fuel s :
  ExecutionList.stage_node_execution reg fuel s
  = match staged_node_id s with
    | Some _ => Raise AssertionError s
    | None =>
        if ExecutionList.is_empty s then Ok (None, None, None) s
        else
          match ExecutionList.get_ready_nodes s with
          | Val [] =>
              match ExecutionList.get_nodes_in_cycle s with
              | Val [] => Raise IndexError s
              | Val (first :: rest) =>
                  match ExecutionList.blame fuel s (first :: rest) first with
                  | Val blamed_node =>
                      Ok (None, Some (ExecutionList.cycle_error blamed_node),
                          Some DependencyCycleError) s
                  | Exc e => Raise e s
                  | NoFuel => OutOfFuel
                  end
              | Exc e => Raise e s
              | NoFuel => OutOfFuel
              end
          | Val available =>
              match ExecutionList.ux_friendly_pick_node reg available s with
              | Ok nid s1 =>
                  Ok (Some nid, None, None) (set_staged_node_id (Some nid) s1)
              | Raise e s1 => Raise e s1
              | OutOfFuel => OutOfFuel
              end
          | Exc e => Raise e s
          | NoFuel => OutOfFuel
          end
    end.
Proof.
  unfold ExecutionList.stage_node_execution, bind, gets, query, modify, ret,
    raise.
  destruct (staged_node_id s); [done|].
  destruct (ExecutionList.is_empty s); [done|].
  destruct (ExecutionList.get_ready_nodes s) as [[|n available]| |]; [| |done..].
  - destruct (ExecutionList.get_nodes_in_cycle s) as [[|first rest]| |];
      [done| |done..].
    by destruct (ExecutionList.blame fuel s (first :: rest) first).
  - by destruct (ExecutionList.ux_friendly_pick_node reg (n :: available) s).
Qed.

Lemma complete_node_execution_eq s :
  ExecutionList.complete_node_execution s
  = match staged_node_id s with
    | None => Raise AssertionError s
    | Some nid =>
        match ExecutionList.pop_node nid s with
        | Ok _ s1 => Ok () (set_staged_node_id None s1)
        | Raise e s1 => Raise e s1
        | OutOfFuel => OutOfFuel
        end
    end.
Proof.
  unfold ExecutionList.complete_node_execution, bind, gets, modify, raise.
  destruct (staged_node_id s); [|done].
  by destruct (ExecutionList.pop_node _ s).
Qed.

(** The pick changes the tracked group only. *)
Lemma ux_friendly_pick_node_frame node_list s :
  post (ExecutionList.ux_friendly_pick_node reg node_list s)
    (λ s', super s' = super s ∧ staged_node_id s' = staged_node_id s
           ∧ output_cache s' = output_cache s).
Proof.
  rewrite ux_friendly_pick_node_eq.
  destruct (stale s node_list) as [[]| |]; [| |done..].
  - destruct (ExecutionList._pick_largest_group s node_list); [|done..].
    simpl. by destruct (pick_in_group _ _ _).
  - by destruct (pick_in_group _ _ _).
Qed.

Lemma inherited_frame {A} (m : M TopologicalSort A) s :
  post (inherited m s)
    (λ s', staged_node_id s' = staged_node_id s
           ∧ _current_group_class s' = _current_group_class s
           ∧ output_cache s' = output_cache s).
Proof. unfold inherited. by destruct (m (super s)). Qed.

(** After a call the slot is as the driver believes it to be. *)
Lemma stage_slot fuel s r s' :
  staged_node_id s = None →
  ExecutionList.stage_node_execution reg fuel s = Ok r s' →
  staged_node_id s' = r.1.1.
Proof.
  intros Hs. rewrite stage_node_execution_eq, Hs.
  destruct (ExecutionList.is_empty s); [by intros [= <- <-]|].
  destruct (ExecutionList.get_ready_nodes s) as [[|n available]| |]; [| |done..].
  - destruct (ExecutionList.get_nodes_in_cycle s) as [[|first rest]| |];
      [done| |done..].
    destruct (ExecutionList.blame fuel s (first :: rest) first); [|done..].
    by intros [= <- <-].
  - destruct (ExecutionList.ux_friendly_pick_node reg (n :: available) s);
      [|done..].
    by intros [= <- <-].
Qed.

Lemma complete_slot s s' :
  ExecutionList.complete_node_execution s = Ok () s' → staged_node_id s' = None.
Proof.
  rewrite complete_node_execution_eq. destruct (staged_node_id s); [|done].
  destruct (ExecutionList.pop_node _ s); [|done..]. by intros [= <-].
Qed.
End staging.

(** ** Group selection (C1) *)

Lemma first_r_elem {A} (p : A → result bool) l x :
  first_r p l = Val (Some x) → x ∈ l.
Proof.
  induction l as [|y l IH]; simpl; [done|].
  destruct (p y) as [[]| |]; simpl; [|by right; auto|done..].
  intros [= ->]. left.
Qed.

Lemma filter_r_elem {A} (p : A → result bool) l : ∀ l' x,
  filter_r p l = Val l' → x ∈ l' → x ∈ l ∧ p x = Val true.
Proof.
  induction l as [|y l IH]; intros l' x; simpl.
  - intros [= <-] ?%elem_of_nil. done.
  - destruct (p y) as [b| |] eqn:Hy; simpl; [|done..].
    destruct (filter_r p l) as [rest| |]; simpl; [|done..].
    intros [= <-] Hx. destruct b.
    + apply elem_of_cons in Hx as [->|Hx]; [split; [left|done]|].
      destruct (IH rest x eq_refl Hx). split; [by right|done].
    + destruct (IH rest x eq_refl Hx). split; [by right|done].
Qed.

Lemma pick_candidate_elem reg self candidates nid :
  pick_candidate reg self candidates = Val nid → nid ∈ candidates.
Proof.
  unfold pick_candidate.
  destruct (first_r (ExecutionList.is_output reg self) candidates)
    as [[x|]| |] eqn:H1; simpl; [|idtac|done..].
  { intros [= <-]. by eapply first_r_elem. }
  destruct (first_r (ExecutionList.blocks_output reg self) candidates)
    as [[x|]| |] eqn:H2; simpl; [|idtac|done..].
  { intros [= <-]. by eapply first_r_elem. }
  destruct (first_r (ExecutionList.blocks_output2 reg self) candidates)
    as [[x|]| |] eqn:H3; simpl; [|idtac|done..].
  { intros [= <-]. by eapply first_r_elem. }
  destruct candidates; [done|]. intros [= <-]. left.
Qed.

(** The node picked is a node of the list, of the tracked group. *)
Lemma pick_in_group_class reg self node_list nid :
  pick_in_group reg self node_list = Val nid →
  nid ∈ node_list
  ∧ ∃ g, _current_group_class self = Some g
       ∧ ExecutionList.class_of self nid = Val g.
Proof.
  unfold pick_in_group, ExecutionList._filter_by_group.
  destruct (filter_r _ node_list) as [candidates| |] eqn:Hf; simpl; [|done..].
  intros Hin%pick_candidate_elem.
  destruct (filter_r_elem _ _ _ _ Hf Hin) as [? Hp]. split; [done|].
  destruct (ExecutionList.class_of self nid) as [c| |]; simpl in Hp; [|done..].
  injection Hp as Hp%bool_decide_eq_true. eauto.
Qed.

(** C1, as the code has it.  On a non-empty list of known nodes
    [_pick_largest_group] returns a class of the list that has the most
    representatives, and among the classes with as many representatives the
    one whose name is lexicographically greatest.  When the tracked group is
    selected again (the first call, or no node of the list in the tracked
    group), [ux_friendly_pick_node] tracks that class, and the node it returns
    is a node of the list of that class. *)
Theorem pick_largest_group_greatest_name reg
    (self : ExecutionList) (node_list : list node_id) :
  node_list ≠ [] →
  (∀ nid, nid ∈ node_list →
     DynamicPrompt.has_node (dynprompt (super self)) nid = true) →
  ∃ g, ExecutionList._pick_largest_group self node_list = Val g
    ∧ 0 < representatives self g node_list
    ∧ (∀ c, representatives self c node_list ≤ representatives self g node_list
          ∧ (representatives self c node_list = representatives self g node_list →
             String.le c g))
    ∧ (stale self node_list = Val true →
       post (ExecutionList.ux_friendly_pick_node reg node_list self)
         (λ self', _current_group_class self' = Some g)
       ∧ ∀ nid self',
           ExecutionList.ux_friendly_pick_node reg node_list self = Ok nid self' →
           nid ∈ node_list ∧ ExecutionList.class_of self nid = Val g).
Proof.
  intros Hne Hknown.
  destruct (count_classes_spec self node_list []) as (counts & Hrun & Hwf & Hval & Hdom).
  { apply NoDup_nil_2. }
  { intros nid Hnid. by apply class_of_known, Hknown. }
  assert (Hcount : ∀ c v, (c, v) ∈ counts →
            v = representatives self c node_list ∧ 0 < v).
  { intros c v Hin%(dict_elem_get _ _ _ Hwf).
    pose proof (Hval c) as Hc. rewrite Hin in Hc. simpl in Hc.
    split; [lia|]. pose proof (proj1 (Hdom c)) as [[? [=]]|?]; [by eauto|lia]. }
  assert (∃ g, ExecutionList._pick_largest_group self node_list = Val g
    ∧ 0 < representatives self g node_list
    ∧ (∀ c, representatives self c node_list ≤ representatives self g node_list
          ∧ (representatives self c node_list = representatives self g node_list →
             String.le c g))) as (g & Hg & Hpos & Hmost).
  { unfold ExecutionList._pick_largest_group. rewrite Hrun. simpl.
    destruct counts as [|kv items] eqn:Hcounts.
    { exfalso. destruct node_list as [|nid l]; [done|].
      destruct (class_of_known self nid) as [c Hc]; [apply Hknown; left|].
      destruct (proj2 (Hdom c)) as [? [=]]. right.
      rewrite representatives_cons, decide_True by done.
      pose proof (representatives_nonneg self c l). lia. }
    simpl. destruct (max_from_spec items kv) as [Hin Hmax].
    destruct (max_from kv items) as [g n] eqn:Hg. simpl.
    destruct (Hcount g n Hin) as [-> Hpos].
    exists g. split_and!; [done..|]. intros c.
    destruct (decide (0 < representatives self c node_list)) as [Hc|Hc].
    - destruct (proj2 (Hdom c)) as [v Hv]; [by right|].
      apply dict_get_Some_elem in Hv.
      destruct (Hcount c v Hv) as [-> _].
      destruct (Hmax _ Hv) as [?|[? ?]]; simpl in *; split; (lia || done).
    - split; lia. }
  exists g. split_and!; [done..|].
  intros Hstale. rewrite ux_friendly_pick_node_eq, Hstale, Hg. simpl.
  destruct (pick_in_group reg _ node_list) as [nid| |] eqn:Hpick; simpl;
    [|done..].
  split; [done|]. intros nid' self' [= <- <-].
  destruct (pick_in_group_class _ _ _ _ Hpick) as [? (g' & Hg' & Hclass)].
  simpl in Hg'. injection Hg' as <-. done.
Qed.

Lemma pick_largest_group_greatest_name_witness :
  ∃ g, ExecutionList._pick_largest_group tie_example ["a"; "b"] = Val g
    ∧ 0 < representatives tie_example g ["a"; "b"]
    ∧ (∀ c, representatives tie_example c ["a"; "b"]
            ≤ representatives tie_example g ["a"; "b"]
          ∧ (representatives tie_example c ["a"; "b"]
             = representatives tie_example g ["a"; "b"] → String.le c g))
    ∧ (stale tie_example ["a"; "b"] = Val true →
       post (ExecutionList.ux_friendly_pick_node tie_registry ["a"; "b"]
               tie_example)
         (λ self', _current_group_class self' = Some g)
       ∧ ∀ nid self',
           ExecutionList.ux_friendly_pick_node tie_registry ["a"; "b"]
             tie_example = Ok nid self' →
           nid ∈ ["a"; "b"] ∧ ExecutionList.class_of tie_example nid = Val g).
Proof.
  apply (pick_largest_group_greatest_name tie_registry tie_example ["a"; "b"]).
  - discriminate.
  - intros nid Hnid. repeat (apply elem_of_cons in Hnid as [->|Hnid]);
      [vm_compute; reflexivity..|]. by apply elem_of_nil in Hnid.
Defined.

(** C1, as the specification words it, fails: with one node of class A and
    one of class B the counts tie and the group picked is B, the greater
    name; the first node staged is the one of class B. *)
Lemma pick_largest_group_not_smallest_name :
  representatives tie_example "A" ["a"; "b"]
  = representatives tie_example "B" ["a"; "b"]
  ∧ String.ltb "A" "B" = true
  ∧ ExecutionList._pick_largest_group tie_example ["a"; "b"] = Val "B"
  ∧ ExecutionList._pick_largest_group tie_example ["a"; "b"] ≠ Val "A"
  ∧ ExecutionList.get_ready_nodes tie_example = Val ["a"; "b"]
  ∧ ExecutionList.stage_node_execution tie_registry 0 tie_example
    = Ok (Some "b", None, None)
        (set_staged_node_id (Some "b")
           (set_current_group_class (Some "B") tie_example)).
Proof. vm_compute. split_and!; (reflexivity || discriminate). Qed.

(** ** Staging exclusivity (C8) *)

(** C8.  [stage_node_execution] faults on its assertion whenever a node is
    staged, [complete_node_execution] whenever none is; and along a run in
    which the driver alternates (it stages only when it holds no node and
    completes or unstages only a node it was handed) every assertion holds
    when it is met: the slot, which holds one node at most, is filled exactly
    when the driver holds a node. *)
Theorem staging_exclusive reg :
  (∀ fuel s, staged_node_id s ≠ None →
     ExecutionList.stage_node_execution reg fuel s = Raise AssertionError s)
  ∧ (∀ s, staged_node_id s = None →
       ExecutionList.complete_node_execution s = Raise AssertionError s)
  ∧ (∀ cs holding s,
       (holding = true ↔ staged_node_id s ≠ None) →
       alternates reg holding cs s → assertions_hold reg cs s).
Proof.
  split_and!.
  - intros fuel s Hs. rewrite stage_node_execution_eq.
    by destruct (staged_node_id s).
  - intros s Hs. by rewrite complete_node_execution_eq, Hs.
  - induction cs as [|c cs IH]; intros holding s Hh Halt; [done|].
    assert (Hgraph : ∀ (m : M TopologicalSort ()),
      match inherited m s with
      | Ok _ s' => alternates reg holding cs s'
      | _ => True
      end →
      match inherited m s with
      | Ok _ s' => assertions_hold reg cs s'
      | _ => True
      end).
    { intros m Hm. pose proof (inherited_frame m s) as Hframe.
      destruct (inherited m s) as [[] s'|e s'|]; [|done..].
      destruct Hframe as (Hslot & _). apply (IH holding); [|done].
      by rewrite Hslot. }
    destruct c as [fuel| | |c|fuel to_node_id to_input]; simpl in *.
    + destruct Halt as [-> Halt].
      assert (Hs : staged_node_id s = None).
      { destruct (staged_node_id s); [|done].
        by assert (false = true) by (by apply Hh). }
      split; [done|]. unfold bind.
      destruct (ExecutionList.stage_node_execution reg fuel s)
        as [r s'|e s'|] eqn:Hstage; [|done..].
      apply (IH (bool_decide (is_Some r.1.1))); [|done].
      rewrite (stage_slot reg fuel s r s' Hs Hstage).
      rewrite bool_decide_eq_true. destruct (r.1.1); split; try done.
    + destruct Halt as [-> Halt]. split; [done|].
      apply (IH false); [|done]. simpl. split; [done|]. by intros [].
    + destruct Halt as [-> Halt]. split; [by apply Hh|].
      destruct (ExecutionList.complete_node_execution s)
        as [[] s'|e s'|] eqn:Hcomplete; [|done..].
      apply (IH false); [|done].
      rewrite (complete_slot s s' Hcomplete). split; [done|]. by intros [].
    + split; [done|]. by apply Hgraph.
    + split; [done|]. by apply Hgraph.
Qed.

Lemma staging_exclusive_witness :
  ExecutionList.stage_node_execution example_registry 0
    (set_staged_node_id (Some "A") chain_list)
  = Raise AssertionError (set_staged_node_id (Some "A") chain_list)
  ∧ ExecutionList.complete_node_execution chain_list
    = Raise AssertionError chain_list
  ∧ assertions_hold example_registry
      [drive_stage 0; drive_unstage; drive_stage 0; drive_complete;
       drive_stage 0; drive_complete; drive_stage 0]
      chain_list.
Proof.
  destruct (staging_exclusive example_registry) as (Hstage & Hcomplete & Hrun).
  split_and!.
  - by apply Hstage.
  - by apply Hcomplete.
  - apply (Hrun _ false).
    + split; [done|]. by intros [].
    + vm_compute. tauto.
Defined.

(** ** Unstaging (C7) *)

Lemma count_classes_known self l : ∀ counts counts',
  ExecutionList.count_classes self l counts = Val counts' →
  ∀ nid, nid ∈ l → ∃ c, ExecutionList.class_of self nid = Val c.
Proof.
  induction l as [|n l IH]; intros counts counts'; simpl.
  - by intros _ nid ?%elem_of_nil.
  - destruct (ExecutionList.class_of self n) as [c| |] eqn:Hc; [|done..].
    simpl. intros Hrun nid [->|Hin]%elem_of_cons; [eauto|].
    by eapply IH.
Qed.

Lemma representatives_pos self c l :
  0 < representatives self c l →
  ∃ nid, nid ∈ l ∧ ExecutionList.class_of self nid = Val c.
Proof.
  unfold representatives. intros Hpos.
  destruct (filter _ l) as [|nid rest] eqn:Hf; [simpl in Hpos; lia|].
  assert (nid ∈ filter (λ nid, ExecutionList.class_of self nid = Val c) l)
    as [? ?]%list_elem_of_filter by (rewrite Hf; left).
  eauto.
Qed.

Lemma any_r_true {A} (p : A → result bool) l :
  (∀ x, x ∈ l → ∃ b, p x = Val b) → (∃ x, x ∈ l ∧ p x = Val true) →
  any_r p l = Val true.
Proof.
  induction l as [|y l IH]; intros Hall (x & Hin & Hx); simpl.
  - by apply elem_of_nil in Hin.
  - destruct (Hall y) as [[] Hy]; [left|by rewrite Hy|]. rewrite Hy. simpl.
    apply IH; [intros; apply Hall; by right|].
    apply elem_of_cons in Hin as [->|Hin]; [congruence|eauto].
Qed.

(** The group that [_pick_largest_group] returns has a node in the list. *)
Lemma pick_largest_group_member self l g :
  ExecutionList._pick_largest_group self l = Val g →
  any_r (λ nid, ctype <-? ExecutionList.class_of self nid ;;
                Val (bool_decide (ctype = g))) l
  = Val true.
Proof.
  unfold ExecutionList._pick_largest_group.
  destruct (ExecutionList.count_classes self l []) as [counts| |] eqn:Hrun;
    [|done..].
  pose proof (count_classes_known _ _ _ _ Hrun) as Hknown.
  destruct (count_classes_spec self l [] (NoDup_nil_2 (A:=string)) Hknown)
    as (counts' & Hrun' & Hwf & Hval & Hdom).
  rewrite Hrun in Hrun'. injection Hrun' as <-. simpl.
  destruct counts as [|kv items]; [done|]. simpl. intros [= <-].
  destruct (max_from_spec items kv) as [Hin _].
  destruct (max_from kv items) as [g n]. simpl.
  apply (dict_elem_get _ _ _ Hwf) in Hin.
  destruct (proj1 (Hdom g)) as [[? [=]]|Hpos]; [by eauto|].
  destruct (representatives_pos _ _ _ Hpos) as (nid & Hnid & Hc).
  apply any_r_true.
  - intros x [c Hx]%Hknown. rewrite Hx. simpl. eauto.
  - exists nid. split; [done|]. rewrite Hc. simpl.
    by rewrite bool_decide_eq_true_2.
Qed.

(** Picking again in the state that a pick left picks the same node. *)
Lemma ux_friendly_pick_node_again reg node_list s nid s' :
  ExecutionList.ux_friendly_pick_node reg node_list s = Ok nid s' →
  ExecutionList.ux_friendly_pick_node reg node_list s' = Ok nid s'.
Proof.
  intros Hpick. pose proof Hpick as Hpick'.
  rewrite ux_friendly_pick_node_eq in Hpick.
  destruct (stale s node_list) as [[]| |] eqn:Hstale; [| |done..].
  - destruct (ExecutionList._pick_largest_group s node_list) as [g| |] eqn:Hg;
      [|done..].
    simpl in Hpick.
    destruct (pick_in_group reg _ node_list) as [nid'| |] eqn:Hin; [|done..].
    injection Hpick as -> <-.
    rewrite ux_friendly_pick_node_eq. unfold stale at 1. simpl.
    change (any_r _ node_list)
      with (any_r (λ nid, ctype <-? ExecutionList.class_of s nid ;;
                          Val (bool_decide (ctype = g))) node_list).
    rewrite (pick_largest_group_member s node_list g Hg). simpl.
    by rewrite Hin.
  - destruct (pick_in_group reg s node_list); [|done..].
    by injection Hpick as -> <-.
Qed.

Lemma unstage_staged s nid :
  staged_node_id s = None →
  set_staged_node_id None (set_staged_node_id (Some nid) s) = s.
Proof. destruct s. simpl. by intros ->. Qed.

Lemma unstage_unstaged s :
  staged_node_id s = None → set_staged_node_id None s = s.
Proof. destruct s. simpl. by intros ->. Qed.

(** C7.  [unstage_node_execution] clears the slot and nothing else: the
    inherited attributes ([pendingNodes], [blockCount], [blocking], the
    prompt) and the tracked group are as they were.  When
    [stage_node_execution] is called again, it returns what it returned the
    first time, the same node id, and leaves the state that the first call
    left. *)
Theorem unstage_then_stage_again reg fuel s r s1 :
  ExecutionList.stage_node_execution reg fuel s = Ok r s1 →
  ∃ s2, ExecutionList.unstage_node_execution s1 = Ok () s2
      ∧ super s2 = super s1
      ∧ _current_group_class s2 = _current_group_class s1
      ∧ output_cache s2 = output_cache s1
      ∧ staged_node_id s2 = None
      ∧ ExecutionList.stage_node_execution reg fuel s2 = Ok r s1.
Proof.
  intros Hstage. exists (set_staged_node_id None s1).
  split_and!; [done..|].
  pose proof Hstage as Hfirst.
  rewrite stage_node_execution_eq in Hstage.
  destruct (staged_node_id s) eqn:Hslot; [done|].
  destruct (ExecutionList.is_empty s) eqn:Hempty.
  { injection Hstage as <- <-. by rewrite unstage_unstaged. }
  destruct (ExecutionList.get_ready_nodes s) as [[|n available]| |] eqn:Hready;
    [| |done..].
  - destruct (ExecutionList.get_nodes_in_cycle s) as [[|first rest]| |];
      [done| |done..].
    destruct (ExecutionList.blame fuel s (first :: rest) first); [|done..].
    injection Hstage as <- <-. by rewrite unstage_unstaged.
  - destruct (ExecutionList.ux_friendly_pick_node reg (n :: available) s)
      as [nid s'|e s'|] eqn:Hpick; [|done..].
    injection Hstage as <- <-.
    pose proof (ux_friendly_pick_node_frame reg (n :: available) s) as Hframe.
    rewrite Hpick in Hframe. destruct Hframe as (Hsuper & Hslot' & _).
    rewrite unstage_staged by congruence.
    rewrite stage_node_execution_eq.
    replace (staged_node_id s') with (@None node_id) by congruence.
    unfold ExecutionList.is_empty, ExecutionList.get_ready_nodes in *.
    rewrite Hsuper, Hempty, Hready.
    by rewrite (ux_friendly_pick_node_again _ _ _ _ _ Hpick).
Qed.

Lemma unstage_then_stage_again_witness :
  ∃ s2, ExecutionList.unstage_node_execution
          (set_staged_node_id (Some "A")
             (set_current_group_class (Some "X") chain_list)) = Ok () s2
      ∧ super s2 = chain_state
      ∧ _current_group_class s2 = Some "X"
      ∧ output_cache s2 = ∅
      ∧ staged_node_id s2 = None
      ∧ ExecutionList.stage_node_execution example_registry 0 s2
        = Ok (Some "A", None, None)
            (set_staged_node_id (Some "A")
               (set_current_group_class (Some "X") chain_list)).
Proof.
  apply (unstage_then_stage_again example_registry 0 chain_list).
  vm_compute. reflexivity.
Defined.

(** ** Cycle isolation (C2) *)

(** C2 fails on the code.  With A and B on a cycle and C depending on A, no
    pending node is ready and [get_nodes_in_cycle] returns C along with A and
    B: C has no predecessor to lose, but nothing removes a node that is
    downstream of the cycle.  C lies on no cycle. *)
Theorem get_nodes_in_cycle_keeps_downstream_node :
  ExecutionList.is_empty cycle_list = false
  ∧ ExecutionList.get_ready_nodes cycle_list = Val []
  ∧ ExecutionList.get_nodes_in_cycle cycle_list = Val ["C"; "A"; "B"]
  ∧ on_cycle (super cycle_list) "A"
  ∧ on_cycle (super cycle_list) "B"
  ∧ ¬ on_cycle (super cycle_list) "C".
Proof.
  assert (HAB : blocks (super cycle_list) "A" "B").
  { split_and!; [vm_compute; right; left|vm_compute; do 2 right; left|].
    exists [("C", [(0, true)]); ("B", [(0, true)])], [(0, true)].
    split_and!; [vm_compute; done..|left]. }
  assert (HBA : blocks (super cycle_list) "B" "A").
  { split_and!; [vm_compute; do 2 right; left|vm_compute; right; left|].
    exists [("A", [(0, true)])], [(0, true)].
    split_and!; [vm_compute; done..|left]. }
  split_and!; [vm_compute; done..| | |].
  - eapply tc_l; [exact HAB|]. by apply tc_once.
  - eapply tc_l; [exact HBA|]. by apply tc_once.
  - intros Hc.
    assert (∃ n, blocks (super cycle_list) "C" n) as (n & _ & _ & Hn).
    { inversion Hc; eauto. }
    destruct Hn as (targets & sockets & Ht & Hs & _).
    vm_compute in Ht. injection Ht as <-. done.
Qed.

(** ** get_nodes_in_cycle returns *)

Lemma grows_refl bb : grows bb bb.
Proof. split; [done|]. intros n d Hd. by exists d. Qed.

Lemma grows_trans bb1 bb2 bb3 : grows bb1 bb2 → grows bb2 bb3 → grows bb1 bb3.
Proof.
  intros [Hk1 H1] [Hk2 H2]. split; [congruence|].
  intros n d Hd. destruct (H1 _ _ Hd) as (d' & Hd' & ?).
  destruct (H2 _ _ Hd') as (d'' & Hd'' & ?). exists d''. split; [done|].
  by etrans.
Qed.

Lemma record_targets_spec from targets : ∀ bb,
  (∀ kv, kv ∈ targets → kv.1 ∈ dict_keys bb) →
  ∃ bb', ExecutionList.record_targets from targets bb = Val bb'
       ∧ grows bb bb'
       ∧ ∀ n sockets, (n, sockets) ∈ targets → true ∈ dict_values sockets →
           ∃ d', dict_get n bb' = Some d' ∧ from ∈ dict_keys d'.
Proof.
  induction targets as [|[to sockets] targets IH]; intros bb Hkeys; simpl.
  - exists bb. split_and!; [done|apply grows_refl|]. by intros ? ? ?%elem_of_nil.
  - case_bool_decide as Htrue.
    + assert (is_Some (dict_get to bb)) as [b Hb].
      { apply dict_get_is_Some. apply (Hkeys (to, sockets)). left. }
      unfold item. rewrite Hb. simpl.
      assert (Hstep : grows bb (dict_set to (dict_set from true b) bb)).
      { split.
        - apply dict_keys_set_old, dict_get_is_Some. eauto.
        - intros n d Hd. rewrite dict_get_set. case_decide as Hn.
          + subst n. rewrite Hb in Hd. injection Hd as <-.
            eexists. split; [done|]. intros x Hx. apply dict_keys_set. by right.
          + by exists d. }
      destruct (IH (dict_set to (dict_set from true b) bb))
        as (bb' & Hrun & Hgrow & Hrec).
      { intros kv Hkv. rewrite (proj1 Hstep). apply Hkeys. by right. }
      exists bb'. split_and!; [done|by eapply grows_trans|].
      intros n sockets' [[= -> ->]|Hin]%elem_of_cons Hs; [|by eapply Hrec].
      destruct (proj2 Hgrow to (dict_set from true b)) as (d' & Hd' & Hsub).
      { apply dict_get_set_eq. }
      exists d'. split; [done|]. apply Hsub, dict_keys_set. by left.
    + destruct (IH bb) as (bb' & Hrun & Hgrow & Hrec).
      { intros kv Hkv. apply Hkeys. by right. }
      exists bb'. split_and!; [done..|].
      intros n sockets' [[= -> ->]|Hin]%elem_of_cons Hs; [done|by eapply Hrec].
Qed.

Lemma record_edges_spec edges : ∀ bb,
  (∀ m targets kv, (m, targets) ∈ edges → kv ∈ targets → kv.1 ∈ dict_keys bb) →
  ∃ bb', ExecutionList.record_edges edges bb = Val bb'
       ∧ grows bb bb'
       ∧ ∀ m targets n sockets,
           (m, targets) ∈ edges → (n, sockets) ∈ targets →
           true ∈ dict_values sockets →
           ∃ d', dict_get n bb' = Some d' ∧ m ∈ dict_keys d'.
Proof.
  induction edges as [|[from targets] edges IH]; intros bb Hkeys; simpl.
  - exists bb. split_and!; [done|apply grows_refl|].
    by intros ? ? ? ? ?%elem_of_nil.
  - destruct (record_targets_spec from targets bb) as (bb1 & Hrun1 & Hgrow1 & Hrec1).
    { intros kv Hkv. eapply Hkeys; [left|done]. }
    rewrite Hrun1. simpl.
    destruct (IH bb1) as (bb' & Hrun & Hgrow & Hrec).
    { intros m targets' kv Hm Hkv. rewrite (proj1 Hgrow1).
      eapply Hkeys; [by right|done]. }
    exists bb'. split_and!; [done|by eapply grows_trans|].
    intros m targets' n sockets [[= -> ->]|Hin]%elem_of_cons Hn Hs.
    + destruct (Hrec1 _ _ Hn Hs) as (d1 & Hd1 & Hfrom).
      destruct (proj2 Hgrow _ _ Hd1) as (d' & Hd' & Hsub).
      exists d'. split; [done|]. by apply Hsub.
    + by eapply Hrec.
Qed.

Lemma ready_among_nil bc ns :
  TopologicalSort.ready_among bc ns = Val [] →
  ∀ n, n ∈ ns → ∃ c, bc !! n = Some c ∧ c ≠ 0.
Proof.
  induction ns as [|x ns IH]; simpl; [by intros _ n ?%elem_of_nil|].
  unfold gitem. destruct (bc !! x) as [c|] eqn:Hc; [|done]. simpl.
  destruct (TopologicalSort.ready_among bc ns) as [rest| |]; [|done..]. simpl.
  case_decide as Hz; [done|]. intros [= ->] n [->|Hin]%elem_of_cons; [eauto|].
  by apply IH.
Qed.

Lemma to_remove_nil bb :
  (∀ n d, (n, d) ∈ bb → d ≠ []) → ExecutionList.to_remove bb = [].
Proof.
  intros Hall. unfold ExecutionList.to_remove.
  assert (filter (λ kv : node_id * dict node_id bool, length kv.2 = 0%nat) bb
          = []) as ->; [|done].
  apply length_zero_iff_nil.
  apply (proj2 (count_zero (λ kv : node_id * dict node_id bool,
                              length kv.2 = 0%nat) bb)).
  intros [n d] Hin Hlen. simpl in Hlen. apply (Hall n d Hin).
  by apply length_zero_iff_nil.
Qed.

(** When the invariant holds and no pending node is ready,
    [get_nodes_in_cycle] returns, and what it returns is not empty. *)
Lemma get_nodes_in_cycle_returns s :
  block_inv (super s) →
  ExecutionList.is_empty s = false →
  ExecutionList.get_ready_nodes s = Val [] →
  ∃ first rest, ExecutionList.get_nodes_in_cycle s = Val (first :: rest).
Proof.
  intros Hinv Hempty Hready. pose proof Hinv as [Hwf Hkeys Htargets Hcount].
  pose proof (block_inv_blocking_wf _ Hinv) as Hbwf.
  unfold ExecutionList.get_nodes_in_cycle.
  set (bb0 := (λ n, (n, [])) <$> dict_keys (pendingNodes (super s))).
  assert (Hk0 : dict_keys bb0 = dict_keys (pendingNodes (super s))).
  { unfold bb0, dict_keys. rewrite <-list_fmap_compose. apply list_fmap_id. }
  destruct (record_edges_spec (blocking (super s)) bb0)
    as (bb & Hrun & [Hkbb _] & Hrec).
  { intros m targets [n sockets] Hm Hn. rewrite Hk0. simpl.
    eapply block_inv_edge_pending; [done..|].
    apply list_elem_of_fmap. by exists (n, sockets). }
  rewrite Hrun. simpl.
  assert (Hnil : ExecutionList.to_remove bb = []).
  { apply to_remove_nil. intros n d Hin ->.
    assert (Hbbwf : dict_wf bb).
    { unfold dict_wf. by rewrite Hkbb, Hk0. }
    assert (Hn : pending (super s) n).
    { unfold pending. rewrite <-Hk0, <-Hkbb. apply list_elem_of_fmap.
      by exists (n, []). }
    destruct (ready_among_nil _ _ Hready n Hn) as (c & Hc & Hne).
    rewrite (Hcount n Hn) in Hc. injection Hc as <-.
    unfold blockers in Hne.
    destruct (filter (λ kv, n ∈ dict_keys kv.2) (blocking (super s)))
      as [|[m targets] l] eqn:Hf.
    { apply Hne. unfold count. by rewrite Hf. }
    assert ((m, targets) ∈ filter (λ kv, n ∈ dict_keys kv.2) (blocking (super s)))
      as [Hnt Hm]%list_elem_of_filter by (rewrite Hf; left).
    simpl in Hnt. apply dict_get_is_Some in Hnt as [sockets Hs].
    pose proof (dict_elem_get _ _ _ Hbwf Hm) as Hmget.
    destruct (Htargets _ _ Hmget) as [_ Hent].
    destruct (Hent _ _ Hs) as [_ Htrue].
    destruct (Hrec m targets n sockets Hm (dict_get_Some_elem _ _ _ Hs) Htrue)
      as (d' & Hd' & Hmd').
    rewrite (dict_elem_get _ _ _ Hbbwf Hin) in Hd'. injection Hd' as <-.
    by apply elem_of_nil in Hmd'. }
  assert (Hpeel : ∀ fuel, ExecutionList.peel fuel bb = Val (dict_keys bb)).
  { intros fuel. destruct fuel; simpl; by rewrite Hnil. }
  rewrite Hpeel, Hkbb, Hk0.
  unfold ExecutionList.is_empty, TopologicalSort.is_empty in Hempty.
  apply bool_decide_eq_false in Hempty.
  destruct (pendingNodes (super s)) as [|[first v] rest]; [done|].
  simpl. eauto.
Qed.

(** The [while] loop of [get_nodes_in_cycle] ends: each round removes the
    nodes of [to_remove], of which there is one at least. *)
Lemma dict_del_length {K V} `{EqDecision K} (d : list (K * V)) k :
  (length (dict_del k d) ≤ length d)%nat
  ∧ (k ∈ dict_keys d → length (dict_del k d) < length d)%nat.
Proof.
  unfold dict_keys. induction d as [|[k' v'] d [IH1 IH2]]; simpl.
  - split; [done|]. by intros ?%elem_of_nil.
  - case_decide; simpl; [split; lia|]. split; [lia|].
    intros [?|Hin]%elem_of_cons; [done|]. specialize (IH2 Hin). lia.
Qed.

Lemma dissolve_length bb n :
  (length (ExecutionList.dissolve bb n) ≤ length bb)%nat
  ∧ (n ∈ dict_keys bb → length (ExecutionList.dissolve bb n) < length bb)%nat.
Proof.
  unfold ExecutionList.dissolve.
  destruct (dict_del_length (prod_map id (dict_del n) <$> bb) n) as [H1 H2].
  rewrite length_fmap in H1, H2. split; [done|]. intros Hn. apply H2.
  unfold dict_keys in *. rewrite <-list_fmap_compose.
  erewrite list_fmap_ext; [exact Hn|]. by intros i [] _.
Qed.

Lemma peel_terminates fuel : ∀ bb,
  (length bb ≤ fuel)%nat → ExecutionList.peel fuel bb ≠ NoFuel.
Proof.
  induction fuel as [|fuel IH]; intros bb Hfuel.
  - destruct bb; [done|simpl in Hfuel; lia].
  - simpl. destruct (ExecutionList.to_remove bb) as [|n rm] eqn:Hrm; [done|].
    apply IH. simpl.
    assert (Hn : n ∈ dict_keys bb).
    { assert (n ∈ ExecutionList.to_remove bb) as Hin by (rewrite Hrm; left).
      unfold ExecutionList.to_remove, dict_keys in *.
      apply list_elem_of_fmap in Hin as (kv & -> & [_ ?]%list_elem_of_filter).
      apply list_elem_of_fmap. by exists kv. }
    destruct (dissolve_length bb n) as [_ Hlt]. specialize (Hlt Hn).
    assert (Hfold : ∀ l b, (length (foldl ExecutionList.dissolve b l)
                            ≤ length b)%nat).
    { induction l as [|x l IHl]; intros b; simpl; [done|].
      etrans; [apply IHl|]. apply dissolve_length. }
    specialize (Hfold rm (ExecutionList.dissolve bb n)). lia.
Qed.

Lemma get_nodes_in_cycle_terminates s :
  ExecutionList.get_nodes_in_cycle s ≠ NoFuel.
Proof.
  unfold ExecutionList.get_nodes_in_cycle.
  destruct (ExecutionList.record_edges _ _) as [bb| |] eqn:Hrec; simpl.
  - by apply peel_terminates.
  - done.
  - exfalso. revert Hrec. generalize ((λ n : node_id, (n, @nil (node_id * bool)))
      <$> dict_keys (pendingNodes (super s))).
    induction (blocking (super s)) as [|[from targets] edges IH]; intros bb0;
      simpl; [done|].
    destruct (ExecutionList.record_targets from targets bb0) as [bb1| |] eqn:Ht;
      simpl; [by apply IH|done|].
    intros _. revert Ht. generalize bb0.
    induction targets as [|[to sockets] targets IHt]; intros bb2; simpl; [done|].
    case_bool_decide; [|by apply IHt].
    unfold item. destruct (dict_get to bb2); simpl; [by apply IHt|done].
Qed.

(** ** The cycle report (C3) *)

Lemma blame_first_displayed fuel self pre nid post default k d :
  (∀ x, x ∈ pre → displayed self x x) →
  leads_to (ephemeral_display (dynprompt (super self))) nid k d →
  (k ≤ fuel)%nat → d ≠ nid →
  ExecutionList.blame fuel self (pre ++ nid :: post) default = Val d.
Proof.
  intros Hpre Hnid Hfuel Hne.
  induction pre as [|x pre IH]; simpl.
  - unfold DynamicPrompt.get_display_node_id.
    rewrite (follow_leads_to _ _ _ _ Hnid) by done. simpl.
    by rewrite bool_decide_eq_true_2.
  - destruct (Hpre x) as [kx Hx]; [left|].
    assert (kx = 0%nat) as ->.
    { inversion Hx as [|? ? ? ? Hmap Hrest]; [done|]. subst.
      exfalso. clear -Hmap Hrest.
      assert (∀ n j m, leads_to (ephemeral_display (dynprompt (super self))) n j m →
                ephemeral_display (dynprompt (super self)) !! m = None) as Hend.
      { induction 1; auto. }
      apply Hend in Hrest. congruence. }
    unfold DynamicPrompt.get_display_node_id.
    rewrite (follow_leads_to _ _ _ _ Hx) by lia. simpl.
    rewrite bool_decide_eq_false_2 by (by intros ?).
    apply IH. intros. apply Hpre. by right.
Qed.

Lemma blame_default fuel self cycled default :
  (∀ x, x ∈ cycled → displayed self x x) →
  ExecutionList.blame fuel self cycled default = Val default.
Proof.
  intros Hall. induction cycled as [|x cycled IH]; simpl; [done|].
  destruct (Hall x) as [kx Hx]; [left|].
  assert (kx = 0%nat) as ->.
  { inversion Hx as [|? ? ? ? Hmap Hrest]; [done|]. subst.
    exfalso. clear -Hmap Hrest.
    assert (∀ n j m, leads_to (ephemeral_display (dynprompt (super self))) n j m →
              ephemeral_display (dynprompt (super self)) !! m = None) as Hend.
    { induction 1; auto. }
    apply Hend in Hrest. congruence. }
  unfold DynamicPrompt.get_display_node_id.
  rewrite (follow_leads_to _ _ _ _ Hx) by lia. simpl.
  rewrite bool_decide_eq_false_2 by (by intros ?).
  apply IH. intros. apply Hall. by right.
Qed.

(** C3, as the code has it.  In a scheduler whose block graph was reached
    within the protocol, with the slot empty, nodes pending and none of them
    ready, [get_nodes_in_cycle] returns a list that is not empty, and
    [stage_node_execution] returns a DependencyCycleError and leaves the
    scheduler as it is.  The node blamed comes from that list: it is the
    display id of the first node of the list whose display id is not the node
    itself (a display id, not a member of the list), and the first node of
    the list when there is no such node. *)
Theorem stage_reports_cycle reg fuel s :
  reachable reg (super s) →
  staged_node_id s = None →
  ExecutionList.is_empty s = false →
  ExecutionList.get_ready_nodes s = Val [] →
  ∃ first rest,
    ExecutionList.get_nodes_in_cycle s = Val (first :: rest)
    ∧ (∀ pre nid post k d,
         first :: rest = pre ++ nid :: post →
         (∀ x, x ∈ pre → displayed s x x) →
         leads_to (ephemeral_display (dynprompt (super s))) nid k d →
         (k ≤ fuel)%nat → d ≠ nid →
         ExecutionList.stage_node_execution reg fuel s
         = Ok (None, Some (ExecutionList.cycle_error d),
               Some DependencyCycleError) s)
    ∧ ((∀ x, x ∈ first :: rest → displayed s x x) →
       ExecutionList.stage_node_execution reg fuel s
       = Ok (None, Some (ExecutionList.cycle_error first),
             Some DependencyCycleError) s).
Proof.
  intros Hinv%reachable_block_inv Hslot Hempty Hready.
  destruct (get_nodes_in_cycle_returns s Hinv Hempty Hready)
    as (first & rest & Hcycle).
  exists first, rest. split; [done|].
  rewrite stage_node_execution_eq, Hslot, Hempty, Hready, Hcycle. split.
  - intros pre nid post k d -> Hpre Hnid Hfuel Hne.
    by rewrite (blame_first_displayed fuel s pre nid post first k d).
  - intros Hall. by rewrite blame_default.
Qed.

Lemma expanded_state_reachable :
  reachable example_registry (super expanded_list).
Proof.
  apply (reachable_call _ (TopologicalSort.__init__ expanded_prompt)
           (call_add_node 3 "E1" false None)).
  - apply reachable_init.
  - exact I.
  - vm_compute. reflexivity.
Qed.

Lemma cycle_state_reachable : reachable example_registry (super cycle_list).
Proof.
  apply (reachable_call _ (TopologicalSort.__init__ cycle_prompt)
           (call_add_node 4 "C" false None)).
  - apply reachable_init.
  - exact I.
  - vm_compute. reflexivity.
Qed.

Lemma stage_reports_cycle_witness :
  ExecutionList.stage_node_execution example_registry 1 expanded_list
  = Ok (None, Some (ExecutionList.cycle_error "P"), Some DependencyCycleError)
      expanded_list
  ∧ ExecutionList.stage_node_execution example_registry 0 cycle_list
    = Ok (None, Some (ExecutionList.cycle_error "C"), Some DependencyCycleError)
        cycle_list.
Proof.
  split.
  - destruct (stage_reports_cycle example_registry 1 expanded_list)
      as (first & rest & Hcycle & Hdisplay & _);
      [exact expanded_state_reachable|vm_compute; reflexivity..|].
    assert (first = "E1" ∧ rest = ["E2"]) as [-> ->].
    { vm_compute in Hcycle. by injection Hcycle as <- <-. }
    apply (Hdisplay [] "E1" ["E2"] 1%nat "P"); [reflexivity| | |lia|discriminate].
    + intros x Hx. by apply elem_of_nil in Hx.
    + eapply leads_step; [vm_compute; reflexivity|].
      apply leads_here. vm_compute; reflexivity.
  - destruct (stage_reports_cycle example_registry 0 cycle_list)
      as (first & rest & Hcycle & _ & Hdefault);
      [exact cycle_state_reachable|vm_compute; reflexivity..|].
    assert (first = "C" ∧ rest = ["A"; "B"]) as [-> ->].
    { vm_compute in Hcycle. by injection Hcycle as <- <-. }
    apply Hdefault. intros x Hx. exists 0%nat. apply leads_here.
    repeat (apply elem_of_cons in Hx as [->|Hx]); [vm_compute; reflexivity..|].
    by apply elem_of_nil in Hx.
Defined.

(** C3 fails as worded: the node blamed need not be on the cycle.  E1 and
    E2, the only pending nodes, depend on each other; the node blamed is P,
    their display id, which is not pending and on no cycle. *)
Lemma blamed_node_not_on_cycle :
  ExecutionList.get_nodes_in_cycle expanded_list = Val ["E1"; "E2"]
  ∧ ExecutionList.stage_node_execution example_registry 1 expanded_list
    = Ok (None, Some (ExecutionList.cycle_error "P"), Some DependencyCycleError)
        expanded_list
  ∧ ("P" ∉ ["E1"; "E2"])
  ∧ ¬ pending (super expanded_list) "P"
  ∧ ¬ on_cycle (super expanded_list) "P".
Proof.
  assert (HP : ¬ pending (super expanded_list) "P").
  { vm_compute. intros Hin.
    repeat (apply elem_of_cons in Hin as [[=]|Hin]). by apply elem_of_nil in Hin. }
  split_and!; [vm_compute; reflexivity..| |done|].
  - intros Hin.
    repeat (apply elem_of_cons in Hin as [[=]|Hin]). by apply elem_of_nil in Hin.
  - intros Hc. apply HP. inversion Hc as [? ? [? _]|? ? ? [? _]]; done.
Qed.

(** ** The result cache (C4) *)

(** C4 fails on the code.  [ExecutionList] keeps the result cache and never
    asks it: [is_cached] is the method of [TopologicalSort], which answers
    False.  With A in the cache, [add_node("B")] makes A pending, and so does
    [add_strong_link("A", 0, "B")]. *)
Theorem cached_node_is_scheduled :
  (∀ self n, ExecutionList.is_cached self n = false)
  ∧ "A" ∈ output_cache cached_list
  ∧ (∃ s, ExecutionList.add_node example_registry 3 "B" false None cached_list
          = Ok () s
        ∧ pending (super s) "A"
        ∧ output_cache s = {[ "A" ]})
  ∧ (∃ s, ExecutionList.add_strong_link example_registry 3 "A" 0 "B"
            (set_super
               (TopologicalSort.mark_pending "B" (super cached_list))
               cached_list)
          = Ok () s
        ∧ pending (super s) "A").
Proof.
  split_and!.
  - done.
  - unfold cached_list. simpl. set_solver.
  - eexists. split_and!; [vm_compute; reflexivity| |done].
    vm_compute. right. left.
  - eexists. split; [vm_compute; reflexivity|].
    vm_compute. right. left.
Qed.

(** ** add_node returns *)

Lemma get_node_nodes_of dp u node :
  DynamicPrompt.get_node dp u = Val node ↔ nodes_of dp !! u = Some node.
Proof.
  unfold DynamicPrompt.get_node, nodes_of. rewrite lookup_union.
  destruct (ephemeral_prompt dp !! u), (original_prompt dp !! u); simpl;
    split; intros [=]; by subst.
Qed.

Lemma sum_list_fmap_mono {A} (f g : A → nat) l :
  (∀ x, f x ≤ g x)%nat → (sum_list (f <$> l) ≤ sum_list (g <$> l))%nat.
Proof.
  intros Hfg. induction l as [|x l IH]; csimpl; [done|].
  specialize (Hfg x). lia.
Qed.

Lemma sum_list_fmap_drop {A} (f g : A → nat) l x :
  x ∈ l → (∀ y, f y ≤ g y)%nat → f x = 0%nat →
  (sum_list (f <$> l) + g x ≤ sum_list (g <$> l))%nat.
Proof.
  intros Hin Hfg Hx. induction l as [|y l IH]; [by apply elem_of_nil in Hin|].
  csimpl. apply elem_of_cons in Hin as [<-|Hin].
  - pose proof (sum_list_fmap_mono f g l Hfg). lia.
  - specialize (IH Hin). specialize (Hfg y). lia.
Qed.

Lemma weight_mono p p' kv :
  (∀ n, n ∈ dict_keys p → n ∈ dict_keys p') →
  (weight p' kv ≤ weight p kv)%nat.
Proof.
  intros Hsub. unfold weight.
  destruct (dict_mem kv.1 p) eqn:Hp.
  - apply dict_mem_true, Hsub, dict_mem_true in Hp. by rewrite Hp.
  - destruct (dict_mem kv.1 p'); lia.
Qed.

Lemma work_mono s s' : extends s s' → (work s' ≤ work s)%nat.
Proof.
  intros [Hdp Hsub]. unfold work. rewrite Hdp.
  apply sum_list_fmap_mono. intros kv. by apply weight_mono.
Qed.

Lemma work_mark s u node :
  DynamicPrompt.get_node (dynprompt s) u = Val node →
  dict_mem u (pendingNodes s) = false →
  (work (TopologicalSort.mark_pending u s) + S (length (inputs node))
   ≤ work s)%nat.
Proof.
  intros Hnode%get_node_nodes_of Hu. unfold work. simpl.
  replace (S (length (inputs node))) with (weight (pendingNodes s) (u, node))
    by (unfold weight; simpl; by rewrite Hu).
  apply sum_list_fmap_drop.
  - by apply elem_of_map_to_list.
  - intros kv. apply weight_mono. intros n Hn. apply dict_keys_set. by right.
  - unfold weight. simpl.
    replace (dict_mem u (dict_set u true (pendingNodes s))) with true; [done|].
    symmetry. apply dict_mem_true, dict_keys_set. by left.
Qed.

Section termination.
Variable reg : gmap string ClassDef.

Lemma get_node_fuel dp u : DynamicPrompt.get_node dp u ≠ NoFuel.
Proof. unfold DynamicPrompt.get_node. by repeat case_match. Qed.

Lemma get_input_info_fuel s u name :
  TopologicalSort.get_input_info reg s u name ≠ NoFuel.
Proof.
  unfold TopologicalSort.get_input_info.
  pose proof (get_node_fuel (dynprompt s) u).
  destruct (DynamicPrompt.get_node (dynprompt s) u); [|done..]. simpl.
  unfold gitem. by destruct (reg !! _).
Qed.

Lemma scan_inputs_fuel s il sg u ins : ∀ ids links,
  TopologicalSort.scan_inputs reg s il sg u ins ids links ≠ NoFuel.
Proof.
  induction ins as [|[name value] ins IH]; intros ids links; simpl; [done|].
  destruct value as [|from sock]; [by apply IH|].
  destruct (match sg with Some _ => _ | None => _ end); [by apply IH|].
  pose proof (get_input_info_fuel s u name).
  destruct (TopologicalSort.get_input_info reg s u name); [|done..]. simpl.
  destruct (_ && _); by apply IH.
Qed.

Lemma add_node_loop_terminates il sg : ∀ fuel ids links s,
  (work s + length ids ≤ fuel)%nat →
  match TopologicalSort.add_node_loop reg fuel il sg ids links s with
  | Ok links' s' =>
      (work s' ≤ work s)%nat ∧ (links' = links ∨ (work s' < work s)%nat)
  | Raise _ _ => True
  | OutOfFuel => False
  end.
Proof.
  induction fuel as [|fuel IH]; intros ids links s Hfuel.
  - destruct ids; simpl in *; [by auto|lia].
  - destruct ids as [|u ids]; [simpl; by auto|].
    rewrite add_node_loop_step. simpl in Hfuel.
    destruct (dict_mem u (pendingNodes s)) eqn:Hu; [apply IH; lia|].
    simpl.
    destruct (DynamicPrompt.get_node (dynprompt s) u) as [node|e|] eqn:Hnode;
      [|done|by apply get_node_fuel in Hnode].
    pose proof (work_mark s u node Hnode Hu) as Hwork.
    destruct (TopologicalSort.scan_inputs _ _ _ _ _ _ _ _) as [[ids' links']|e|]
      eqn:Hscan; [|done|by apply scan_inputs_fuel in Hscan].
    apply scan_inputs_spec in Hscan as (new & -> & -> & Hlen & _). simpl.
    specialize (IH (reverse new.*1.*1 ++ ids) (links ++ new)
                  (TopologicalSort.mark_pending u s)).
    destruct (TopologicalSort.add_node_loop _ _ _ _ _ _ _) as [links' s'|e s'|];
      [|done|].
    + destruct IH as [Hle _].
      { rewrite length_app, length_reverse, !length_fmap. lia. }
      split; [lia|right; lia].
    + apply IH. rewrite length_app, length_reverse, !length_fmap. lia.
Qed.

Lemma insert_edge_terminates from sock to s :
  TopologicalSort.insert_edge from sock to s ≠ OutOfFuel.
Proof. rewrite insert_edge_eq. by repeat case_match. Qed.

(** A fuel above the work that is left is enough. *)
Lemma add_node_terminates : ∀ fuel n il sg s,
  (work s + 2 ≤ fuel)%nat →
  TopologicalSort.add_node reg fuel n il sg s ≠ OutOfFuel.
Proof.
  induction fuel as [|fuel IH]; intros n il sg s Hfuel; [lia|].
  rewrite add_node_S.
  pose proof (add_node_loop_terminates il sg (S fuel) [n] [] s) as Hloop.
  assert (Hpre : (work s + length [n] ≤ S fuel)%nat) by (simpl; lia).
  specialize (Hloop Hpre).
  destruct (TopologicalSort.add_node_loop _ _ _ _ _ _ _) as [links s1|e s1|];
    [|done..].
  destruct Hloop as [_ [->|Hless]]; [done|].
  assert (Hfuel1 : (work s1 + 2 ≤ fuel)%nat) by lia.
  clear Hless Hfuel. revert s1 Hfuel1.
  induction links as [|l links IHl]; intros s1 Hfuel1; [done|].
  rewrite for_each_cons, add_strong_link_with_eq.
  pose proof (IH l.1.1 false None s1 Hfuel1) as Hnode.
  pose proof (add_node_extends reg fuel l.1.1 false None s1) as Hext.
  destruct (TopologicalSort.add_node _ _ _ _ _ _) as [[] s2|e s2|]; [|done..].
  pose proof (insert_edge_terminates l.1.1 l.1.2 l.2 s2) as Hedge.
  pose proof (insert_edge_extends l.1.1 l.1.2 l.2 s2) as Hext2.
  destruct (TopologicalSort.insert_edge _ _ _ _) as [[] s3|e s3|]; [|done..].
  apply IHl. simpl in *.
  pose proof (work_mono _ _ Hext). pose proof (work_mono _ _ Hext2). lia.
Qed.

Lemma add_strong_link_terminates fuel from sock to s :
  (work s + 2 ≤ fuel)%nat →
  TopologicalSort.add_strong_link reg fuel from sock to s ≠ OutOfFuel.
Proof.
  intros Hfuel. unfold TopologicalSort.add_strong_link.
  rewrite add_strong_link_with_eq.
  pose proof (add_node_terminates fuel from false None s Hfuel).
  destruct (TopologicalSort.add_node _ _ _ _ _ _); [|done..].
  apply insert_edge_terminates.
Qed.
End termination.

(** ** Lazy-edge deferral (C9) *)

Section lazy.
Variable reg : gmap string ClassDef.

Lemma get_input_info_prompt s s' u name :
  dynprompt s' = dynprompt s →
  TopologicalSort.get_input_info reg s' u name
  = TopologicalSort.get_input_info reg s u name.
Proof. unfold TopologicalSort.get_input_info. by intros ->. Qed.

(** The edges that [add_node] adds without [include_lazy] are inputs that
    are not declared lazy. *)
Lemma add_node_edges_strong fuel n sg s :
  post (TopologicalSort.add_node reg fuel n false sg s)
    (λ s', ∀ m t, has_edge s' m t → has_edge s m t ∨ strong_input reg s t m).
Proof.
  eapply post_impl.
  - apply (add_node_rule reg false
             (λ s', dynprompt s' = dynprompt s
                    ∧ ∀ m t, has_edge s' m t →
                        has_edge s m t ∨ strong_input reg s t m)
             (λ l _, strong_input reg s l.2 l.1.1)); try done.
    + intros s1 u [Hdp Hedges] Hu. split; [done|].
      intros m t (targets & Ht & Hin). simpl in Ht.
      rewrite dict_get_set in Ht. case_decide.
      * injection Ht as <-. by apply elem_of_nil in Hin.
      * apply Hedges. by exists targets.
    + intros il sg' s1 u node [[from sock] to] Hil [Hdp _] Hu Hnode
        [Hto (name & info & Hin & Hinfo & Hlazy & _)].
      simpl in *. subst to. destruct il; [done|]. simpl in Hlazy.
      exists node, name, sock, info. rewrite <-Hdp.
      split_and!; [done|done| |by apply negb_true_iff].
      by rewrite <-(get_input_info_prompt s s1).
    + intros s1 [[from sock] to] [Hdp Hedges] Hstrong. simpl in *.
      rewrite insert_edge_eq.
      assert (Hset : ∀ b v m t,
        dict_get from (blocking s1) = Some b →
        has_edge (set_blocking
                    (dict_set from (dict_set to v b) (blocking s1)) s1) m t →
        has_edge s m t ∨ strong_input reg s t m).
      { intros b v m t Hb (targets & Ht & Hin). simpl in Ht.
        rewrite dict_get_set in Ht. case_decide as Hm.
        - injection Ht as <-. subst m.
          apply dict_keys_set in Hin as [->|Hin]; [by right|].
          apply Hedges. by exists b.
        - apply Hedges. by exists targets. }
      destruct (dict_get from (blocking s1)) as [b|] eqn:Hb; [|done].
      destruct (dict_get to b) as [sockets|] eqn:Hs; simpl.
      * split; [done|]. intros m t. by apply Hset.
      * destruct (blockCount s1 !! to); simpl.
        -- split; [done|]. intros m t. by apply (Hset b [(sock, true)]).
        -- split; [done|]. intros m t. by apply Hset.
    + split; [done|]. auto.
  - by intros s' [[_ ?] _].
Qed.

(** [add_node] leaves a pending node as it is: its count and the edges to
    it. *)
Lemma add_node_frame fuel n il sg s c :
  pending s c →
  post (TopologicalSort.add_node reg fuel n il sg s)
    (λ s', blockCount s' !! c = blockCount s !! c
           ∧ ∀ m, has_edge s' m c → has_edge s m c).
Proof.
  intros Hc. eapply post_impl.
  - apply (add_node_rule reg true
             (λ s', pending s' c
                    ∧ blockCount s' !! c = blockCount s !! c
                    ∧ ∀ m, has_edge s' m c → has_edge s m c)
             (λ l _, l.2 ≠ c)); try done.
    + intros s1 u (Hp & Hcount & Hedges) Hu.
      assert (u ≠ c) as Hne.
      { intros ->. by apply dict_mem_false in Hu. }
      split_and!.
      * apply dict_keys_set. by right.
      * simpl. by rewrite lookup_insert_ne.
      * intros m (targets & Ht & Hin). simpl in Ht.
        rewrite dict_get_set in Ht. case_decide.
        -- injection Ht as <-. by apply elem_of_nil in Hin.
        -- apply Hedges. by exists targets.
    + intros il' sg' s1 u node l _ (Hp & _) Hu _ [-> _].
      intros ->. by apply dict_mem_false in Hu.
    + intros s1 [[from sock] to] (Hp & Hcount & Hedges) Hne. simpl in *.
      rewrite insert_edge_eq.
      assert (Hset : ∀ b v m,
        dict_get from (blocking s1) = Some b →
        has_edge (set_blocking
                    (dict_set from (dict_set to v b) (blocking s1)) s1) m c →
        has_edge s m c).
      { intros b v m Hb (targets & Ht & Hin). simpl in Ht.
        rewrite dict_get_set in Ht. case_decide as Hm.
        - injection Ht as <-. subst m.
          apply dict_keys_set in Hin as [->|Hin]; [done|].
          apply Hedges. by exists b.
        - apply Hedges. by exists targets. }
      destruct (dict_get from (blocking s1)) as [b|] eqn:Hb; [|done].
      destruct (dict_get to b) as [sockets|] eqn:Hs; simpl.
      * split_and!; [done..|]. intros m. by apply Hset.
      * destruct (blockCount s1 !! to); simpl.
        -- split_and!; [done| |].
           ++ by rewrite lookup_insert_ne.
           ++ intros m. by apply (Hset b [(sock, true)]).
        -- split_and!; [done..|]. intros m. by apply Hset.
    + by destruct il.
  - by intros s' [(_ & ? & ?) _].
Qed.

Lemma scan_inputs_all_lazy s sg u ins : ∀ ids links,
  (∀ name from sock, (name, Link from sock) ∈ ins →
     declared_lazy reg s u name) →
  TopologicalSort.scan_inputs reg s false sg u ins ids links = Val (ids, links).
Proof.
  induction ins as [|[name value] ins IH]; intros ids links Hlazy; simpl; [done|].
  assert (Hrest : TopologicalSort.scan_inputs reg s false sg u ins ids links
                  = Val (ids, links)).
  { apply IH. intros name' from sock Hin. eapply Hlazy. by right. }
  destruct value as [|from sock]; [done|].
  destruct (match sg with Some _ => _ | None => _ end); [done|].
  destruct (Hlazy name from sock) as (info & -> & Hinfo); [left|].
  simpl. by rewrite Hinfo.
Qed.
End lazy.

(** C9.  Let the input [i] of [c] be a link to [p].
    - When every input of [c] that links to [p] is declared lazy, [add_node]
      without [include_lazy] records no edge from [p] to [c], from any state
      without one.
    - In a new scheduler, when every link of [c] is declared lazy,
      [add_node(c)] returns with [c] the only pending node and ready: [p] is
      not scheduled.
    - When [c] is pending and no edge from [p] to [c] is recorded,
      [make_input_strong_link(c, i)] returns with a fuel above the work left,
      unless it raises; when it returns, [p] is pending, the edge from [p] to
      [c] is recorded with its socket, and [blockCount[c]] is one more. *)
Theorem lazy_edge_deferred reg c node i p k :
  dict_get i (inputs node) = Some (Link p k) →
  (∀ s fuel sg,
     DynamicPrompt.get_node (dynprompt s) c = Val node →
     (∀ name sock, (name, Link p sock) ∈ inputs node →
        declared_lazy reg s c name) →
     ¬ has_edge s p c →
     post (TopologicalSort.add_node reg fuel c false sg s)
       (λ s', ¬ has_edge s' p c))
  ∧ (∀ dp fuel sg,
       DynamicPrompt.get_node dp c = Val node →
       (∀ name from sock, (name, Link from sock) ∈ inputs node →
          declared_lazy reg (TopologicalSort.__init__ dp) c name) →
       ∃ s', TopologicalSort.add_node reg (S (S fuel)) c false sg
               (TopologicalSort.__init__ dp) = Ok () s'
           ∧ dict_keys (pendingNodes s') = [c]
           ∧ TopologicalSort.get_ready_nodes s' = Val [c]
           ∧ ¬ has_edge s' p c)
  ∧ (∀ s fuel n,
       DynamicPrompt.get_node (dynprompt s) c = Val node →
       pending s c → blockCount s !! c = Some n → ¬ has_edge s p c →
       ((work s + 2 ≤ fuel)%nat →
        TopologicalSort.make_input_strong_link reg fuel c i s ≠ OutOfFuel)
       ∧ ∀ s', TopologicalSort.make_input_strong_link reg fuel c i s = Ok () s' →
           pending s' p
           ∧ (∃ targets sockets,
                dict_get p (blocking s') = Some targets
                ∧ dict_get c targets = Some sockets
                ∧ dict_get k sockets = Some true)
           ∧ blockCount s' !! c = Some (n + 1)).
Proof.
  intros Hi. split_and!.
  - intros s fuel sg Hnode Hlazy Hfree.
    eapply post_impl; [apply add_node_edges_strong|]. simpl.
    intros s' Hedges [Hold|Hstrong]%Hedges; [done|].
    destruct Hstrong as (node' & name & sock & info & Hnode' & Hin & Hinfo & Hl).
    rewrite Hnode in Hnode'. injection Hnode' as <-.
    destruct (Hlazy name sock Hin) as (info' & Hinfo' & Hl').
    rewrite Hinfo in Hinfo'. injection Hinfo' as <-. congruence.
  - intros dp fuel sg Hnode Hlazy.
    exists (TopologicalSort.mark_pending c (TopologicalSort.__init__ dp)).
    rewrite add_node_S, add_node_loop_step. simpl. rewrite Hnode.
    rewrite scan_inputs_all_lazy by done. simpl.
    split_and!; [done..| |].
    + unfold TopologicalSort.get_ready_nodes. simpl. unfold gitem.
      by rewrite lookup_insert_eq.
    + intros (targets & Ht & Hin). simpl in Ht.
      case_decide; [|done]. injection Ht as <-. by apply elem_of_nil in Hin.
  - intros s fuel n Hnode Hc Hcount Hfree.
    unfold TopologicalSort.make_input_strong_link, bind, query.
    rewrite Hnode, Hi. unfold TopologicalSort.add_strong_link. split.
    { intros Hfuel. by apply add_strong_link_terminates. }
    intros s'. rewrite add_strong_link_with_eq.
    pose proof (add_node_frame reg fuel p false None s c Hc) as Hframe.
    destruct (TopologicalSort.add_node reg fuel p false None s)
      as [[] s1|e s1|] eqn:Hadd; [|done..].
    apply add_node_pending in Hadd. destruct Hframe as [Hcount1 Hedges1].
    rewrite insert_edge_eq.
    destruct (dict_get p (blocking s1)) as [b|] eqn:Hb; [|done].
    destruct (dict_get c b) as [sockets|] eqn:Hs.
    { exfalso. apply Hfree, Hedges1. exists b. split; [done|].
      apply dict_get_is_Some. eauto. }
    rewrite Hcount1, Hcount. intros [= <-]. simpl. split_and!.
    + done.
    + exists (dict_set c [(k, true)] b), [(k, true)].
      rewrite !dict_get_set_eq. simpl. by rewrite decide_True.
    + by rewrite lookup_insert_eq.
Qed.

Lemma lazy_edge_deferred_witness :
  (∃ s', TopologicalSort.add_node example_registry 2 "consumer" false None
           (TopologicalSort.__init__ lazy_prompt) = Ok () s'
       ∧ dict_keys (pendingNodes s') = ["consumer"]
       ∧ TopologicalSort.get_ready_nodes s' = Val ["consumer"]
       ∧ ¬ has_edge s' "producer" "consumer")
  ∧ ∃ s',
      TopologicalSort.make_input_strong_link example_registry 3 "consumer" "y"
        (TopologicalSort.mark_pending "consumer"
           (TopologicalSort.__init__ lazy_prompt)) = Ok () s'
      ∧ pending s' "producer"
      ∧ (∃ targets sockets,
           dict_get "producer" (blocking s') = Some targets
           ∧ dict_get "consumer" targets = Some sockets
           ∧ dict_get 0 sockets = Some true)
      ∧ blockCount s' !! "consumer" = Some (0 + 1)
      ∧ TopologicalSort.get_ready_nodes s' = Val ["producer"].
Proof.
  destruct (lazy_edge_deferred example_registry "consumer"
              {| class_type := "X"; inputs := [("y", Link "producer" 0)] |}
              "y" "producer" 0 eq_refl) as (_ & Hnew & Hstrong).
  split.
  - apply (Hnew lazy_prompt 0%nat None); [vm_compute; reflexivity|].
    intros name from sock Hin. apply list_elem_of_singleton in Hin.
    injection Hin as -> -> ->. eexists. split; vm_compute; reflexivity.
  - assert (∃ s', TopologicalSort.make_input_strong_link example_registry 3
                    "consumer" "y"
                    (TopologicalSort.mark_pending "consumer"
                       (TopologicalSort.__init__ lazy_prompt)) = Ok () s'
                  ∧ TopologicalSort.get_ready_nodes s' = Val ["producer"])
      as (s' & Hrun & Hready).
    { eexists. split; vm_compute; reflexivity. }
    exists s'. split; [exact Hrun|].
    destruct (Hstrong (TopologicalSort.mark_pending "consumer"
                         (TopologicalSort.__init__ lazy_prompt)) 3%nat 0)
      as [_ Hafter].
    + vm_compute; reflexivity.
    + vm_compute. left.
    + vm_compute; reflexivity.
    + intros (targets & Ht & Hin). vm_compute in Ht. discriminate Ht.
    + destruct (Hafter s' Hrun) as (? & ? & ?). by split_and!.
Defined.

(** * Further properties of the code *)

(** ** DynamicPrompt *)

Lemma get_node_unknown self n :
  DynamicPrompt.has_node self n = false →
  DynamicPrompt.get_node self n = Exc (NodeNotFoundError n).
Proof.
  unfold DynamicPrompt.has_node, DynamicPrompt.get_node.
  intros [Ho He]%orb_false_iff.
  apply bool_decide_eq_false, eq_None_not_Some in Ho, He. by rewrite He, Ho.
Qed.

(** X1.  [has_node], [get_node] and [all_node_ids] agree: [get_node] returns
    a node exactly for the ids that [has_node] accepts, which are the ids of
    [all_node_ids], and raises NodeNotFoundError with the id for all others.
    An ephemeral node hides an original node of the same id. *)
Theorem get_node_agrees_with_has_node (self : DynamicPrompt) (n : node_id) :
  (DynamicPrompt.has_node self n = true
   ↔ ∃ node, DynamicPrompt.get_node self n = Val node)
  ∧ (DynamicPrompt.has_node self n = false
     ↔ DynamicPrompt.get_node self n = Exc (NodeNotFoundError n))
  ∧ (n ∈ DynamicPrompt.all_node_ids self ↔ DynamicPrompt.has_node self n = true)
  ∧ (∀ node, ephemeral_prompt self !! n = Some node →
       DynamicPrompt.get_node self n = Val node).
Proof.
  assert (Hdom : n ∈ DynamicPrompt.all_node_ids self
                 ↔ DynamicPrompt.has_node self n = true).
  { unfold DynamicPrompt.has_node, DynamicPrompt.all_node_ids.
    by rewrite elem_of_union, !elem_of_dom, orb_true_iff, !bool_decide_eq_true. }
  split_and!; [| |done|].
  - unfold DynamicPrompt.has_node, DynamicPrompt.get_node.
    destruct (ephemeral_prompt self !! n) as [e|],
      (original_prompt self !! n) as [o|]; simpl;
      rewrite ?orb_true_r;
      (split; [intros Hh; first [discriminate Hh|eauto]
              |intros [? Hg]; first [discriminate Hg|done]]).
  - unfold DynamicPrompt.has_node, DynamicPrompt.get_node.
    destruct (ephemeral_prompt self !! n) as [e|],
      (original_prompt self !! n) as [o|]; simpl;
      rewrite ?orb_true_r; by split.
  - unfold DynamicPrompt.get_node. by intros node ->.
Qed.

Lemma get_node_agrees_with_has_node_witness :
  DynamicPrompt.has_node self_parent_example "E" = true
  ∧ DynamicPrompt.get_node self_parent_example "E"
    = Val {| class_type := "X"; inputs := [] |}
  ∧ DynamicPrompt.get_node self_parent_example "F"
    = Exc (NodeNotFoundError "F").
Proof.
  destruct (get_node_agrees_with_has_node self_parent_example "E")
    as (_ & _ & Hall & Heph).
  destruct (get_node_agrees_with_has_node self_parent_example "F")
    as (_ & Hnone & _).
  split_and!.
  - apply Hall. vm_compute. reflexivity.
  - apply Heph. vm_compute. reflexivity.
  - apply Hnone. vm_compute. reflexivity.
Defined.

(** X2.  After [add_ephemeral_node(n, info, parent, display)] the node [n]
    is found with [info] (a node of that id, original or ephemeral, is
    hidden), its parent is [parent], and [n] is among [all_node_ids]; the
    original prompt and every other id are as before. *)
Theorem add_ephemeral_node_lookup (self : DynamicPrompt)
    (n : node_id) (info : Node) (parent display : node_id) :
  let self' := DynamicPrompt.add_ephemeral_node self n info parent display in
  DynamicPrompt.get_node self' n = Val info
  ∧ DynamicPrompt.has_node self' n = true
  ∧ DynamicPrompt.get_parent_node_id self' n = Some parent
  ∧ DynamicPrompt.all_node_ids self' = {[ n ]} ∪ DynamicPrompt.all_node_ids self
  ∧ DynamicPrompt.get_original_prompt self'
    = DynamicPrompt.get_original_prompt self
  ∧ ∀ m, m ≠ n →
      DynamicPrompt.get_node self' m = DynamicPrompt.get_node self m
      ∧ DynamicPrompt.has_node self' m = DynamicPrompt.has_node self m
      ∧ DynamicPrompt.get_parent_node_id self' m
        = DynamicPrompt.get_parent_node_id self m.
Proof.
  unfold DynamicPrompt.get_node, DynamicPrompt.has_node,
    DynamicPrompt.get_parent_node_id, DynamicPrompt.all_node_ids,
    DynamicPrompt.get_original_prompt. simpl. split_and!.
  - by rewrite lookup_insert_eq.
  - rewrite lookup_insert_eq. apply orb_true_iff. right.
    apply bool_decide_eq_true. eauto.
  - by rewrite lookup_insert_eq.
  - rewrite dom_insert_L. set_solver.
  - done.
  - intros m Hm. by rewrite !lookup_insert_ne.
Qed.

Lemma add_ephemeral_node_lookup_witness :
  DynamicPrompt.get_node self_parent_example "E"
  = Val {| class_type := "X"; inputs := [] |}
  ∧ DynamicPrompt.get_node self_parent_example "F"
    = DynamicPrompt.get_node (DynamicPrompt.__init__ ∅) "F".
Proof.
  pose proof (add_ephemeral_node_lookup (DynamicPrompt.__init__ ∅) "E"
                {| class_type := "X"; inputs := [] |} "E" "E") as H.
  cbv zeta in H. destruct H as (Hn & _ & _ & _ & _ & Hother).
  split; [exact Hn|]. by destruct (Hother "F").
Defined.

Lemma leads_to_end table n k last :
  leads_to table n k last → table !! last = None.
Proof. induction 1; auto. Qed.

Lemma steps_mapped table n k m :
  steps table n (S k) m → is_Some (table !! n).
Proof. inversion 1; eauto. Qed.

Lemma steps_snoc table n k m m' :
  steps table n k m → table !! m = Some m' → steps table n (S k) m'.
Proof.
  induction 1 as [n|n n' k m Hn _ IH]; intros Hm.
  - econstructor; [done|constructor].
  - econstructor; [done|auto].
Qed.

Lemma follow_on_cycle table : ∀ fuel n k,
  steps table n (S k) n → DynamicPrompt.follow fuel table n = NoFuel.
Proof.
  induction fuel as [|fuel IH]; intros n k Hn; simpl.
  - by rewrite bool_decide_eq_true_2 by (by eapply steps_mapped).
  - rewrite bool_decide_eq_true_2 by (by eapply steps_mapped).
    inversion Hn as [|? n' ? ? Hmap Hrest]; subst. rewrite Hmap.
    apply (IH n' k). by eapply steps_snoc.
Qed.

(** X3.  Where [get_real_node_id] returns, the id returned has no parent
    recorded, resolving it again returns it unchanged, and more fuel returns
    the same id; a node resolves to what its parent resolves to.  A chain
    that comes back to the node it started from is followed forever: no fuel
    is enough, whatever its length.  The same holds of
    [get_display_node_id]. *)
Theorem ancestry_resolution (self : DynamicPrompt) (n : node_id) :
  (∀ fuel r, DynamicPrompt.get_real_node_id fuel self n = Val r →
     DynamicPrompt.get_parent_node_id self r = None
     ∧ (∀ fuel', DynamicPrompt.get_real_node_id fuel' self r = Val r)
     ∧ (∀ fuel', (fuel ≤ fuel')%nat →
          DynamicPrompt.get_real_node_id fuel' self n = Val r))
  ∧ (∀ fuel p, DynamicPrompt.get_parent_node_id self n = Some p →
       DynamicPrompt.get_real_node_id (S fuel) self n
       = DynamicPrompt.get_real_node_id fuel self p)
  ∧ (∀ k fuel, steps (ephemeral_parents self) n (S k) n →
       DynamicPrompt.get_real_node_id fuel self n = NoFuel)
  ∧ (∀ fuel r, DynamicPrompt.get_display_node_id fuel self n = Val r →
       ephemeral_display self !! r = None
       ∧ (∀ fuel', DynamicPrompt.get_display_node_id fuel' self r = Val r)
       ∧ (∀ fuel', (fuel ≤ fuel')%nat →
            DynamicPrompt.get_display_node_id fuel' self n = Val r))
  ∧ (∀ k fuel, steps (ephemeral_display self) n (S k) n →
       DynamicPrompt.get_display_node_id fuel self n = NoFuel).
Proof.
  unfold DynamicPrompt.get_real_node_id, DynamicPrompt.get_display_node_id,
    DynamicPrompt.get_parent_node_id.
  assert (Hval : ∀ table fuel r, DynamicPrompt.follow fuel table n = Val r →
    table !! r = None
    ∧ (∀ fuel', DynamicPrompt.follow fuel' table r = Val r)
    ∧ (∀ fuel', (fuel ≤ fuel')%nat → DynamicPrompt.follow fuel' table n = Val r)).
  { intros table fuel r (k & Hk & Hl)%follow_Val.
    pose proof (leads_to_end _ _ _ _ Hl) as Hend. split_and!; [done| |].
    - intros fuel'. apply (follow_leads_to table r 0 r); [by constructor|lia].
    - intros fuel' Hle. apply (follow_leads_to table n k r); [done|lia]. }
  split_and!.
  - apply Hval.
  - intros fuel p Hp. simpl.
    rewrite bool_decide_eq_true_2 by (rewrite Hp; eauto). by rewrite Hp.
  - intros k fuel Hn. by eapply follow_on_cycle.
  - apply Hval.
  - intros k fuel Hn. by eapply follow_on_cycle.
Qed.

Lemma ancestry_resolution_witness :
  DynamicPrompt.get_parent_node_id ancestry_example "P" = None
  ∧ DynamicPrompt.get_real_node_id 5 ancestry_example "E2" = Val "P"
  ∧ DynamicPrompt.get_real_node_id 3 ancestry_example "E2"
    = DynamicPrompt.get_real_node_id 2 ancestry_example "E1"
  ∧ DynamicPrompt.get_real_node_id 100 self_parent_example "E" = NoFuel
  ∧ DynamicPrompt.get_display_node_id 100 self_parent_example "E" = NoFuel.
Proof.
  destruct (ancestry_resolution ancestry_example "E2")
    as (Hreal & Hparent & _).
  destruct (ancestry_resolution self_parent_example "E")
    as (_ & _ & Hloop & _ & Hloop').
  destruct (Hreal 2%nat "P") as (Hend & _ & Hmore); [vm_compute; reflexivity|].
  split_and!.
  - exact Hend.
  - apply Hmore. lia.
  - apply Hparent. vm_compute; reflexivity.
  - apply (Hloop 0%nat). econstructor; [vm_compute; reflexivity|constructor].
  - apply (Hloop' 0%nat). econstructor; [vm_compute; reflexivity|constructor].
Defined.

(** ** get_input_info *)



(** ** TopologicalSort: add_node *)

(** X5.  [add_node] of an id that is not in the prompt raises
    NodeNotFoundError, but only after it has recorded the id: the unknown id
    is left pending with [blockCount] zero and no edges, so that
    [get_ready_nodes] lists it from then on. *)
Theorem add_node_unknown_stays_pending reg fuel n il sg s :
  dict_mem n (pendingNodes s) = false →
  DynamicPrompt.has_node (dynprompt s) n = false →
  TopologicalSort.add_node reg (S fuel) n il sg s
  = Raise (NodeNotFoundError n) (TopologicalSort.mark_pending n s)
  ∧ pending (TopologicalSort.mark_pending n s) n
  ∧ ready (TopologicalSort.mark_pending n s) n
  ∧ dict_get n (blocking (TopologicalSort.mark_pending n s)) = Some [].
Proof.
  intros Hn Hunknown.
  apply get_node_unknown in Hunknown.
  assert (Hp : pending (TopologicalSort.mark_pending n s) n).
  { apply dict_keys_set. by left. }
  split_and!; [|done|split; [done|]|].
  - by rewrite add_node_S, add_node_loop_step, Hn, Hunknown.
  - simpl. apply lookup_insert_eq.
  - simpl. apply dict_get_set_eq.
Qed.

Lemma add_node_unknown_stays_pending_witness :
  TopologicalSort.add_node example_registry 1 "ghost" false None chain_state
  = Raise (NodeNotFoundError "ghost")
      (TopologicalSort.mark_pending "ghost" chain_state)
  ∧ TopologicalSort.get_ready_nodes
      (TopologicalSort.mark_pending "ghost" chain_state)
    = Val ["A"; "ghost"].
Proof.
  destruct (add_node_unknown_stays_pending example_registry 0 "ghost" false None
              chain_state) as (Hraise & _); [vm_compute; reflexivity..|].
  split; [exact Hraise|vm_compute; reflexivity].
Defined.

Section fuel_monotone.
Variable reg : gmap string ClassDef.

Lemma add_node_loop_fuel_mono il sg : ∀ fuel ids links s,
  TopologicalSort.add_node_loop reg fuel il sg ids links s ≠ OutOfFuel →
  ∀ fuel', (fuel ≤ fuel')%nat →
    TopologicalSort.add_node_loop reg fuel' il sg ids links s
    = TopologicalSort.add_node_loop reg fuel il sg ids links s.
Proof.
  induction fuel as [|fuel IH]; intros ids links s Hrun fuel' Hle.
  - destruct ids; [by rewrite !add_node_loop_nil|done].
  - destruct ids as [|u ids]; [by rewrite !add_node_loop_nil|].
    destruct fuel' as [|fuel']; [lia|].
    rewrite add_node_loop_step in Hrun. rewrite !add_node_loop_step.
    destruct (dict_mem u (pendingNodes s)); [apply IH; [done|lia]|].
    simpl in *.
    destruct (DynamicPrompt.get_node (dynprompt s) u); [|done..].
    destruct (TopologicalSort.scan_inputs _ _ _ _ _ _ _ _); [|done..].
    apply IH; [done|lia].
Qed.

Lemma add_node_fuel_mono : ∀ fuel n il sg s,
  TopologicalSort.add_node reg fuel n il sg s ≠ OutOfFuel →
  ∀ fuel', (fuel ≤ fuel')%nat →
    TopologicalSort.add_node reg fuel' n il sg s
    = TopologicalSort.add_node reg fuel n il sg s.
Proof.
  induction fuel as [|fuel IH]; intros n il sg s Hrun fuel' Hle; [done|].
  destruct fuel' as [|fuel']; [lia|].
  rewrite add_node_S in Hrun. rewrite !add_node_S.
  rewrite (add_node_loop_fuel_mono il sg (S fuel)); [|by intros Hout; rewrite Hout in Hrun|lia].
  destruct (TopologicalSort.add_node_loop reg (S fuel) il sg [n] [] s)
    as [links s1|e s1|]; [|done..].
  revert s1 Hrun. induction links as [|l links IHl]; intros s1 Hrun; [done|].
  rewrite for_each_cons, add_strong_link_with_eq in Hrun.
  rewrite !for_each_cons, !add_strong_link_with_eq.
  rewrite (IH l.1.1 false None s1); [|by intros Hout; rewrite Hout in Hrun|lia].
  destruct (TopologicalSort.add_node reg fuel l.1.1 false None s1)
    as [[] s2|e s2|]; [|done..].
  destruct (TopologicalSort.insert_edge l.1.1 l.1.2 l.2 s2) as [[] s3|e s3|];
    [|done..].
  by apply IHl.
Qed.
End fuel_monotone.

(** X6.  The worklist loop of [add_node] ends on every graph, cyclic ones
    included: a fuel above the work that is left (one unit per node that is
    not pending and one per input of such a node) is never used up, and every
    fuel that is not used up gives the same outcome. *)
Theorem add_node_ends reg n il sg s :
  (∀ fuel, (work s + 2 ≤ fuel)%nat →
     TopologicalSort.add_node reg fuel n il sg s ≠ OutOfFuel)
  ∧ (∀ fuel fuel',
       TopologicalSort.add_node reg fuel n il sg s ≠ OutOfFuel →
       TopologicalSort.add_node reg fuel' n il sg s ≠ OutOfFuel →
       TopologicalSort.add_node reg fuel n il sg s
       = TopologicalSort.add_node reg fuel' n il sg s).
Proof.
  split; [intros fuel; apply add_node_terminates|].
  intros fuel fuel' Hrun Hrun'.
  destruct (decide (fuel ≤ fuel')%nat).
  - symmetry. by apply add_node_fuel_mono.
  - apply add_node_fuel_mono; [done|lia].
Qed.

Lemma add_node_ends_witness :
  TopologicalSort.add_node example_registry 11 "C" false None
    (TopologicalSort.__init__ cycle_prompt) ≠ OutOfFuel
  ∧ TopologicalSort.add_node example_registry 4 "C" false None
      (TopologicalSort.__init__ cycle_prompt)
    = TopologicalSort.add_node example_registry 11 "C" false None
        (TopologicalSort.__init__ cycle_prompt).
Proof.
  destruct (add_node_ends example_registry "C" false None
              (TopologicalSort.__init__ cycle_prompt)) as [Hends Hsame].
  assert (H11 : TopologicalSort.add_node example_registry 11 "C" false None
                  (TopologicalSort.__init__ cycle_prompt) ≠ OutOfFuel).
  { apply Hends. vm_compute. lia. }
  split; [exact H11|]. apply Hsame; [|exact H11]. vm_compute. discriminate.
Defined.

(** X7.  [add_node] of a pending node does nothing, whatever its arguments:
    a second [add_node] of the same node, even with [include_lazy] set,
    leaves the state of the first, and the lazy links of a node that is
    pending already are not added. *)
Theorem add_node_twice reg fuel n il sg il' sg' s :
  (dict_mem n (pendingNodes s) = true →
   TopologicalSort.add_node reg (S fuel) n il sg s = Ok () s)
  ∧ (TopologicalSort.add_node reg fuel n il sg ;;
     TopologicalSort.add_node reg fuel n il' sg')%py s
    = TopologicalSort.add_node reg fuel n il sg s.
Proof.
  split; [apply add_node_noop|]. unfold bind.
  destruct (TopologicalSort.add_node reg fuel n il sg s) as [[] s1|e s1|]
    eqn:Hfirst; [|done..].
  destruct fuel as [|fuel]; [done|].
  apply add_node_noop, dict_mem_true. by eapply add_node_pending.
Qed.

Lemma add_node_twice_witness :
  TopologicalSort.add_node example_registry 1 "consumer" true None
    (TopologicalSort.mark_pending "consumer"
       (TopologicalSort.__init__ lazy_prompt))
  = Ok () (TopologicalSort.mark_pending "consumer"
             (TopologicalSort.__init__ lazy_prompt)).
Proof.
  apply (add_node_twice example_registry 0 "consumer" true None true None).
  vm_compute. reflexivity.
Defined.

(** X8.  Whether it returns or raises, [add_node] keeps the prompt and every
    pending node, and leaves a node that was pending as it was: its
    [blockCount] is unchanged and no edge to it is added. *)
Theorem add_node_keeps_pending reg fuel n il sg s :
  post (TopologicalSort.add_node reg fuel n il sg s)
    (λ s', dynprompt s' = dynprompt s
           ∧ ∀ c, pending s c →
               pending s' c
               ∧ blockCount s' !! c = blockCount s !! c
               ∧ ∀ m, has_edge s' m c → has_edge s m c).
Proof.
  pose proof (add_node_extends reg fuel n il sg s) as Hext.
  assert (Hframe : ∀ c, pending s c →
    post (TopologicalSort.add_node reg fuel n il sg s)
      (λ s', blockCount s' !! c = blockCount s !! c
             ∧ ∀ m, has_edge s' m c → has_edge s m c)).
  { intros c Hc. by apply add_node_frame. }
  destruct (TopologicalSort.add_node reg fuel n il sg s) as [[] s'|e s'|];
    simpl in *; [| |done].
  - destruct Hext as [Hdp Hsub]. split; [done|]. intros c Hc.
    destruct (Hframe c Hc). auto.
  - destruct Hext as [Hdp Hsub]. split; [done|]. intros c Hc.
    destruct (Hframe c Hc). auto.
Qed.

Lemma add_node_keeps_pending_witness :
  pending
    (state_after example_registry
       [call_add_node 2 "A" false None; call_add_node 3 "B" false None]
       (TopologicalSort.__init__ chain_prompt)) "A"
  ∧ blockCount
      (state_after example_registry
         [call_add_node 2 "A" false None; call_add_node 3 "B" false None]
         (TopologicalSort.__init__ chain_prompt)) !! "A"
    = Some 0.
Proof.
  pose proof (add_node_keeps_pending example_registry 3 "B" false None
                (state_after example_registry [call_add_node 2 "A" false None]
                   (TopologicalSort.__init__ chain_prompt))) as H.
  assert (Hrun : TopologicalSort.add_node example_registry 3 "B" false None
                   (state_after example_registry
                      [call_add_node 2 "A" false None]
                      (TopologicalSort.__init__ chain_prompt))
                 = Ok () (state_after example_registry
                            [call_add_node 2 "A" false None;
                             call_add_node 3 "B" false None]
                            (TopologicalSort.__init__ chain_prompt)))
    by (vm_compute; reflexivity).
  rewrite Hrun in H. destruct H as [_ H].
  destruct (H "A") as (Hp & Hc & _); [vm_compute; left|].
  split; [exact Hp|]. rewrite Hc. vm_compute. reflexivity.
Defined.

(** ** TopologicalSort: make_input_strong_link, get_ready_nodes, pop_node *)

(** X9.  [make_input_strong_link] raises NodeNotFoundError for a consumer
    that is not in the prompt and NodeInputError for an input that the
    consumer does not have or that holds a constant, each time before it has
    changed anything; for a link it is [add_strong_link] from the producer of
    the link. *)
Theorem make_input_strong_link_errors reg fuel to_node_id to_input s :
  (DynamicPrompt.has_node (dynprompt s) to_node_id = false →
   TopologicalSort.make_input_strong_link reg fuel to_node_id to_input s
   = Raise (NodeNotFoundError to_node_id) s)
  ∧ (∀ node, DynamicPrompt.get_node (dynprompt s) to_node_id = Val node →
       match dict_get to_input (inputs node) with
       | None | Some Constant =>
           TopologicalSort.make_input_strong_link reg fuel to_node_id to_input s
           = Raise NodeInputError s
       | Some (Link from_node_id from_socket) =>
           TopologicalSort.make_input_strong_link reg fuel to_node_id to_input s
           = TopologicalSort.add_strong_link reg fuel from_node_id from_socket
               to_node_id s
       end).
Proof.
  unfold TopologicalSort.make_input_strong_link, bind, query. split.
  - intros Hunknown.
    apply get_node_unknown in Hunknown.
    by rewrite Hunknown.
  - intros node ->. by destruct (dict_get to_input (inputs node)) as [[]|].
Qed.

Lemma make_input_strong_link_errors_witness :
  TopologicalSort.make_input_strong_link example_registry 3 "ghost" "x"
    chain_state = Raise (NodeNotFoundError "ghost") chain_state
  ∧ TopologicalSort.make_input_strong_link example_registry 3 "B" "y"
      chain_state = Raise NodeInputError chain_state.
Proof.
  destruct (make_input_strong_link_errors example_registry 3 "ghost" "x"
              chain_state) as [Hghost _].
  destruct (make_input_strong_link_errors example_registry 3 "B" "y"
              chain_state) as [_ Hinput].
  split; [apply Hghost; vm_compute; reflexivity|].
  apply (Hinput {| class_type := "X"; inputs := [("x", Link "A" 0)] |}).
  vm_compute; reflexivity.
Defined.

Lemma ready_among_spec bc ns :
  (∀ n, n ∈ ns → is_Some (bc !! n)) →
  TopologicalSort.ready_among bc ns
  = Val (filter (λ n, bc !! n = Some 0) ns).
Proof.
  induction ns as [|n ns IH]; intros Hall; simpl; [done|].
  destruct (Hall n) as [c Hc]; [left|]. unfold gitem. rewrite Hc. simpl.
  rewrite IH by (intros; apply Hall; by right). simpl.
  rewrite filter_cons, Hc.
  destruct (decide (c = 0)) as [->|Hne].
  - by rewrite decide_True.
  - rewrite decide_False; [done|]. by intros [= ?].
Qed.

(** X10.  In a state reached within the protocol [get_ready_nodes] does not
    raise: it returns the pending nodes whose [blockCount] is zero, in the
    order of the pending set, so that a node is in the list exactly when it
    is pending and no pending node blocks it. *)
Theorem get_ready_nodes_lists_ready reg s :
  reachable reg s →
  TopologicalSort.get_ready_nodes s
  = Val (filter (λ n, blockCount s !! n = Some 0) (dict_keys (pendingNodes s)))
  ∧ ∀ l, TopologicalSort.get_ready_nodes s = Val l →
      sublist l (dict_keys (pendingNodes s))
      ∧ NoDup l
      ∧ ∀ n, n ∈ l ↔ pending s n ∧ ¬ blocked_by_pending s n.
Proof.
  intros Hinv%reachable_block_inv.
  assert (Hrun : TopologicalSort.get_ready_nodes s
    = Val (filter (λ n, blockCount s !! n = Some 0) (dict_keys (pendingNodes s)))).
  { apply ready_among_spec. intros n Hn.
    rewrite (inv_count _ Hinv n Hn). eauto. }
  split; [done|]. intros l. rewrite Hrun. intros [= <-]. split_and!.
  - apply sublist_filter.
  - apply NoDup_filter, (inv_pending_wf _ Hinv).
  - intros n. rewrite list_elem_of_filter.
    pose proof (block_inv_count_invariant s Hinv n) as Hcount. split.
    + intros [Hz Hn]. split; [done|].
      destruct (Hcount Hn) as (c & Hc & Hiff).
      rewrite Hz in Hc. injection Hc as <-. by apply Hiff.
    + intros [Hn Hfree]. split; [|done].
      destruct (Hcount Hn) as (c & Hc & Hiff).
      rewrite Hc. f_equal. by apply Hiff.
Qed.

Lemma get_ready_nodes_lists_ready_witness :
  TopologicalSort.get_ready_nodes chain_state = Val ["A"]
  ∧ ∀ n, n ∈ ["A"] ↔ pending chain_state n ∧ ¬ blocked_by_pending chain_state n.
Proof.
  destruct (get_ready_nodes_lists_ready example_registry chain_state
              chain_state_reachable) as [Hrun Hspec].
  assert (Hready : TopologicalSort.get_ready_nodes chain_state = Val ["A"]).
  { rewrite Hrun. vm_compute. reflexivity. }
  split; [exact Hready|]. apply (Hspec ["A"] Hready).
Defined.

Lemma filter_ne_notin {A} `{EqDecision A} (u : A) (l : list A) :
  u ∉ l → filter (λ n, n ≠ u) l = l.
Proof.
  induction l as [|x l IH]; [done|].
  intros [Hx Hl]%not_elem_of_cons. rewrite filter_cons.
  rewrite decide_True by (by intros ->). f_equal. auto.
Qed.

Lemma dict_keys_del_filter {K V} `{EqDecision K} (d : list (K * V)) u :
  dict_wf d → dict_keys (dict_del u d) = filter (λ n, n ≠ u) (dict_keys d).
Proof.
  unfold dict_wf, dict_keys. induction d as [|[k v] d IH]; simpl; [done|].
  intros [Hk Hd]%NoDup_cons. rewrite filter_cons. simpl.
  destruct (decide (u = k)) as [->|Hne].
  - rewrite decide_False by (by intros ?). symmetry. by apply filter_ne_notin.
  - rewrite decide_True by (by intros ->). simpl. f_equal. by apply IH.
Qed.

(** X11.  [pop_node] of a node that is not pending raises KeyError and
    changes nothing.  In a state reached within the protocol, [pop_node] of a
    pending node returns: the node is no longer pending and has no
    [blocking] entry, the other pending nodes stay pending in their order,
    and the prompt is kept. *)
Theorem pop_node_removes reg s u :
  (dict_mem u (pendingNodes s) = false →
   TopologicalSort.pop_node u s = Raise KeyError s)
  ∧ (reachable reg s → pending s u →
     ∃ s', TopologicalSort.pop_node u s = Ok () s'
         ∧ ¬ pending s' u
         ∧ dict_get u (blocking s') = None
         ∧ dict_keys (pendingNodes s')
           = filter (λ n, n ≠ u) (dict_keys (pendingNodes s))
         ∧ dynprompt s' = dynprompt s).
Proof.
  split.
  - intros Hu. by rewrite pop_node_eq, Hu.
  - intros Hinv%reachable_block_inv Hu.
    pose proof Hinv as [Hwf Hkeys Htargets Hcount].
    pose proof (block_inv_blocking_wf _ Hinv) as Hbwf.
    assert (is_Some (dict_get u (blocking s))) as [b Hb].
    { apply dict_get_is_Some. by rewrite Hkeys. }
    destruct (Htargets _ _ Hb) as [_ Hbent].
    eexists. split_and!.
    + apply (pop_node_counted u s b); [by apply dict_mem_true|done|].
      intros k [sockets Hk]%dict_get_is_Some.
      destruct (Hbent _ _ Hk) as [Hp _]. rewrite (Hcount _ Hp). eauto.
    + unfold pending. simpl. by intros [? _]%dict_keys_del.
    + simpl. by apply dict_get_del_eq.
    + simpl. by apply dict_keys_del_filter.
    + done.
Qed.

Lemma pop_node_removes_witness :
  TopologicalSort.pop_node "Z" chain_state = Raise KeyError chain_state
  ∧ ∃ s', TopologicalSort.pop_node "A" chain_state = Ok () s'
        ∧ ¬ pending s' "A"
        ∧ dict_get "A" (blocking s') = None
        ∧ dict_keys (pendingNodes s')
          = filter (λ n, n ≠ "A") (dict_keys (pendingNodes chain_state))
        ∧ dynprompt s' = dynprompt chain_state.
Proof.
  destruct (pop_node_removes example_registry chain_state "Z") as [Hmissing _].
  destruct (pop_node_removes example_registry chain_state "A") as [_ Hpop].
  split; [apply Hmissing; vm_compute; reflexivity|].
  apply Hpop; [exact chain_state_reachable|]. vm_compute. right. left.
Defined.

Lemma count_keys {K V} `{EqDecision K} (d : list (K * V))
    (Q : K * V → Prop) (R : K → Prop)
    `{∀ x, Decision (Q x)} `{∀ x, Decision (R x)} :
  (∀ kv, kv ∈ d → (R kv.1 ↔ Q kv)) →
  count Q d = length (filter R (dict_keys d)).
Proof.
  unfold count, dict_keys. induction d as [|kv d IH]; intros Hiff; [done|].
  csimpl. rewrite !filter_cons.
  specialize (IH (λ x Hx, Hiff x (list_elem_of_further _ _ _ Hx))).
  pose proof (Hiff kv (list_elem_of_here _ _)) as Hkv.
  destruct (decide (Q kv)), (decide (R kv.1)); simpl; try tauto; by rewrite IH.
Qed.

(** X12.  In every state reached within the protocol the three tables of the
    block graph agree: [blocking] has exactly the pending nodes as its keys,
    in the same order and without repetition; every edge leads from a pending
    node to a pending node and has a socket set; and the [blockCount] of a
    pending node is the number of pending nodes that hold an edge to it, so
    it is never negative. *)
Theorem block_graph_shape reg s :
  reachable reg s →
  NoDup (dict_keys (pendingNodes s))
  ∧ dict_keys (blocking s) = dict_keys (pendingNodes s)
  ∧ (∀ m n, has_edge s m n → blocks s m n)
  ∧ (∀ n, pending s n →
       blockCount s !! n
       = Some (Z.of_nat (length (filter (λ m, has_edge s m n)
                                   (dict_keys (pendingNodes s)))))).
Proof.
  intros Hinv%reachable_block_inv.
  pose proof Hinv as [Hwf Hkeys Htargets Hcount].
  pose proof (block_inv_blocking_wf _ Hinv) as Hbwf.
  split_and!; [done..| |].
  - intros m n (targets & Hm & Hn).
    apply dict_get_is_Some in Hn as [sockets Hs].
    destruct (Htargets _ _ Hm) as [_ Hent].
    destruct (Hent _ _ Hs) as [Hpn Htrue].
    assert (Hpm : pending s m).
    { unfold pending. rewrite <-Hkeys. apply dict_get_is_Some. eauto. }
    split_and!; [done..|]. eauto.
  - intros n Hn. rewrite (Hcount n Hn). unfold blockers. do 2 f_equal.
    rewrite <-Hkeys. apply count_keys. intros [m targets] Hin. simpl.
    pose proof (dict_elem_get _ _ _ Hbwf Hin) as Hm. split.
    + intros (targets' & Hm' & ?). congruence.
    + intros ?. by exists targets.
Qed.

Lemma block_graph_shape_witness :
  dict_keys (blocking chain_state) = dict_keys (pendingNodes chain_state)
  ∧ blocks chain_state "A" "B"
  ∧ blockCount chain_state !! "B" = Some 1.
Proof.
  destruct (block_graph_shape example_registry chain_state
              chain_state_reachable) as (_ & Hkeys & Hedges & Hcount).
  split_and!.
  - exact Hkeys.
  - apply Hedges. exists [("B", [(0, true)])].
    split; [vm_compute; reflexivity|left].
  - rewrite Hcount by (vm_compute; left). vm_compute. reflexivity.
Defined.

(** ** ExecutionList: staging *)

Lemma ready_among_elem bc ns : ∀ l n,
  TopologicalSort.ready_among bc ns = Val l → n ∈ l →
  n ∈ ns ∧ bc !! n = Some 0.
Proof.
  induction ns as [|x ns IH]; intros l n; simpl.
  - intros [= <-] ?%elem_of_nil. done.
  - unfold gitem. destruct (bc !! x) as [c|] eqn:Hc; [|done]. simpl.
    destruct (TopologicalSort.ready_among bc ns) as [rest| |]; [|done..]. simpl.
    intros [= <-]. destruct (decide (c = 0)) as [->|Hne].
    + intros [->|Hin]%elem_of_cons; [split; [left|done]|].
      destruct (IH rest n eq_refl Hin). split; [by right|done].
    + intros Hin. destruct (IH rest n eq_refl Hin). split; [by right|done].
Qed.

(** What a pick that returns has done: the node is one of the list, of the
    group that is tracked from then on, and nothing but the tracked group has
    changed. *)
Lemma ux_friendly_pick_node_picks reg node_list s nid s' :
  ExecutionList.ux_friendly_pick_node reg node_list s = Ok nid s' →
  nid ∈ node_list
  ∧ (∃ g, _current_group_class s' = Some g
        ∧ ExecutionList.class_of s nid = Val g)
  ∧ super s' = super s ∧ staged_node_id s' = staged_node_id s.
Proof.
  intros Hpick.
  pose proof (ux_friendly_pick_node_frame reg node_list s) as Hframe.
  rewrite Hpick in Hframe. destruct Hframe as (Hsuper & Hslot & _).
  rewrite ux_friendly_pick_node_eq in Hpick.
  destruct (stale s node_list) as [[]| |]; [| |done..].
  - destruct (ExecutionList._pick_largest_group s node_list) as [g| |]; [|done..].
    simpl in Hpick.
    destruct (pick_in_group reg _ node_list) as [nid'| |] eqn:Hin; [|done..].
    injection Hpick as -> <-.
    destruct (pick_in_group_class _ _ _ _ Hin) as [? (g' & Hg' & Hclass)].
    split_and!; [done| |done..]. exists g'. by split.
  - destruct (pick_in_group reg s node_list) as [nid'| |] eqn:Hin; [|done..].
    injection Hpick as -> <-.
    destruct (pick_in_group_class _ _ _ _ Hin) as [? (g' & Hg' & Hclass)].
    split_and!; [done| |done..]. exists g'. by split.
Qed.

Lemma stage_node_staged reg fuel s nid err ex s' :
  ExecutionList.stage_node_execution reg fuel s = Ok (Some nid, err, ex) s' →
  err = None ∧ ex = None
  ∧ staged_node_id s = None ∧ staged_node_id s' = Some nid
  ∧ super s' = super s
  ∧ ready (super s) nid
  ∧ ∃ g, _current_group_class s' = Some g
       ∧ ExecutionList.class_of s nid = Val g.
Proof.
  rewrite stage_node_execution_eq.
  destruct (staged_node_id s) eqn:Hslot; [done|].
  destruct (ExecutionList.is_empty s); [done|].
  destruct (ExecutionList.get_ready_nodes s) as [[|n available]| |] eqn:Hready;
    [| |done..].
  - destruct (ExecutionList.get_nodes_in_cycle s) as [[|first rest]| |];
      [done| |done..].
    by destruct (ExecutionList.blame fuel s (first :: rest) first).
  - destruct (ExecutionList.ux_friendly_pick_node reg (n :: available) s)
      as [nid' s1|e s1|] eqn:Hpick; [|done..].
    intros [= -> <- <- <-].
    destruct (ux_friendly_pick_node_picks _ _ _ _ _ Hpick)
      as (Hin & Hgroup & Hsuper & _).
    split_and!; [done..| |done].
    by destruct (ready_among_elem _ _ _ _ Hready Hin).
Qed.

(** X13.  A node that [stage_node_execution] hands out is ready: it is
    pending and its [blockCount] is zero.  It is handed out without an error,
    from an empty slot that it then fills, it belongs to the group that is
    tracked from then on, and the block graph and the prompt are left as
    they were. *)
Theorem stage_hands_out_ready_node reg fuel s nid err ex s' :
  ExecutionList.stage_node_execution reg fuel s = Ok (Some nid, err, ex) s' →
  err = None ∧ ex = None
  ∧ staged_node_id s = None ∧ staged_node_id s' = Some nid
  ∧ super s' = super s
  ∧ pending (super s) nid
  ∧ blockCount (super s) !! nid = Some 0
  ∧ ∃ g, _current_group_class s' = Some g
       ∧ ExecutionList.class_of s nid = Val g.
Proof.
  intros (? & ? & ? & ? & ? & [? ?] & ?)%stage_node_staged. by split_and!.
Qed.

Lemma stage_hands_out_ready_node_witness :
  pending chain_state "A" ∧ blockCount chain_state !! "A" = Some 0
  ∧ ExecutionList.class_of chain_list "A" = Val "X".
Proof.
  destruct (stage_hands_out_ready_node example_registry 0 chain_list "A"
              None None
              (set_staged_node_id (Some "A")
                 (set_current_group_class (Some "X") chain_list)))
    as (_ & _ & _ & _ & _ & Hp & Hc & g & Hg & Hclass);
    [vm_compute; reflexivity|].
  simpl in Hg. injection Hg as <-. by split_and!.
Defined.

Lemma any_r_false_or_true {A} (p : A → result bool) l :
  (∀ x, x ∈ l → ∃ b, p x = Val b) →
  ∃ b, any_r p l = Val b ∧ (b = true ↔ ∃ x, x ∈ l ∧ p x = Val true).
Proof.
  induction l as [|y l IH]; intros Hall; simpl.
  - exists false. split; [done|]. split; [done|]. by intros (? & ?%elem_of_nil & _).
  - destruct (Hall y) as [[] Hy]; [left|..]; rewrite Hy; simpl.
    + exists true. split; [done|]. split; [|done]. intros _. exists y.
      split; [left|done].
    + destruct IH as (b & Hb & Hiff); [intros; apply Hall; by right|].
      exists b. split; [done|]. rewrite Hiff. split.
      * intros (x & ? & ?). exists x. split; [by right|done].
      * intros (x & [->|?]%elem_of_cons & Hx); [congruence|eauto].
Qed.

(** X14.  While a node of the tracked group is in the list, the pick stays
    in the group: when every node of the list is in the prompt and one of
    them is of the tracked class, [ux_friendly_pick_node] leaves the tracked
    group as it is, whether it returns or raises, and a node it returns is a
    node of the list of that class. *)
Theorem pick_stays_in_group reg node_list s g :
  _current_group_class s = Some g →
  (∀ nid, nid ∈ node_list →
     DynamicPrompt.has_node (dynprompt (super s)) nid = true) →
  (∃ nid, nid ∈ node_list ∧ ExecutionList.class_of s nid = Val g) →
  post (ExecutionList.ux_friendly_pick_node reg node_list s) (λ s', s' = s)
  ∧ ∀ nid s', ExecutionList.ux_friendly_pick_node reg node_list s = Ok nid s' →
      nid ∈ node_list ∧ ExecutionList.class_of s nid = Val g.
Proof.
  intros Hg Hknown (member & Hmember & Hclass).
  assert (Hstale : stale s node_list = Val false).
  { unfold stale. rewrite Hg.
    destruct (any_r_false_or_true
                (λ nid, ctype <-? ExecutionList.class_of s nid ;;
                        Val (bool_decide (ctype = g))) node_list)
      as (b & -> & Hiff).
    { intros x [c Hc]%Hknown%class_of_known. rewrite Hc. simpl. eauto. }
    simpl. replace b with true; [done|]. symmetry. apply Hiff.
    exists member. split; [done|]. rewrite Hclass. simpl.
    by rewrite bool_decide_eq_true_2. }
  split.
  - rewrite ux_friendly_pick_node_eq, Hstale.
    by destruct (pick_in_group reg s node_list).
  - intros nid s' Hpick.
    destruct (ux_friendly_pick_node_picks _ _ _ _ _ Hpick)
      as (Hin & (g' & Hg' & Hclass') & _).
    split; [done|].
    rewrite ux_friendly_pick_node_eq, Hstale in Hpick.
    destruct (pick_in_group reg s node_list); [|done..].
    injection Hpick as _ <-. congruence.
Qed.

Lemma pick_stays_in_group_witness :
  "a" ∈ ["a"; "b"]
  ∧ ExecutionList.class_of (set_current_group_class (Some "A") tie_example) "a"
    = Val "A".
Proof.
  destruct (pick_stays_in_group tie_registry ["a"; "b"]
              (set_current_group_class (Some "A") tie_example) "A")
    as [_ Hpick].
  - reflexivity.
  - intros nid Hnid. repeat (apply elem_of_cons in Hnid as [->|Hnid]);
      [vm_compute; reflexivity..|]. by apply elem_of_nil in Hnid.
  - exists "a". split; [left|vm_compute; reflexivity].
  - apply (Hpick "a" (set_current_group_class (Some "A") tie_example)).
    vm_compute. reflexivity.
Defined.

Lemma dict_del_length_mem {K V} `{EqDecision K} (d : list (K * V)) k :
  k ∈ dict_keys d → (length (dict_del k d) + 1 = length d)%nat.
Proof.
  unfold dict_keys. induction d as [|[k' v'] d IH]; simpl.
  - by intros ?%elem_of_nil.
  - case_decide; simpl; [lia|].
    intros [?|Hin]%elem_of_cons; [done|]. specialize (IH Hin). lia.
Qed.

(** Popping a ready node within the protocol. *)
Lemma pop_node_ready reg s u :
  reachable reg s → ready s u →
  ∃ s', TopologicalSort.pop_node u s = Ok () s'
      ∧ reachable reg s'
      ∧ pendingNodes s' = dict_del u (pendingNodes s)
      ∧ blocking s' = dict_del u (blocking s)
      ∧ dynprompt s' = dynprompt s.
Proof.
  intros Hreach Hready. pose proof (reachable_block_inv _ _ Hreach) as Hinv.
  pose proof Hinv as [Hwf Hkeys Htargets Hcount]. destruct Hready as [Hu Hz].
  assert (is_Some (dict_get u (blocking s))) as [b Hb].
  { apply dict_get_is_Some. by rewrite Hkeys. }
  destruct (Htargets _ _ Hb) as [_ Hbent].
  assert (Hpop : TopologicalSort.pop_node u s
    = Ok () {| dynprompt := dynprompt s;
               pendingNodes := dict_del u (pendingNodes s);
               blockCount := foldl decrement (blockCount s) (dict_keys b);
               blocking := dict_del u (blocking s) |}).
  { apply (pop_node_counted u s b); [by apply dict_mem_true|done|].
    intros k [sockets Hk]%dict_get_is_Some.
    destruct (Hbent _ _ Hk) as [Hp _]. rewrite (Hcount _ Hp). eauto. }
  eexists. split_and!; [exact Hpop| |done..].
  apply (reachable_call reg s (call_pop_node u)); [done|by split|].
  simpl. by rewrite Hpop.
Qed.

(** X15.  Completing the node that was just staged makes progress.  In a
    scheduler whose block graph was reached within the protocol, after
    [stage_node_execution] has handed out a node, [complete_node_execution]
    returns: the slot is empty again, the node is no longer pending, the
    pending set is the former one without that node (one node less, the
    others in their order), the tracked group is kept, and the block graph is
    still one that the protocol reaches. *)
Theorem stage_then_complete reg fuel s nid s1 :
  reachable reg (super s) →
  ExecutionList.stage_node_execution reg fuel s = Ok (Some nid, None, None) s1 →
  ∃ s2, ExecutionList.complete_node_execution s1 = Ok () s2
      ∧ reachable reg (super s2)
      ∧ staged_node_id s2 = None
      ∧ _current_group_class s2 = _current_group_class s1
      ∧ ¬ pending (super s2) nid
      ∧ dict_keys (pendingNodes (super s2))
        = filter (λ n, n ≠ nid) (dict_keys (pendingNodes (super s)))
      ∧ (length (pendingNodes (super s2)) + 1
         = length (pendingNodes (super s)))%nat.
Proof.
  intros Hreach (_ & _ & _ & Hslot & Hsuper & Hready & _)%stage_node_staged.
  destruct (pop_node_ready reg (super s) nid Hreach Hready)
    as (t & Hpop & Hreach' & Hpending & _ & _).
  pose proof (inv_pending_wf _ (reachable_block_inv _ _ Hreach)) as Hwf.
  exists (set_staged_node_id None (set_super t s1)).
  rewrite complete_node_execution_eq, Hslot.
  unfold ExecutionList.pop_node, inherited. rewrite Hsuper, Hpop. simpl.
  split_and!; [done..| | |].
  - unfold pending. rewrite Hpending. by intros [? _]%dict_keys_del.
  - rewrite Hpending. by apply dict_keys_del_filter.
  - rewrite Hpending. apply dict_del_length_mem, Hready.
Qed.

Lemma stage_then_complete_witness :
  ∃ s2, ExecutionList.complete_node_execution
          (set_staged_node_id (Some "A")
             (set_current_group_class (Some "X") chain_list)) = Ok () s2
      ∧ reachable example_registry (super s2)
      ∧ staged_node_id s2 = None
      ∧ _current_group_class s2 = Some "X"
      ∧ ¬ pending (super s2) "A"
      ∧ dict_keys (pendingNodes (super s2))
        = filter (λ n, n ≠ "A") (dict_keys (pendingNodes chain_state))
      ∧ (length (pendingNodes (super s2)) + 1
         = length (pendingNodes chain_state))%nat.
Proof.
  apply (stage_then_complete example_registry 0 chain_list "A").
  - exact chain_state_reachable.
  - vm_compute. reflexivity.
Defined.

(** ** Cycles in a finite graph *)

Section finite_graph.
Context {A : Type} `{EqDecision A} (R : relation A).

Lemma walk_suffix l1 l2 : walk R (l1 ++ l2) → walk R l2.
Proof.
  induction l1 as [|x l1 IH]; [done|]. simpl.
  destruct (l1 ++ l2) eqn:Heq; [|intros [_ ?]; auto].
  apply app_eq_nil in Heq as [_ ->]. done.
Qed.

Lemma walk_prefix l1 l2 : walk R (l1 ++ l2) → walk R l1.
Proof.
  induction l1 as [|x l1 IH]; [done|].
  destruct l1 as [|y l1]; [done|].
  intros [? Hw]. split; [done|]. by apply IH.
Qed.

Lemma walk_tc a l b : walk R (a :: l ++ [b]) → tc R a b.
Proof.
  revert a. induction l as [|c l IH]; intros a; simpl.
  - intros [? _]. by apply tc_once.
  - intros [? Hw]. eapply tc_l; [done|]. by apply IH.
Qed.

Lemma repeated_element (l : list A) :
  ¬ NoDup l → ∃ l1 a l2 l3, l = l1 ++ a :: l2 ++ a :: l3.
Proof.
  induction l as [|x l IH]; intros Hdup.
  - destruct Hdup. constructor.
  - destruct (decide (x ∈ l)) as [Hin|Hout].
    + apply list_elem_of_split in Hin as (l2 & l3 & ->).
      by exists [], x, l2, l3.
    + destruct IH as (l1 & a & l2 & l3 & ->).
      { intros Hl. apply Hdup. by constructor. }
      by exists (x :: l1), a, l2, l3.
Qed.

Lemma walk_rtc a l b : walk R (a :: l) → last (a :: l) = Some b → rtc R a b.
Proof.
  revert a. induction l as [|c l IH]; intros a.
  - by intros _ [= ->].
  - intros [Hac Hw] Hlast. eapply rtc_l; [exact Hac|].
    apply IH; [done|]. by rewrite last_cons_cons in Hlast.
Qed.

(** Walking backwards from [n] for [k] steps inside [P]. *)
Lemma walk_back (P : list A) :
  (∀ n, n ∈ P → ∃ m, m ∈ P ∧ R m n) →
  ∀ k n, n ∈ P →
    ∃ l, length l = S k ∧ (∀ x, x ∈ l → x ∈ P) ∧ walk R l ∧ last l = Some n.
Proof.
  intros Hpred. induction k as [|k IH]; intros n Hn.
  - exists [n]. split_and!; [done| |done..].
    by intros x ->%list_elem_of_singleton.
  - destruct (IH n Hn) as (l & Hlen & Hin & Hwalk & Hlast).
    destruct l as [|x l]; [done|].
    destruct (Hpred x) as (m & Hm & Hmx); [apply Hin; left|].
    exists (m :: x :: l). split_and!.
    + simpl in *. lia.
    + intros y [->|Hy]%elem_of_cons; auto.
    + by split.
    + by rewrite last_cons_cons.
Qed.

(** In a finite set in which every element has a predecessor, every element
    is reached from one that precedes itself. *)
Lemma finite_predecessors_cycle (P : list A) n0 :
  n0 ∈ P → (∀ n, n ∈ P → ∃ m, m ∈ P ∧ R m n) →
  ∃ c, c ∈ P ∧ tc R c c ∧ rtc R c n0.
Proof.
  intros Hn0 Hpred.
  destruct (walk_back P Hpred (length P) n0 Hn0)
    as (l & Hlen & Hin & Hwalk & Hlast).
  destruct (repeated_element l) as (l1 & a & l2 & l3 & ->).
  { intros Hnodup. pose proof (NoDup_submseteq _ _ Hnodup Hin) as Hsub.
    apply submseteq_length in Hsub. lia. }
  exists a. split_and!.
  - apply Hin. apply elem_of_app. right. left.
  - apply walk_suffix in Hwalk.
    change (a :: l2 ++ a :: l3) with ((a :: l2) ++ [a] ++ l3) in Hwalk.
    rewrite app_assoc in Hwalk. apply walk_prefix in Hwalk.
    by apply (walk_tc a l2 a).
  - apply walk_suffix in Hwalk. rewrite last_app_cons in Hlast.
    by apply (walk_rtc a (l2 ++ a :: l3)).
Qed.

Lemma tc_last x y : tc R x y → ∃ m, R m y ∧ (m = x ∨ tc R x m).
Proof.
  induction 1 as [x y Hxy|x z y Hxz _ (m & Hm & Hor)].
  - exists x. auto.
  - exists m. split; [done|]. right. destruct Hor as [->|Hzm].
    + by apply tc_once.
    + by eapply tc_l.
Qed.

(** The predecessor of a node on a cycle, along the cycle, is on a cycle. *)
Lemma cycle_predecessor n : tc R n n → ∃ m, R m n ∧ tc R m m.
Proof.
  intros Hn. destruct (tc_last n n Hn) as (m & Hm & [->|Hnm]).
  - by exists n.
  - exists m. split; [done|]. by eapply tc_l.
Qed.

Lemma downstream_predecessor n :
  (∃ c, tc R c c ∧ rtc R c n) →
  ∃ m, R m n ∧ ∃ c, tc R c c ∧ rtc R c m.
Proof.
  intros (c & Hc & [->|(m & Hcm & Hmn)]%rtc_inv_r).
  - destruct (cycle_predecessor n Hc) as (m & Hm & Hmm).
    exists m. split; [done|]. by exists m.
  - exists m. split; [done|]. by exists c.
Qed.

(** Paths that start in a set closed under [R] stay in it. *)
Lemma tc_closed (D : A → Prop) x y :
  (∀ a b, D a → R a b → D b) →
  tc R x y → D x → tc (λ a b, R a b ∧ D a ∧ D b) x y.
Proof.
  intros Hclosed. induction 1 as [x y Hxy|x z y Hxz _ IH]; intros Hx.
  - apply tc_once. eauto.
  - eapply tc_l; [|apply IH]; eauto.
Qed.

Lemma rtc_closed (D : A → Prop) x y :
  (∀ a b, D a → R a b → D b) →
  rtc R x y → D x → rtc (λ a b, R a b ∧ D a ∧ D b) x y.
Proof.
  intros Hclosed. induction 1 as [x|x z y Hxz _ IH]; intros Hx; [done|].
  eapply rtc_l; [|apply IH]; eauto.
Qed.
End finite_graph.

(** ** Cycle detection *)

(** Where no pending node is ready, every pending node is blocked. *)
Lemma no_ready_all_blocked s :
  block_inv s → TopologicalSort.get_ready_nodes s = Val [] →
  ∀ n, pending s n → ∃ m, pending s m ∧ blocks s m n.
Proof.
  intros Hinv Hready n Hn. pose proof Hinv as [Hwf Hkeys Htargets Hcount].
  destruct (ready_among_nil _ _ Hready n Hn) as (c & Hc & Hne).
  rewrite (Hcount n Hn) in Hc. injection Hc as <-. unfold blockers, count in Hne.
  destruct (filter (λ kv, n ∈ dict_keys kv.2) (blocking s))
    as [|[m targets] l] eqn:Hf; [done|].
  assert ((m, targets) ∈ filter (λ kv, n ∈ dict_keys kv.2) (blocking s))
    as [Hnt Hm]%list_elem_of_filter by (rewrite Hf; left).
  simpl in Hnt. apply dict_get_is_Some in Hnt as [sockets Hs].
  pose proof (dict_elem_get _ _ _ (block_inv_blocking_wf _ Hinv) Hm) as Hmget.
  destruct (Htargets _ _ Hmget) as [_ Hent].
  destruct (Hent _ _ Hs) as [_ Htrue].
  assert (Hpm : pending s m).
  { unfold pending. rewrite <-Hkeys. apply dict_get_is_Some. eauto. }
  exists m. split; [done|]. split_and!; [done..|]. eauto.
Qed.

(** ** What get_nodes_in_cycle returns *)

Lemma record_targets_entries P from targets : ∀ bb bb',
  entries P bb →
  (∀ n sockets, (n, sockets) ∈ targets → true ∈ dict_values sockets →
     P from n) →
  ExecutionList.record_targets from targets bb = Val bb' → entries P bb'.
Proof.
  induction targets as [|[to sockets] targets IH]; intros bb bb' Hent HP; simpl.
  - by intros [= <-].
  - case_bool_decide as Htrue.
    + unfold item. destruct (dict_get to bb) as [b|] eqn:Hb; [|done]. simpl.
      apply IH; [|intros; eapply HP; [by right|done]].
      intros n d. rewrite dict_get_set. case_decide as Hn; [|apply Hent].
      subst n. intros [= <-]. destruct (Hent _ _ Hb) as [Hwf Hall]. split.
      * by apply dict_wf_set.
      * intros m [->|Hm]%dict_keys_set; [|by apply Hall].
        eapply HP; [left|done].
    + apply IH; [done|]. intros; eapply HP; [by right|done].
Qed.

Lemma record_edges_entries P edges : ∀ bb bb',
  entries P bb →
  (∀ m targets n sockets, (m, targets) ∈ edges → (n, sockets) ∈ targets →
     true ∈ dict_values sockets → P m n) →
  ExecutionList.record_edges edges bb = Val bb' → entries P bb'.
Proof.
  induction edges as [|[from targets] edges IH]; intros bb bb' Hent HP; simpl.
  - by intros [= <-].
  - destruct (ExecutionList.record_targets from targets bb) as [bb1| |] eqn:Ht;
      [|done..]. simpl.
    apply IH; [|intros; eapply HP; [by right|done..]].
    eapply record_targets_entries; [exact Hent| |exact Ht].
    intros; eapply HP; [left|done..].
Qed.

Lemma dict_keys_fmap_values {K V W} (f : V → W) (d : list (K * V)) :
  dict_keys (prod_map id f <$> d) = dict_keys d.
Proof.
  unfold dict_keys. rewrite <-list_fmap_compose.
  apply list_fmap_ext. by intros i [] _.
Qed.

Lemma dict_get_fmap_values {K V W} `{EqDecision K} (f : V → W)
    (d : list (K * V)) k :
  dict_get k (prod_map id f <$> d) = f <$> dict_get k d.
Proof.
  induction d as [|[k' v] d IH]; simpl; [done|]. by case_decide.
Qed.

Lemma dissolve_get bb x n :
  dict_wf bb →
  dict_get n (ExecutionList.dissolve bb x)
  = if decide (x = n) then None else dict_del x <$> dict_get n bb.
Proof.
  intros Hwf. unfold ExecutionList.dissolve. case_decide as Hn.
  - subst n. apply dict_get_del_eq. unfold dict_wf.
    by rewrite dict_keys_fmap_values.
  - by rewrite dict_get_del_ne, dict_get_fmap_values.
Qed.

Lemma dissolve_keys bb x :
  dict_wf bb →
  dict_keys (ExecutionList.dissolve bb x) = filter (λ n, n ≠ x) (dict_keys bb).
Proof.
  intros Hwf. unfold ExecutionList.dissolve.
  rewrite dict_keys_del_filter, dict_keys_fmap_values; [done|].
  unfold dict_wf. by rewrite dict_keys_fmap_values.
Qed.

Lemma peel_inv_dissolve s bb x :
  peel_inv s bb → ¬ downstream s x → peel_inv s (ExecutionList.dissolve bb x).
Proof.
  intros [Hwf Hent Hsup] Hx. split.
  - unfold dict_wf. rewrite dissolve_keys by done. by apply NoDup_filter.
  - intros n d'. rewrite dissolve_get by done. case_decide as Hn; [done|].
    destruct (dict_get n bb) as [d|] eqn:Hd; [|done]. intros [= <-].
    destruct (Hent _ _ Hd) as [Hdwf Hall]. split; [by apply dict_wf_del|].
    intros m [Hmx Hm]%dict_keys_del; [|done].
    destruct (Hall m Hm) as [Hmk Hb]. split; [|done].
    rewrite dissolve_keys by done. by apply list_elem_of_filter.
  - intros n Hn. destruct (Hsup n Hn) as (d & m & Hd & Hm & Hdm).
    exists (dict_del x d), m. rewrite dissolve_get by done.
    destruct (Hent _ _ Hd) as [Hdwf _].
    rewrite decide_False by (by intros ->). rewrite Hd.
    split_and!; [done| |done]. apply dict_keys_del; [done|].
    split; [|done]. by intros ->.
Qed.

Lemma to_remove_elem bb x :
  dict_wf bb → x ∈ ExecutionList.to_remove bb ↔ dict_get x bb = Some [].
Proof.
  intros Hwf. unfold ExecutionList.to_remove, dict_keys. split.
  - intros ([k d] & -> & [Hlen Hin]%list_elem_of_filter)%list_elem_of_fmap.
    simpl in *. apply length_zero_iff_nil in Hlen as ->.
    by apply dict_elem_get.
  - intros Hin%dict_get_Some_elem. apply list_elem_of_fmap.
    exists (x, []). split; [done|]. by apply list_elem_of_filter.
Qed.

Lemma to_remove_not_downstream s bb x :
  peel_inv s bb → x ∈ ExecutionList.to_remove bb → ¬ downstream s x.
Proof.
  intros [Hwf Hent Hsup] Hx%to_remove_elem Hdown; [|done].
  destruct (Hsup x Hdown) as (d & m & Hd & Hm & _).
  rewrite Hx in Hd. injection Hd as <-. by apply elem_of_nil in Hm.
Qed.

Lemma peel_inv_foldl s rm : ∀ bb,
  peel_inv s bb → (∀ x, x ∈ rm → ¬ downstream s x) →
  peel_inv s (foldl ExecutionList.dissolve bb rm)
  ∧ dict_keys (foldl ExecutionList.dissolve bb rm) `sublist_of` dict_keys bb
  ∧ (length (foldl ExecutionList.dissolve bb rm) ≤ length bb)%nat.
Proof.
  induction rm as [|x rm IH]; intros bb Hinv Hrm; simpl; [done|].
  destruct (IH (ExecutionList.dissolve bb x)) as (Hinv' & Hsub & Hlen).
  { apply peel_inv_dissolve; [done|]. apply Hrm. left. }
  { intros y Hy. apply Hrm. by right. }
  split_and!; [done| |].
  - etrans; [exact Hsub|]. rewrite dissolve_keys by apply Hinv.
    apply sublist_filter.
  - etrans; [exact Hlen|]. apply dissolve_length.
Qed.

Lemma peel_spec s fuel : ∀ bb,
  (length bb ≤ fuel)%nat → peel_inv s bb →
  ∃ l, ExecutionList.peel fuel bb = Val l
     ∧ l `sublist_of` dict_keys bb
     ∧ ∀ n, n ∈ l ↔ downstream s n.
Proof.
  induction fuel as [|fuel IH]; intros bb Hfuel Hinv.
  - destruct bb; [|simpl in Hfuel; lia]. exists []. split_and!; [done..|].
    intros n. split; [by intros ?%elem_of_nil|].
    intros Hn. destruct (peel_supported _ _ Hinv n Hn) as (? & ? & ? & _). done.
  - simpl. destruct (ExecutionList.to_remove bb) as [|x rm] eqn:Hrm.
    + exists (dict_keys bb). split_and!; [done..|]. intros n. split.
      * intros Hn.
        destruct (finite_predecessors_cycle (blocks s) (dict_keys bb) n Hn)
          as (c & _ & Hc & Hcn); [|by exists c].
        intros k [d Hd]%dict_get_is_Some.
        destruct (peel_entries _ _ Hinv _ _ Hd) as [_ Hall].
        destruct d as [|[m b] d].
        { assert (k ∈ ExecutionList.to_remove bb) as Hk.
          { apply to_remove_elem; [apply Hinv|done]. }
          rewrite Hrm in Hk. by apply elem_of_nil in Hk. }
        destruct (Hall m) as [? ?]; [left|]. eauto.
      * intros Hn. destruct (peel_supported _ _ Hinv n Hn) as (d & ? & Hd & _).
        apply dict_get_is_Some. eauto.
    + assert (Hx : x ∈ dict_keys bb).
      { assert (x ∈ ExecutionList.to_remove bb) as Hin by (rewrite Hrm; left).
        apply to_remove_elem in Hin; [|apply Hinv].
        apply dict_get_is_Some. eauto. }
      destruct (peel_inv_foldl s rm (ExecutionList.dissolve bb x))
        as (Hinv' & Hsub & Hlen).
      { apply peel_inv_dissolve; [done|].
        eapply to_remove_not_downstream; [done|]. rewrite Hrm. left. }
      { intros y Hy. eapply to_remove_not_downstream; [done|].
        rewrite Hrm. by right. }
      destruct (dissolve_length bb x) as [_ Hlt]. specialize (Hlt Hx).
      destruct (IH (foldl ExecutionList.dissolve (ExecutionList.dissolve bb x) rm))
        as (l & Hrun & Hl & Hchar); [lia|done|].
      exists l. split_and!; [done| |done].
      etrans; [exact Hl|]. etrans; [exact Hsub|].
      rewrite dissolve_keys by apply Hinv. apply sublist_filter.
Qed.

Lemma block_inv_blocks s m targets n sockets :
  block_inv s → (m, targets) ∈ blocking s → (n, sockets) ∈ targets →
  true ∈ dict_values sockets → blocks s m n.
Proof.
  intros Hinv Hm Hn Htrue. pose proof Hinv as [Hwf Hkeys Htargets Hcount].
  pose proof (dict_elem_get _ _ _ (block_inv_blocking_wf _ Hinv) Hm) as Hmget.
  destruct (Htargets _ _ Hmget) as [Htwf _].
  pose proof (dict_elem_get _ _ _ Htwf Hn) as Hnget.
  split_and!.
  - unfold pending. rewrite <-Hkeys. apply dict_get_is_Some. eauto.
  - eapply block_inv_edge_pending; [done..|].
    apply dict_get_is_Some. eauto.
  - eauto.
Qed.

Lemma get_nodes_in_cycle_spec s :
  block_inv (super s) →
  ∃ l, ExecutionList.get_nodes_in_cycle s = Val l
     ∧ l `sublist_of` dict_keys (pendingNodes (super s))
     ∧ ∀ n, n ∈ l ↔ downstream (super s) n.
Proof.
  intros Hinv. pose proof Hinv as [Hwf Hkeys Htargets Hcount].
  unfold ExecutionList.get_nodes_in_cycle.
  set (bb0 := (λ n, (n, [])) <$> dict_keys (pendingNodes (super s))).
  assert (Hk0 : dict_keys bb0 = dict_keys (pendingNodes (super s))).
  { unfold bb0, dict_keys. rewrite <-list_fmap_compose. apply list_fmap_id. }
  destruct (record_edges_spec (blocking (super s)) bb0)
    as (bb & Hrun & [Hkbb _] & Hrec).
  { intros m targets [n sockets] Hm Hn. rewrite Hk0. simpl.
    eapply block_inv_edge_pending; [done..|].
    apply list_elem_of_fmap. by exists (n, sockets). }
  rewrite Hrun. simpl.
  assert (Hent : entries (blocks (super s)) bb).
  { eapply (record_edges_entries _ (blocking (super s)) bb0); [| |exact Hrun].
    - intros n d (? & [= _ ->] & _)%dict_get_Some_elem%list_elem_of_fmap.
      split; [apply NoDup_nil_2|]. by intros m ?%elem_of_nil.
    - intros m targets n sockets. by apply block_inv_blocks. }
  assert (Hpeel : peel_inv (super s) bb).
  { split.
    - unfold dict_wf. by rewrite Hkbb, Hk0.
    - intros n d Hd. destruct (Hent _ _ Hd) as [Hdwf Hall]. split; [done|].
      intros m Hm. split; [|by apply Hall].
      rewrite Hkbb, Hk0. by destruct (Hall m Hm).
    - intros n Hn.
      destruct (downstream_predecessor (blocks (super s)) n Hn)
        as (m & Hmn & Hm).
      pose proof Hmn as (_ & _ & targets & sockets & Ht & Hs & Htrue).
      destruct (Hrec m targets n sockets) as (d & Hd & Hmd);
        [by apply dict_get_Some_elem..|done|].
      by exists d, m. }
  destruct (peel_spec (super s) (length bb) bb) as (l & Hl & Hsub & Hchar);
    [done..|].
  exists l. split_and!; [done| |done]. by rewrite <-Hk0, <-Hkbb.
Qed.

Lemma downstream_blocked s n :
  block_inv s → downstream s n → ¬ ready s n.
Proof.
  intros Hinv Hn [Hp Hc].
  destruct (downstream_predecessor (blocks s) n Hn) as (m & Hmn & _).
  destruct (block_inv_count_invariant s Hinv n Hp) as (c & Hc' & Hiff).
  rewrite Hc in Hc'. injection Hc' as <-.
  apply (proj1 Hiff); [done|].
  destruct Hmn as (Hm & _ & targets & sockets & ? & ? & ?).
  by exists m, targets, sockets.
Qed.

Lemma mixed_state_reachable : reachable example_registry (super mixed_list).
Proof.
  apply (reachable_call _ (TopologicalSort.__init__ mixed_prompt)
           (call_add_node 5 "C" false None)).
  - apply reachable_init.
  - exact I.
  - vm_compute. reflexivity.
Qed.

Lemma mixed_list_downstream n :
  n ∈ ["C"; "A"; "B"] ↔ downstream (super mixed_list) n.
Proof.
  destruct (get_nodes_in_cycle_spec mixed_list) as (l & Hl & _ & Hchar).
  { apply (reachable_block_inv example_registry), mixed_state_reachable. }
  vm_compute in Hl. injection Hl as <-. apply Hchar.
Qed.

(** X16.  When [stage_node_execution] returns error details, the block graph
    of a scheduler within the protocol has a dependency cycle among its
    pending nodes: the error is a DependencyCycleError, no node is handed
    out, and the scheduler is left as it was. *)
Theorem cycle_error_means_cycle reg fuel s nid err ex s' :
  reachable reg (super s) →
  ExecutionList.stage_node_execution reg fuel s = Ok (nid, Some err, ex) s' →
  nid = None ∧ ex = Some DependencyCycleError ∧ s' = s
  ∧ exception_type err = "graph.DependencyCycleError"
  ∧ ∃ n, pending (super s) n ∧ on_cycle (super s) n.
Proof.
  intros Hinv%reachable_block_inv. rewrite stage_node_execution_eq.
  destruct (staged_node_id s); [done|].
  destruct (ExecutionList.is_empty s) eqn:Hempty; [done|].
  destruct (ExecutionList.get_ready_nodes s) as [[|n available]| |] eqn:Hready;
    [| |done..].
  - destruct (ExecutionList.get_nodes_in_cycle s) as [[|first rest]| |];
      [done| |done..].
    destruct (ExecutionList.blame fuel s (first :: rest) first); [|done..].
    intros [= <- <- <- <-]. split_and!; [done..|].
    unfold ExecutionList.is_empty, TopologicalSort.is_empty in Hempty.
    apply bool_decide_eq_false in Hempty.
    destruct (pendingNodes (super s)) as [|[n0 v] rest'] eqn:Hp; [done|].
    destruct (finite_predecessors_cycle (blocks (super s))
                (dict_keys (pendingNodes (super s))) n0)
      as (c & Hc & Hcc & _).
    + rewrite Hp. left.
    + intros n Hn. by apply no_ready_all_blocked.
    + exists c. by split.
  - by destruct (ExecutionList.ux_friendly_pick_node reg (n :: available) s).
Qed.

Lemma cycle_error_means_cycle_witness :
  ∃ n, pending (super cycle_list) n ∧ on_cycle (super cycle_list) n.
Proof.
  destruct (cycle_error_means_cycle example_registry 0 cycle_list None
              (ExecutionList.cycle_error "C") (Some DependencyCycleError)
              cycle_list)
    as (_ & _ & _ & _ & Hcycle);
    [exact cycle_state_reachable|vm_compute; reflexivity|exact Hcycle].
Defined.

(** X17.  In a scheduler within the protocol [get_nodes_in_cycle] returns,
    in the order of [pendingNodes] and each once, exactly the pending nodes
    that lie on a dependency cycle or depend, directly or through other
    nodes, on a node of one. *)
Theorem get_nodes_in_cycle_downstream reg s :
  reachable reg (super s) →
  ∃ l, ExecutionList.get_nodes_in_cycle s = Val l
     ∧ l `sublist_of` dict_keys (pendingNodes (super s))
     ∧ NoDup l
     ∧ ∀ n, n ∈ l ↔ downstream (super s) n.
Proof.
  intros Hinv%reachable_block_inv.
  destruct (get_nodes_in_cycle_spec s Hinv) as (l & Hl & Hsub & Hchar).
  exists l. split_and!; [done..| |done].
  eapply sublist_NoDup; [|exact Hsub]. apply Hinv.
Qed.

Lemma get_nodes_in_cycle_downstream_witness :
  ExecutionList.get_nodes_in_cycle mixed_list = Val ["C"; "A"; "B"]
  ∧ ∀ n, n ∈ ["C"; "A"; "B"] ↔ downstream (super mixed_list) n.
Proof.
  destruct (get_nodes_in_cycle_downstream example_registry mixed_list)
    as (l & Hl & _ & _ & Hchar); [exact mixed_state_reachable|].
  split; [vm_compute; reflexivity|].
  vm_compute in Hl. injection Hl as <-. exact Hchar.
Defined.

(** X18.  A node that lies on a dependency cycle, or depends on a node of
    one, is not ready, and [stage_node_execution] does not hand it out. *)
Theorem cycle_node_not_staged reg fuel s n err ex s' :
  reachable reg (super s) → downstream (super s) n →
  ¬ ready (super s) n
  ∧ ExecutionList.stage_node_execution reg fuel s ≠ Ok (Some n, err, ex) s'.
Proof.
  intros Hinv%reachable_block_inv Hn.
  pose proof (downstream_blocked _ _ Hinv Hn) as Hnot. split; [done|].
  intros (_ & _ & _ & _ & _ & Hready & _)%stage_node_staged. done.
Qed.

Lemma cycle_node_not_staged_witness :
  ¬ ready (super mixed_list) "C"
  ∧ ExecutionList.stage_node_execution example_registry 0 mixed_list
    ≠ Ok (Some "C", None, None) (set_staged_node_id (Some "C") mixed_list).
Proof.
  apply (cycle_node_not_staged example_registry 0 mixed_list "C").
  - exact mixed_state_reachable.
  - apply mixed_list_downstream. left.
Defined.

(** ** A cycle stays *)

Lemma blocks_mark s u m n :
  dict_mem u (pendingNodes s) = false →
  blocks s m n → blocks (TopologicalSort.mark_pending u s) m n.
Proof.
  intros Hu%dict_mem_false (Hm & Hn & targets & sockets & Ht & Hs & Htrue).
  split_and!.
  - apply dict_keys_set. by right.
  - apply dict_keys_set. by right.
  - exists targets, sockets. split_and!; [|done..]. simpl.
    rewrite dict_get_set_ne; [done|]. by intros ->.
Qed.

Lemma blocks_edge s from sock to m n :
  blocks s m n →
  post (TopologicalSort.insert_edge from sock to s) (λ s', blocks s' m n).
Proof.
  intros (Hm & Hn & targets & sockets & Ht & Hs & Htrue).
  rewrite insert_edge_eq.
  destruct (dict_get from (blocking s)) as [b|] eqn:Hb; simpl;
    [|by split_and!; [..|exists targets, sockets]].
  assert (Hother : ∀ v bc,
    dict_get to b = None →
    blocks {| dynprompt := dynprompt s; pendingNodes := pendingNodes s;
              blockCount := bc;
              blocking := dict_set from (dict_set to v b) (blocking s) |} m n).
  { intros v bc Hto. split_and!; [done..|]. simpl.
    destruct (decide (from = m)) as [->|Hne].
    - rewrite Ht in Hb. injection Hb as <-.
      exists (dict_set to v targets), sockets.
      rewrite dict_get_set_eq. split_and!; [done| |done].
      rewrite dict_get_set_ne; [done|]. intros ->. congruence.
    - exists targets, sockets. by rewrite dict_get_set_ne. }
  destruct (dict_get to b) as [sockets'|] eqn:Hto; simpl.
  - split_and!; [done..|]. simpl.
    destruct (decide (from = m)) as [->|Hne].
    + rewrite Ht in Hb. injection Hb as <-.
      destruct (decide (to = n)) as [->|Hne'].
      * rewrite Hs in Hto. injection Hto as <-.
        exists (dict_set n (dict_set sock true sockets) targets),
          (dict_set sock true sockets).
        rewrite !dict_get_set_eq. split_and!; [done..|].
        apply dict_values_set_elem.
      * exists (dict_set to (dict_set sock true sockets') targets), sockets.
        rewrite dict_get_set_eq, dict_get_set_ne by done. by split_and!.
    + exists targets, sockets. by rewrite dict_get_set_ne.
  - destruct (blockCount s !! to) as [c|]; simpl.
    + by apply Hother.
    + by apply (Hother _ (blockCount s)).
Qed.

Lemma blocks_add_node reg fuel n il sg s :
  post (TopologicalSort.add_node reg fuel n il sg s)
    (λ s', ∀ m t, blocks s m t → blocks s' m t).
Proof.
  eapply post_impl.
  - apply (add_node_rule reg true
             (λ s', ∀ m t, blocks s m t → blocks s' m t) (λ _ _, True));
      try done.
    + intros s1 u Hkeep Hu m t Hmt. by apply blocks_mark, Hkeep.
    + intros s1 [[from sock] to] Hkeep _. simpl.
      pose proof (λ m t (H : blocks s m t),
                    blocks_edge s1 from sock to m t (Hkeep m t H)) as Hpost.
      destruct (TopologicalSort.insert_edge from sock to s1); simpl in *; auto.
    + by destruct il.
  - by intros s' [? _].
Qed.

Lemma blocks_add_strong_link reg fuel from sock to s :
  post (TopologicalSort.add_strong_link reg fuel from sock to s)
    (λ s', ∀ m t, blocks s m t → blocks s' m t).
Proof.
  eapply post_impl.
  - apply (add_strong_link_rule reg true
             (λ s', ∀ m t, blocks s m t → blocks s' m t) (λ _ _, True));
      try done.
    + intros s1 u Hkeep Hu m t Hmt. by apply blocks_mark, Hkeep.
    + intros s1 [[from' sock'] to'] Hkeep _. simpl.
      pose proof (λ m t (H : blocks s m t),
                    blocks_edge s1 from' sock' to' m t (Hkeep m t H)) as Hpost.
      destruct (TopologicalSort.insert_edge from' sock' to' s1); simpl in *;
        auto.
  - by intros s' [? _].
Qed.

Lemma blocks_pop s u s' m n :
  block_inv s → TopologicalSort.pop_node u s = Ok () s' →
  blocks s m n → m ≠ u → n ≠ u → blocks s' m n.
Proof.
  intros Hinv Hpop (Hm & Hn & targets & sockets & Ht & Hs & Htrue) Hmu Hnu.
  pose proof Hinv as [Hwf Hkeys Htargets Hcount].
  assert (Hu : dict_mem u (pendingNodes s) = true).
  { rewrite pop_node_eq in Hpop.
    by destruct (dict_mem u (pendingNodes s)). }
  assert (is_Some (dict_get u (blocking s))) as [b Hb].
  { apply dict_get_is_Some. rewrite Hkeys. by apply dict_mem_true. }
  destruct (Htargets _ _ Hb) as [_ Hbent].
  rewrite (pop_node_counted u s b) in Hpop; [|done..|].
  2:{ intros k [sk Hk]%dict_get_is_Some.
      destruct (Hbent _ _ Hk) as [Hp _]. rewrite (Hcount _ Hp). eauto. }
  injection Hpop as <-. split_and!.
  - apply dict_keys_del; [done|]. by split.
  - apply dict_keys_del; [done|]. by split.
  - exists targets, sockets. simpl. rewrite dict_get_del_ne by done.
    by split_and!.
Qed.

Lemma downstream_closed s a b : downstream s a → blocks s a b → downstream s b.
Proof.
  intros (c & Hc & Hca) Hab. exists c. split; [done|].
  eapply rtc_r; [exact Hca|exact Hab].
Qed.

Lemma downstream_keeps s s' n :
  (∀ m t, downstream s m → downstream s t → blocks s m t → blocks s' m t) →
  downstream s n → downstream s' n.
Proof.
  intros Hkeep (c & Hc & Hcn).
  assert (Hdc : downstream s c) by (by exists c).
  assert (Hsub : ∀ m t,
    blocks s m t ∧ downstream s m ∧ downstream s t → blocks s' m t).
  { intros m t (? & ? & ?). by apply Hkeep. }
  exists c. split.
  - apply (tc_congruence id _ _ _ Hsub).
    apply tc_closed; [apply downstream_closed|done..].
  - apply (rtc_congruence id _ _ _ Hsub).
    apply rtc_closed; [apply downstream_closed|done..].
Qed.

(** X19.  A dependency cycle stays: whatever call the scheduler makes within
    the protocol, a node that lies on a cycle or depends on a node of one
    does so afterwards, so that it stays pending and is never ready. *)
Theorem cycle_stays reg s c s' n :
  reachable reg s → in_protocol s c → left_by (exec reg c s) s' →
  downstream s n →
  downstream s' n ∧ pending s' n ∧ ¬ ready s' n.
Proof.
  intros Hreach Hproto Hleft Hn.
  assert (Hreach' : reachable reg s') by (by eapply reachable_call).
  assert (Hdown : downstream s' n).
  { pose proof (reachable_block_inv _ _ Hreach) as Hinv.
    destruct c as [fuel u il sg|fuel from sock to|u]; simpl in *.
    - pose proof (blocks_add_node reg fuel u il sg s) as Hpost.
      eapply downstream_keeps; [|done]. intros m t _ _.
      destruct (TopologicalSort.add_node _ _ _ _ _ _); simpl in *;
        [subst; auto..|done].
    - pose proof (blocks_add_strong_link reg fuel from sock to s) as Hpost.
      eapply downstream_keeps; [|done]. intros m t _ _.
      destruct (TopologicalSort.add_strong_link _ _ _ _ _ _); simpl in *;
        [subst; auto..|done].
    - destruct (block_inv_pop s u Hinv Hproto) as (s1 & Hpop & _).
      rewrite Hpop in Hleft. simpl in Hleft. subst s1.
      eapply downstream_keeps; [|done]. intros m t Hm Ht Hmt.
      eapply blocks_pop; [done..| |].
      + intros ->. by apply (downstream_blocked s u).
      + intros ->. by apply (downstream_blocked s u). }
  pose proof (reachable_block_inv _ _ Hreach') as Hinv'.
  split_and!; [done| |by apply downstream_blocked].
  destruct (downstream_predecessor (blocks s') n Hdown) as (m & Hmn & _).
  apply Hmn.
Qed.

Lemma cycle_stays_witness :
  downstream
    (state_after example_registry [call_pop_node "D"] (super mixed_list)) "C"
  ∧ pending
      (state_after example_registry [call_pop_node "D"] (super mixed_list)) "C"
  ∧ ¬ ready
      (state_after example_registry [call_pop_node "D"] (super mixed_list)) "C".
Proof.
  apply (cycle_stays example_registry (super mixed_list) (call_pop_node "D")).
  - exact mixed_state_reachable.
  - split; [vm_compute; right; left|vm_compute; reflexivity].
  - vm_compute. reflexivity.
  - apply mixed_list_downstream. left.
Defined.

(** ** Progress *)

Lemma first_r_returns {A} (p : A → result bool) l :
  (∀ x, x ∈ l → ∃ b, p x = Val b) → ∃ r, first_r p l = Val r.
Proof.
  induction l as [|y l IH]; intros Hall; simpl; [eauto|].
  destruct (Hall y) as [[] ->]; [left|simpl; eauto|]. simpl.
  apply IH. intros. apply Hall. by right.
Qed.

Lemma any_r_returns {A} (p : A → result bool) l :
  (∀ x, x ∈ l → ∃ b, p x = Val b) → ∃ b, any_r p l = Val b.
Proof.
  intros Hall. destruct (any_r_false_or_true p l Hall) as (b & ? & _). eauto.
Qed.

Lemma filter_r_returns {A} (p : A → result bool) l :
  (∀ x, x ∈ l → ∃ b, p x = Val b) →
  ∃ l', filter_r p l = Val l' ∧ ∀ x, x ∈ l → p x = Val true → x ∈ l'.
Proof.
  induction l as [|y l IH]; intros Hall; simpl.
  - exists []. split; [done|]. by intros x ?%elem_of_nil.
  - destruct IH as (rest & Hrest & Hin); [intros; apply Hall; by right|].
    destruct (Hall y) as [b Hy]; [left|]. rewrite Hy, Hrest. simpl.
    eexists. split; [done|].
    intros x [->|Hx]%elem_of_cons Hpx.
    + rewrite Hy in Hpx. injection Hpx as ->. left.
    + destruct b; [right|]; by apply Hin.
Qed.

Section progress.
Variable reg : gmap string ClassDef.
Variable self : ExecutionList.
Hypothesis Hinv : block_inv (super self).
Hypothesis Hreg : nodes_registered reg self.

Lemma is_output_returns n :
  pending (super self) n → ∃ b, ExecutionList.is_output reg self n = Val b.
Proof.
  intros (c & Hc & cd & Hcd)%Hreg. unfold ExecutionList.is_output, gitem.
  rewrite Hc. simpl. rewrite Hcd. simpl. eauto.
Qed.

Lemma blocked_pending n b :
  dict_get n (blocking (super self)) = Some b →
  ∀ k, k ∈ dict_keys b → pending (super self) k.
Proof.
  intros Hb k [sockets Hk]%dict_get_is_Some.
  destruct (inv_targets _ Hinv _ _ Hb) as [_ Hent].
  by destruct (Hent _ _ Hk).
Qed.

Lemma blocks_output_returns n :
  pending (super self) n → ∃ b, ExecutionList.blocks_output reg self n = Val b.
Proof.
  intros Hn. unfold ExecutionList.blocks_output, item.
  assert (is_Some (dict_get n (blocking (super self)))) as [b Hb].
  { apply dict_get_is_Some. by rewrite (inv_keys _ Hinv). }
  rewrite Hb. simpl. apply any_r_returns.
  intros k Hk. apply is_output_returns. by eapply blocked_pending.
Qed.

Lemma blocks_output2_returns n :
  pending (super self) n → ∃ b, ExecutionList.blocks_output2 reg self n = Val b.
Proof.
  intros Hn. unfold ExecutionList.blocks_output2, item.
  assert (is_Some (dict_get n (blocking (super self)))) as [b Hb].
  { apply dict_get_is_Some. by rewrite (inv_keys _ Hinv). }
  rewrite Hb. simpl. apply any_r_returns.
  intros k Hk. apply blocks_output_returns. by eapply blocked_pending.
Qed.

Lemma pick_candidate_returns candidates :
  candidates ≠ [] → (∀ n, n ∈ candidates → pending (super self) n) →
  ∃ nid, pick_candidate reg self candidates = Val nid.
Proof.
  intros Hne Hall. unfold pick_candidate.
  destruct (first_r_returns (ExecutionList.is_output reg self) candidates)
    as [r1 ->]; [intros; by apply is_output_returns, Hall|]. simpl.
  destruct r1 as [nid|]; [eauto|].
  destruct (first_r_returns (ExecutionList.blocks_output reg self) candidates)
    as [r2 ->]; [intros; by apply blocks_output_returns, Hall|]. simpl.
  destruct r2 as [nid|]; [eauto|].
  destruct (first_r_returns (ExecutionList.blocks_output2 reg self) candidates)
    as [r3 ->]; [intros; by apply blocks_output2_returns, Hall|]. simpl.
  destruct r3 as [nid|]; [eauto|].
  destruct candidates; [done|eauto].
Qed.

Lemma class_test_returns (test : string → bool) n :
  pending (super self) n →
  ∃ b, (ctype <-? ExecutionList.class_of self n ;; Val (test ctype)) = Val b.
Proof. intros (c & -> & _)%Hreg. simpl. eauto. Qed.

Lemma pick_in_group_returns node_list g :
  (∀ n, n ∈ node_list → pending (super self) n) →
  _current_group_class self = Some g →
  any_r (λ nid, ctype <-? ExecutionList.class_of self nid ;;
                Val (bool_decide (ctype = g))) node_list = Val true →
  ∃ nid, pick_in_group reg self node_list = Val nid.
Proof.
  intros Hall Hg Hany. unfold pick_in_group, ExecutionList._filter_by_group.
  rewrite Hg.
  destruct (filter_r_returns
              (λ nid, ctype <-? ExecutionList.class_of self nid ;;
                      Val (bool_decide (Some ctype = Some g))) node_list)
    as (candidates & Hf & Hin).
  { intros x Hx.
    apply (class_test_returns (λ c, bool_decide (Some c = Some g))). auto. }
  rewrite Hf. simpl. apply pick_candidate_returns.
  - destruct (any_r_false_or_true
                (λ nid, ctype <-? ExecutionList.class_of self nid ;;
                        Val (bool_decide (ctype = g))) node_list)
      as (b & Hb & Hiff).
    { intros x Hx. apply (class_test_returns (λ c, bool_decide (c = g))). auto. }
    rewrite Hany in Hb. injection Hb as <-.
    destruct (proj1 Hiff eq_refl) as (x & Hx & Hpx).
    assert (x ∈ candidates) as Hxc; [|by intros ->; apply elem_of_nil in Hxc].
    apply Hin; [done|].
    destruct (ExecutionList.class_of self x) as [c| |]; simpl in *; [|done..].
    injection Hpx as Hpx%bool_decide_eq_true. subst c.
    by rewrite bool_decide_eq_true_2.
  - intros n Hn. apply Hall.
    by destruct (filter_r_elem _ _ _ _ Hf Hn).
Qed.
End progress.

Lemma pick_largest_group_returns self l :
  l ≠ [] → (∀ n, n ∈ l → ∃ c, ExecutionList.class_of self n = Val c) →
  ∃ g, ExecutionList._pick_largest_group self l = Val g.
Proof.
  intros Hne Hall. unfold ExecutionList._pick_largest_group.
  destruct (count_classes_spec self l [] (NoDup_nil_2 (A:=string)) Hall)
    as (counts & Hrun & Hwf & Hval & Hdom).
  rewrite Hrun. simpl. destruct counts as [|kv items]; [|simpl; eauto].
  exfalso. destruct l as [|x l]; [done|]. destruct (Hall x) as [c Hc]; [left|].
  assert (is_Some (dict_get c ([] : dict string Z))) as [? [=]].
  apply Hdom. right. rewrite representatives_cons, decide_True by done.
  pose proof (representatives_nonneg self c l). lia.
Qed.

Lemma ux_friendly_pick_node_returns reg node_list s :
  block_inv (super s) → nodes_registered reg s →
  node_list ≠ [] → (∀ n, n ∈ node_list → pending (super s) n) →
  ∃ nid s', ExecutionList.ux_friendly_pick_node reg node_list s = Ok nid s'.
Proof.
  intros Hinv Hreg Hne Hall. rewrite ux_friendly_pick_node_eq.
  assert (Hfresh : ∃ nid s',
    match ExecutionList._pick_largest_group s node_list with
    | Val g =>
        let s1 := set_current_group_class (Some g) s in
        match pick_in_group reg s1 node_list with
        | Val nid => Ok nid s1
        | Exc e => Raise e s1
        | NoFuel => OutOfFuel
        end
    | Exc e => Raise e s
    | NoFuel => OutOfFuel
    end = Ok nid s').
  { destruct (pick_largest_group_returns s node_list Hne) as [g Hg].
    { intros n (c & Hc & _)%Hall%Hreg. eauto. }
    rewrite Hg. simpl.
    destruct (pick_in_group_returns reg (set_current_group_class (Some g) s)
                Hinv Hreg node_list g Hall eq_refl) as [nid ->]; [|eauto].
    exact (pick_largest_group_member s node_list g Hg). }
  unfold stale. destruct (_current_group_class s) as [g|] eqn:Hg; [|done].
  destruct (any_r_false_or_true
              (λ nid, ctype <-? ExecutionList.class_of s nid ;;
                      Val (bool_decide (ctype = g))) node_list)
    as (b & Hb & _).
  { intros x Hx. apply (class_test_returns reg s Hreg (λ c, bool_decide (c = g))).
    auto. }
  rewrite Hb. simpl. destruct b; simpl; [|done].
  destruct (pick_in_group_returns reg s Hinv Hreg node_list g Hall Hg Hb)
    as [nid ->].
  eauto.
Qed.

Lemma chain_list_acyclic n : ¬ on_cycle (super chain_list) n.
Proof.
  intros Hn.
  destruct (get_nodes_in_cycle_spec chain_list) as (l & Hl & _ & Hchar).
  { apply (reachable_block_inv example_registry), chain_state_reachable. }
  vm_compute in Hl. injection Hl as <-.
  assert (n ∈ ([] : list node_id)) as Hin; [|by apply elem_of_nil in Hin].
  apply Hchar. by exists n.
Qed.

Lemma chain_list_registered : nodes_registered example_registry chain_list.
Proof.
  intros n Hn. vm_compute in Hn.
  repeat (apply elem_of_cons in Hn as [->|Hn]);
    [exists "X"; split; [vm_compute; reflexivity|by eexists]..|].
  by apply elem_of_nil in Hn.
Qed.

(** X20.  The scheduler does not get stuck.  In a scheduler within the
    protocol whose slot is empty, with nodes pending, every pending node in
    the prompt with a registered class, and no dependency cycle,
    [stage_node_execution] hands out a node: it neither raises nor reports
    a cycle. *)
Theorem stage_makes_progress reg fuel s :
  reachable reg (super s) →
  staged_node_id s = None →
  ExecutionList.is_empty s = false →
  nodes_registered reg s →
  (∀ n, ¬ on_cycle (super s) n) →
  ∃ nid s',
    ExecutionList.stage_node_execution reg fuel s = Ok (Some nid, None, None) s'
    ∧ ready (super s) nid ∧ staged_node_id s' = Some nid.
Proof.
  intros Hinv%reachable_block_inv Hslot Hempty Hreg Hacyclic.
  assert (Hrun : ExecutionList.get_ready_nodes s
    = Val (filter (λ n, blockCount (super s) !! n = Some 0)
             (dict_keys (pendingNodes (super s))))).
  { apply ready_among_spec. intros n Hn.
    rewrite (inv_count _ Hinv n Hn). eauto. }
  destruct (filter _ _) as [|n available] eqn:Hf.
  { exfalso.
    unfold ExecutionList.is_empty, TopologicalSort.is_empty in Hempty.
    apply bool_decide_eq_false in Hempty.
    destruct (pendingNodes (super s)) as [|[n0 v] rest] eqn:Hp; [done|].
    destruct (finite_predecessors_cycle (blocks (super s))
                (dict_keys (pendingNodes (super s))) n0)
      as (c & _ & Hcc & _).
    - rewrite Hp. left.
    - intros n Hn. by apply no_ready_all_blocked.
    - by apply (Hacyclic c). }
  destruct (ux_friendly_pick_node_returns reg (n :: available) s)
    as (nid & s1 & Hpick); [done..| |].
  { intros x Hx. rewrite <-Hf in Hx.
    by apply list_elem_of_filter in Hx as [_ ?]. }
  exists nid, (set_staged_node_id (Some nid) s1).
  assert (Hstage : ExecutionList.stage_node_execution reg fuel s
                   = Ok (Some nid, None, None) (set_staged_node_id (Some nid) s1)).
  { by rewrite stage_node_execution_eq, Hslot, Hempty, Hrun, Hpick. }
  split; [done|].
  destruct (stage_node_staged _ _ _ _ _ _ _ Hstage)
    as (_ & _ & _ & ? & _ & ? & _).
  done.
Qed.

Lemma stage_makes_progress_witness :
  ∃ nid s',
    ExecutionList.stage_node_execution example_registry 0 chain_list
    = Ok (Some nid, None, None) s'
    ∧ ready (super chain_list) nid ∧ staged_node_id s' = Some nid.
Proof.
  apply (stage_makes_progress example_registry 0 chain_list).
  - exact chain_state_reachable.
  - reflexivity.
  - vm_compute. reflexivity.
  - exact chain_list_registered.
  - exact chain_list_acyclic.
Defined.
